(** * name-suggestion-index viewer: [app/src/AppContext.jsx]

    A shallow embedding of the query-string codec ([stringQs], [qsString]),
    of the two effects that keep the view parameters and the browser location
    in step, and of the three dataset loaders ([useFetch], [useNsi],
    [useTaginfo]), followed by the properties proved about them.

    Conventions of the embedding.
    - A JavaScript string is represented by the UTF-8 bytes of its code
      points (Rocq's [string]).  The separators the code splits on
      ([&], [=], [/], [?], [#]) are ASCII, so splitting bytes and splitting
      UTF-16 code units agree.  Strings holding a lone surrogate have no
      representation; [wf_string] says that a byte string is the encoding
      of some JavaScript string.
    - A thrown exception ([URIError], [TypeError]) is the result [None].
    - A plain object used as a dictionary is the ordered list of its own
      properties; its prototype is [Object.prototype], whose property names
      are [Obj.proto_names].  Assigning a string to the key [__proto__]
      stores nothing ([Obj.assign]); a read names an own property or a name
      [Object.prototype] lacks, except for [index.id[itemID]], which is
      followed along the prototype chain ([Index.read]).
    - The items of the fetched taxonomy are objects in a store, named by
      their position in the response; [index.path] and [index.id] hold
      references into that store, so that the tagging in place is seen
      through both.
    - A hook is the state it keeps between renders, with the effect and the
      settling of its request as events. *)

From Stdlib Require Import Ascii String NArith List.
From stdpp Require Import gmap strings list fin_maps.

Local Open Scope char_scope.
Local Open Scope stdpp_scope.

(** ** JavaScript values that occur in the source *)

Module Js.

(** The values a query parameter, a tag field or an item field can hold
    here: a string, or [undefined] when the property is absent. *)
Inductive val := Undefined | Str (s : string).

#[global] Instance val_eq_dec : EqDecision val.
Proof. solve_decision. Defined.

(** [ToString]. *)
Definition to_string (v : val) : string :=
  match v with
  | Undefined => "undefined"
  | Str s => s
  end.

(** [ToBoolean]: [undefined] and the empty string are falsy. *)
Definition truthy (v : val) : bool :=
  match v with
  | Undefined => false
  | Str "" => false
  | Str _ => true
  end.

(** *** Strings *)

(** [a.join(sep)] for an array of strings. *)
Fixpoint join (sep : string) (l : list string) : string :=
  match l with
  | [] => ""
  | [a] => a
  | a :: l' => a +:+ sep +:+ join sep l'
  end.

(** [s.split(sep)] for a one-character separator: never empty, the empty
    string splits into one empty part. *)
Fixpoint split (sep : ascii) (s : string) : list string :=
  match s with
  | "" => [""]
  | String c s' =>
      if Ascii.eqb c sep then "" :: split sep s'
      else match split sep s' with
           | [] => [String c ""]
           | w :: ws => String c w :: ws
           end
  end.

(** [s.split(sep, limit)]: the first [limit] parts, the rest dropped. *)
Definition split_limit (sep : ascii) (limit : nat) (s : string) : list string :=
  take limit (split sep s).

(** [parts[i]] of an array of strings. *)
Definition nth_val (parts : list string) (i : nat) : val :=
  match parts !! i with
  | Some s => Str s
  | None => Undefined
  end.

(** *** Percent-encoding *)

(** The characters [encodeURIComponent] leaves alone: ASCII letters,
    digits and [- _ . ! ~ * ' ( )]. *)
Definition uri_unreserved (c : ascii) : bool :=
  let n := N_of_ascii c in
  ((65 <=? n) && (n <=? 90) || (97 <=? n) && (n <=? 122)
   || (48 <=? n) && (n <=? 57))%N
  || bool_decide (c ∈ ["-"; "_"; "."; "!"; "~"; "*"; "'"; "("; ")"]%char).

Definition hex_digit (n : N) : ascii :=
  if (n <? 10)%N then ascii_of_N (48 + n) else ascii_of_N (55 + n).

(** Both cases of hexadecimal digits are read. *)
Definition hex_val (c : ascii) : option N :=
  let n := N_of_ascii c in
  if ((48 <=? n) && (n <=? 57))%N then Some (n - 48)%N
  else if ((65 <=? n) && (n <=? 70))%N then Some (n - 55)%N
  else if ((97 <=? n) && (n <=? 102))%N then Some (n - 87)%N
  else None.

(** [encodeURIComponent]: every byte of a character outside the
    unreserved set becomes [%XX], upper-case. *)
Fixpoint encodeURIComponent (s : string) : string :=
  match s with
  | "" => ""
  | String c s' =>
      if uri_unreserved c then String c (encodeURIComponent s')
      else
        let n := N_of_ascii c in
        String "%" (String (hex_digit (n / 16)) (String (hex_digit (n mod 16))
          (encodeURIComponent s')))
  end.

(** First pass of [decodeURIComponent]: every [%XX] becomes the byte it
    names, tagged [true]; other characters are copied, tagged [false].
    A [%] that is not followed by two hexadecimal digits throws. *)
Fixpoint unescape (s : string) : option (list (bool * ascii)) :=
  match s with
  | "" => Some []
  | String c s' =>
      if Ascii.eqb c "%" then
        match s' with
        | String h (String l s'') =>
            hi ← hex_val h; lo ← hex_val l;
            ((true, ascii_of_N (16 * hi + lo)) ::.) <$> unescape s''
        | _ => None
        end
      else ((false, c) ::.) <$> unescape s'
  end.

Definition byte_in (lo hi : N) (c : ascii) : bool :=
  ((lo <=? N_of_ascii c) && (N_of_ascii c <=? hi))%N.

(** A continuation byte of an escaped character must itself be escaped. *)
Definition tail_ok (lo hi : N) (e : bool * ascii) : bool :=
  e.1 && byte_in lo hi e.2.

(** Range of the second byte, by leading byte (Unicode, table 3-7):
    no overlong forms, no surrogates, nothing above U+10FFFF. *)
Definition second_lo (b : ascii) : N :=
  if byte_in 224 224 b then 160 else if byte_in 240 240 b then 144 else 128.
Definition second_hi (b : ascii) : N :=
  if byte_in 237 237 b then 159 else if byte_in 244 244 b then 143 else 191.

(** Second pass of [decodeURIComponent]: an escaped byte above 0x7F must
    start a well-formed UTF-8 sequence made of escaped bytes only. *)
Fixpoint utf8_escapes (l : list (bool * ascii)) : bool :=
  match l with
  | [] => true
  | (false, _) :: l1 => utf8_escapes l1
  | (true, b) :: l1 =>
      if byte_in 0 127 b then utf8_escapes l1
      else if byte_in 194 223 b then
        match l1 with
        | e1 :: l2 => tail_ok 128 191 e1 && utf8_escapes l2
        | _ => false
        end
      else if byte_in 224 239 b then
        match l1 with
        | e1 :: e2 :: l3 =>
            tail_ok (second_lo b) (second_hi b) e1 && tail_ok 128 191 e2
            && utf8_escapes l3
        | _ => false
        end
      else if byte_in 240 244 b then
        match l1 with
        | e1 :: e2 :: e3 :: l4 =>
            tail_ok (second_lo b) (second_hi b) e1 && tail_ok 128 191 e2
            && tail_ok 128 191 e3 && utf8_escapes l4
        | _ => false
        end
      else false
  end.

(** [decodeURIComponent]; [None] is [URIError]. *)
Definition decodeURIComponent (s : string) : option string :=
  l ← unescape s;
  if utf8_escapes l then Some (string_of_list_ascii (l.*2)) else None.

(** A byte string that encodes a JavaScript string: well-formed UTF-8. *)
Definition wf_string (s : string) : bool :=
  utf8_escapes ((true,.) <$> list_ascii_of_string s).

End Js.

(** ** Plain objects used as dictionaries *)

Module Obj.

(** Own properties, in creation order. *)
Abbreviation t := (list (string * Js.val)).

(** The property names of [Object.prototype]. *)
Definition proto_names : list string :=
  ["constructor"; "__defineGetter__"; "__defineSetter__"; "hasOwnProperty";
   "__lookupGetter__"; "__lookupSetter__"; "isPrototypeOf";
   "propertyIsEnumerable"; "toString"; "valueOf"; "__proto__";
   "toLocaleString"].

(** [o[k]] for an own property [k], or for a name that [Object.prototype]
    lacks: [undefined] when [k] is not an own property of [o]. *)
Fixpoint get (o : t) (k : string) : Js.val :=
  match o with
  | [] => Js.Undefined
  | (k', v) :: o' => if decide (k' = k) then v else get o' k
  end.

(** [o[k] = v] for a key other than [__proto__]: an existing property
    keeps its place. *)
Fixpoint set (k : string) (v : Js.val) (o : t) : t :=
  match o with
  | [] => [(k, v)]
  | (k', v') :: o' =>
      if decide (k' = k) then (k, v) :: o' else (k', v') :: set k v o'
  end.

(** [o[k] = v] for any key, [v] being a string or [undefined].  When [o]
    has no own property [__proto__], the assignment to that key runs the
    setter of [Object.prototype], which ignores a value that is not an
    object: nothing is stored. *)
Definition assign (k : string) (v : Js.val) (o : t) : t :=
  if decide (k = "__proto__" ∧ k ∉ o.*1) then o else set k v o.

(** [delete o[k]]. *)
Definition delete (k : string) (o : t) : t :=
  filter (λ kv, kv.1 ≠ k) o.

Fixpoint digits_val (acc : N) (s : string) : option N :=
  match s with
  | "" => Some acc
  | String c s' =>
      if Js.byte_in 48 57 c
      then digits_val (10 * acc + (N_of_ascii c - 48)) s'
      else None
  end.

(** An array index: a canonical numeric string below 2^32 - 1. *)
Definition array_index (k : string) : option N :=
  match k with
  | "" => None
  | String c s' =>
      if Ascii.eqb c "0" then (if decide (s' = "") then Some 0%N else None)
      else n ← digits_val 0 k; if (n <? 4294967295)%N then Some n else None
  end.

Fixpoint insert_index (e : N * string) (l : list (N * string)) :
    list (N * string) :=
  match l with
  | [] => [e]
  | e' :: l' =>
      if (e.1 <=? e'.1)%N then e :: l else e' :: insert_index e l'
  end.

Definition sort_index (l : list (N * string)) : list (N * string) :=
  foldr insert_index [] l.

(** [Object.keys(o)]: array indices in ascending order, then the other
    keys in creation order. *)
Definition keys (o : t) : list string :=
  (sort_index (omap (λ kv, (., kv.1) <$> array_index kv.1) o)).*2
  ++ filter (λ k, array_index k = None) o.*1.

(** The dictionary an object stands for. *)
Definition to_map (o : t) : gmap string Js.val := list_to_map o.

End Obj.

(** ** The query-string codec *)

(** [while (i < str.length && (str[i] === '?' || str[i] === '#')) i++;
    str = str.slice(i);] *)
Fixpoint skip_leading (str : string) : string :=
  match str with
  | String c str' =>
      if Ascii.eqb c "?" || Ascii.eqb c "#" then skip_leading str' else str
  | "" => ""
  end.

(** The callback of [reduce] in [stringQs]; [parts[1]] is never [null]. *)
Definition stringQs_step (obj : option Obj.t) (pair : string) : option Obj.t :=
  obj ← obj;
  match Js.split "=" pair with
  | [k; v] => v' ← Js.decodeURIComponent v; Some (Obj.assign k (Js.Str v') obj)
  | _ => Some obj
  end.

(** [stringQs(str)]: convert a query string to an object of [k=v] pairs. *)
Definition stringQs (str : string) : option Obj.t :=
  foldl stringQs_step (Some []) (Js.split "&" (skip_leading str)).

(** [qsString(obj)]: convert an object of [k=v] pairs to a query string. *)
Definition qsString (obj : Obj.t) : string :=
  Js.join "&"
    (map (λ key, Js.encodeURIComponent key +:+ "="
                 +:+ Js.encodeURIComponent (Js.to_string (Obj.get obj key)))
         (Obj.keys obj)).

(** ** The name-suggestion-index loader: data *)

(** A reference to an item object of the parsed response: the position of
    its category among the entries and its position in the [items] array.
    [JSON.parse] builds a tree, so each position is an object of its own. *)
Abbreviation ref := (nat * nat)%type.

Module Nsi.

(** A category, an object; [items] is [None] when the field is not an
    array, and its elements are objects with string fields. *)
Record category := { items : option (list Obj.t) }.

(** The response; [nsi] is given as [Object.entries] lists it, and is
    [None] when the field is missing. *)
Record json := { nsi : option (list (string * category)); _meta : Js.val }.

(** The item objects in memory. *)
Definition heap := ref → option Obj.t.

Definition heap_of (cats : list (string * category)) : heap :=
  λ r, e ← cats !! r.1; its ← items e.2; its !! r.2.

Definition write (r : ref) (item : Obj.t) (h : heap) : heap :=
  λ r', if decide (r' = r) then Some item else h r'.

(** The array [category.items], as the references to its elements. *)
Definition array_of (ci : nat) (its : list Obj.t) : list ref :=
  imap (λ ii _, (ci, ii)) its.

End Nsi.

Module Index.

(** [{ path: {}, id: {}, meta: json._meta }].  [path] and [id] hold, for
    each key, what the loader assigned under it last.  An assignment
    under the key [__proto__] does not create a property when it reaches
    the setter of [Object.prototype]: the object assigned becomes the
    prototype; [id_proto] is the prototype of [index.id] once that has
    happened. *)
Record t := {
  path : gmap string (list ref);
  id : gmap string ref;
  id_proto : option ref;
  meta : Js.val
}.

(** What [index.id[k]] evaluates to: an item, the value of a field of the
    prototype item, or a member of [Object.prototype]. *)
Inductive found := Item (r : ref) | Field (v : Js.val) | Builtin.

(** The end of the prototype chain: [Object.prototype]. *)
Definition inherited (k : string) : found :=
  if decide (k ∈ Obj.proto_names) then Builtin else Field Js.Undefined.

(** [index.id[k]].  An own property comes first, then the own properties
    of the prototype item, then [Object.prototype], whose [__proto__] is
    a getter for the prototype.  An item that is the prototype was
    assigned under [__proto__] and is no own property; a later item
    assigned under that key is one. *)
Definition read (heap : Nsi.heap) (ix : t) (k : string) : found :=
  match id ix !! k with
  | Some r =>
      if decide (k = "__proto__" ∧ id_proto ix = Some r) then
        match heap r with
        | Some item =>
            if decide (k ∈ item.*1) then Field (Obj.get item k) else Item r
        | None => Item r
        end
      else Item r
  | None =>
      match p ← id_proto ix; heap p with
      | Some item =>
          if decide (k ∈ item.*1) then Field (Obj.get item k) else inherited k
      | None => inherited k
      end
  end.

(** The prototype of [index.id] after [index.id[k] = item], [item] being
    the object at [r].  Only the key [__proto__] can change it, and only
    when the assignment reaches the setter of [Object.prototype]: when
    the prototype is an item with an own property [__proto__] (which
    [JSON.parse] creates as a plain property), the assignment creates or
    overwrites an own property of [index.id] instead. *)
Definition assign_proto (heap : Nsi.heap) (ix : t) (k : string) (r : ref) :
    option ref :=
  if decide (k = "__proto__") then
    match p ← id_proto ix; heap p with
    | Some item => if decide (k ∈ item.*1) then id_proto ix else Some r
    | None => Some r
    end
  else id_proto ix.

End Index.
Arguments Index.read : simpl never.

(** The body of [for (const item of items)]:
    [item.tkv = tkv; index.id[item.id] = item;] *)
Definition visit_item (tkv : string) (s : Nsi.heap * Index.t) (r : ref) :
    Nsi.heap * Index.t :=
  match s.1 r with
  | Some item =>
      let item := Obj.set "tkv" (Js.Str tkv) item in
      let heap := Nsi.write r item s.1 in
      let k := Js.to_string (Obj.get item "id") in
      (heap,
       {| Index.path := Index.path s.2;
          Index.id := <[k := r]> (Index.id s.2);
          Index.id_proto := Index.assign_proto heap s.2 k r;
          Index.meta := Index.meta s.2 |})
  | None => s
  end.

(** The body of [for (const [tkv, category] of Object.entries(json.nsi))]. *)
Definition visit_category (s : Nsi.heap * Index.t)
    (e : nat * (string * Nsi.category)) : Nsi.heap * Index.t :=
  let '(ci, (tkv, category)) := e in
  match Nsi.items category with
  | None => s
  | Some items =>
      let arr := Nsi.array_of ci items in
      foldl (visit_item tkv)
        (s.1, {| Index.path := <[tkv := arr]> (Index.path s.2);
                 Index.id := Index.id s.2;
                 Index.id_proto := Index.id_proto s.2;
                 Index.meta := Index.meta s.2 |})
        arr
  end.

(** The cache built by [fetchUrl] of [useNsi], with the item objects it
    refers to; [None] when [json.nsi] is missing ([TypeError]).  The
    categories and the items are objects, as the response has them. *)
Definition build_index (json : Nsi.json) : option (Nsi.heap * Index.t) :=
  cats ← Nsi.nsi json;
  Some (foldl visit_category
          (Nsi.heap_of cats,
           {| Index.path := ∅; Index.id := ∅; Index.id_proto := None;
              Index.meta := Nsi._meta json |})
          (imap (λ ci e, (ci, e)) cats)).

(** ** The taginfo loader: data *)

Module Taginfo.

(** A tag, an object with string fields. *)
Record tag := { key : Js.val; value : Js.val; icon_url : Js.val }.

(** [tags] is [None] when the field cannot be iterated. *)
Record json := { tags : option (list tag) }.

End Taginfo.

(** The body of [for (const tag of tags)].  [icons[kv] = tag.icon_url]
    stores nothing when [kv] is [__proto__]: the URL is a string, which
    the setter of [Object.prototype] ignores. *)
Definition visit_tag (icons : gmap string Js.val) (tag : Taginfo.tag) :
    gmap string Js.val :=
  if negb (Js.truthy (Taginfo.icon_url tag)) || negb (Js.truthy (Taginfo.key tag))
  then icons
  else
    let kv := Js.to_string (Taginfo.key tag) in
    let kv := if Js.truthy (Taginfo.value tag)
              then kv +:+ "/" +:+ Js.to_string (Taginfo.value tag) else kv in
    if decide (kv = "__proto__") then icons
    else <[kv := Taginfo.icon_url tag]> icons.

Definition build_icons (json : Taginfo.json) : option (gmap string Js.val) :=
  tags ← Taginfo.tags json;
  Some (foldl visit_tag ∅ tags).

(** ** The loaders as state machines *)

(** How the request of a loader ends. *)
Inductive response (J : Type) :=
  | NetworkError            (* [fetch] rejects *)
  | ParseError              (* [response.json()] rejects *)
  | Parsed (json : J).
Arguments NetworkError {J}.
Arguments ParseError {J}.
Arguments Parsed {J} json.

Module Loader.

(** [const [data, setData] = useState(..);
    const [loading, setLoading] = useState(true);]
    and whether the effect has run and the request has settled. *)
Record t (D : Type) := {
  data : D;
  loading : bool;
  started : bool;
  settled : bool
}.
Arguments data {D}.
Arguments loading {D}.
Arguments started {D}.
Arguments settled {D}.

Definition init {D} (d : D) : t D :=
  {| data := d; loading := true; started := false; settled := false |}.

(** What happens to a mounted loader: it renders again, or its request
    settles. *)
Inductive event := Render | Settle.

Section Run.
Context {J D : Type}.
(** The rest of [fetchUrl] after the two [await]s: the value handed to
    [setData], or [None] when the processing throws. *)
Variable process : J → option D.
Variable resp : response J.

(** [fetchUrl] once the request has settled: both setters, or none. *)
Definition fetchUrl (st : t D) : t D :=
  match resp with
  | Parsed json =>
      match process json with
      | Some d =>
          {| data := d; loading := false;
             started := started st; settled := true |}
      | None =>
          {| data := data st; loading := loading st;
             started := started st; settled := true |}
      end
  | _ =>
      {| data := data st; loading := loading st;
         started := started st; settled := true |}
  end.

(** [useEffect(() => { fetchUrl(); }, [])] runs after the first render
    only. *)
Definition step (st : t D) (ev : event) : t D :=
  match ev with
  | Render =>
      {| data := data st; loading := loading st;
         started := true; settled := settled st |}
  | Settle =>
      if started st && negb (settled st) then fetchUrl st else st
  end.

Definition run (d : D) (evs : list event) : t D := foldl step (init d) evs.
End Run.

End Loader.

(** [useFetch(url)]: the parsed body as it is; [data] starts as [[]]. *)
Definition useFetch {J} (resp : response J) (empty : J) :=
  Loader.run (λ json : J, Some json) resp empty.

(** [useNsi(url)]: [data] starts as [{}], here [None]. *)
Definition useNsi (resp : response Nsi.json) :=
  Loader.run (λ json, Some <$> build_index json) resp None.

(** [useTaginfo(url)]: [data] starts as [{}]. *)
Definition useTaginfo (resp : response Taginfo.json) :=
  Loader.run build_icons resp ∅.

(** ** The two synchronising effects of [AppContextProvider] *)

Module Location.
(** What [useLocation()] gives. *)
Record t := { pathname : string; search : string; hash : string }.
End Location.

(** What an effect asks of the router: [navigate(to, { replace: true })]. *)
Inductive navigation := Replace (to : string).

(** How the first effect ends. *)
Inductive inbound_result :=
  | Wait          (* [return]: the index is still loading *)
  | Keep          (* nothing has changed *)
  | Commit (newHash : string) (newParams : Obj.t).
                  (* [_didChangeLocation = true; setHash(newHash);
                     setParams(stringQs(newSearch));] *)

(** The candidate hash, search and parameters once an [id] parameter has
    been looked up: [Some None] is the early [return]. *)
Definition resolve_id (location : Location.t) (indexLoading : bool)
    (index : option (Nsi.heap * Index.t)) (newParams : Obj.t) :
    option (option (string * string)) :=
  let newHash := Location.hash location in
  let newSearch := Location.search location in
  let itemID := Obj.get newParams "id" in
  if Js.truthy itemID then
    if indexLoading then Some None
    else
      index ← index;
      match Index.read index.1 index.2 (Js.to_string itemID) with
      | Index.Item r =>
          item ← index.1 r;
          match Obj.get item "tkv" with
          | Js.Str tkv =>
              let parts := Js.split_limit "/" 3 tkv in
              let newParams := Obj.set "t" (Js.nth_val parts 0) newParams in
              let newParams := Obj.set "k" (Js.nth_val parts 1) newParams in
              let newParams := Obj.set "v" (Js.nth_val parts 2) newParams in
              let newHash := "#" +:+ Js.to_string itemID in
              let newParams := Obj.delete "id" newParams in
              let newSearch := qsString newParams in
              Some (Some (newHash, newSearch))
          | Js.Undefined => None
          end
      | Index.Field v =>
          (* a string has no [tkv]: [item.tkv.split] throws *)
          if Js.truthy v then None else Some (Some (newHash, newSearch))
      | Index.Builtin => None
      end
  else Some (Some (newHash, newSearch)).

(** The first effect: update params/hash when the location changes. *)
Definition inbound (location : Location.t) (indexLoading : bool)
    (index : option (Nsi.heap * Index.t)) (params : Obj.t) (hash : string) :
    option inbound_result :=
  newParams ← stringQs (Location.search location);
  target ← resolve_id location indexLoading index newParams;
  match target with
  | None => Some Wait
  | Some (newHash, newSearch) =>
      let oldSearch := "?" +:+ qsString params in
      if bool_decide (hash ≠ newHash) || bool_decide (oldSearch ≠ newSearch)
      then Commit newHash <$> stringQs newSearch
      else Some Keep
  end.

(** [['t', 'k', 'v', 'id', 'tt', 'cc', 'inc'].forEach(k => ...)]: no key
    of the list is [__proto__] or a name of [Object.prototype]. *)
Definition key_order : list string := ["t"; "k"; "v"; "id"; "tt"; "cc"; "inc"].

Definition order_step (params : Obj.t) (newParams : Obj.t) (k : string) : Obj.t :=
  if Js.truthy (Obj.get params k) then Obj.set k (Obj.get params k) newParams
  else if decide (k = "t") then Obj.set k (Js.Str "brands") newParams
  else newParams.

Definition ordered_params (params : Obj.t) : Obj.t :=
  foldl (order_step params) [] key_order.

(** The second effect: update the location when params/hash change.  It
    returns the flag as it leaves it and the navigation it asked for. *)
Definition outbound (_didChangeLocation : bool) (indexLoading : bool)
    (params : Obj.t) (hash : string) (location : Location.t) :
    bool * option navigation :=
  if indexLoading then (_didChangeLocation, None)
  else
    let newParams := ordered_params params in
    let newSearch := "?" +:+ qsString newParams in
    let newHash := hash in
    if negb _didChangeLocation && bool_decide (newSearch ≠ Location.search location)
       || bool_decide (newHash ≠ Location.hash location)
    then
      let to := Location.pathname location +:+ newSearch +:+ newHash in
      (false, Some (Replace to))
    else (_didChangeLocation, None).

(** The flag [_didChangeLocation] as the first effect leaves it; it starts
    as [false] in every render. *)
Definition did_change (r : inbound_result) : bool :=
  match r with
  | Commit _ _ => true
  | _ => false
  end.

(** A render after which both effects run, the first before the second,
    as on mounting and when [indexLoading] changes. *)
Definition both_effects (location : Location.t) (indexLoading : bool)
    (index : option (Nsi.heap * Index.t)) (params : Obj.t) (hash : string) :
    option (inbound_result * option navigation) :=
  r ← inbound location indexLoading index params hash;
  Some (r, (outbound (did_change r) indexLoading params hash location).2).

(** ** What the provider hands to its children *)

(** The three requests of the provider. *)
Inductive dataset := Wikidata | NsiIndex | Icons.

#[global] Instance dataset_eq_dec : EqDecision dataset.
Proof. solve_decision. Defined.





(** The child the provider renders between header and footer. *)
Inductive page := Category | Overview.

(** [(params.k && params.v) ? <Category/> : <Overview/>] *)
Definition content (params : Obj.t) : page :=
  if Js.truthy (Obj.get params "k") && Js.truthy (Obj.get params "v")
  then Category else Overview.

(** ** Notions used in the statements *)

Abbreviation chars := list_ascii_of_string.

(** A write into a dictionary that may not take place. *)
Definition apply_write {K V} `{Countable K} (m : gmap K V)
    (w : option (K * V)) : gmap K V :=
  match w with
  | Some kv => <[kv.1 := kv.2]> m
  | None => m
  end.

(** A request that did not end in a parsed body. *)
Definition failed {J} (resp : response J) : Prop :=
  resp = NetworkError ∨ resp = ParseError.

Section Notions.
Import Js.

(** The characters [encodeURIComponent] can produce. *)
Definition uri_char (c : ascii) : bool :=
  uri_unreserved c || Ascii.eqb c "%".

(** A string made of unreserved characters only. *)
Definition unreserved (s : string) : Prop :=
  Forall (λ c, uri_unreserved c = true) (chars s).

(** The bytes that may follow the leading byte [b] of one character. *)
Definition lead_tail (b : ascii) (cs : list ascii) : bool :=
  if byte_in 194 223 b then
    match cs with [c1] => byte_in 128 191 c1 | _ => false end
  else if byte_in 224 239 b then
    match cs with
    | [c1; c2] => byte_in (second_lo b) (second_hi b) c1 && byte_in 128 191 c2
    | _ => false
    end
  else if byte_in 240 244 b then
    match cs with
    | [c1; c2; c3] =>
        byte_in (second_lo b) (second_hi b) c1 && byte_in 128 191 c2
        && byte_in 128 191 c3
    | _ => false
    end
  else false.

(** Well-formed byte lists. *)
Definition wf_bytes (cs : list ascii) : Prop :=
  utf8_escapes ((true,.) <$> cs) = true.

(** An object whose values are well-formed strings (or [undefined]). *)
Definition wf_obj (o : Obj.t) : Prop :=
  Forall (λ kv, wf_string (to_string kv.2) = true) o.

(** One [key=value] segment of an encoded query string. *)
Definition segment (kv : string * string) : string :=
  encodeURIComponent kv.1 +:+ "=" +:+ encodeURIComponent kv.2.

(** The pairs [qsString] writes, in the order it writes them. *)
Definition entries (obj : Obj.t) : list (string * string) :=
  (λ key, (key, to_string (Obj.get obj key))) <$> Obj.keys obj.

(** What decoding makes of them: keys stay encoded, and the key
    [__proto__] is lost. *)
Definition reread (kvs : list (string * string)) : Obj.t :=
  foldl (λ o kv, Obj.assign (encodeURIComponent kv.1) (Str kv.2) o) [] kvs.

(** A string without a raw [=] or [&]. *)
Definition no_separator (s : string) : Prop :=
  ("="%char ∉ chars s) ∧ ("&"%char ∉ chars s).

(** A parameter map with string values. *)
Definition str_obj (p : list (string * string)) : Obj.t :=
  prod_map id Str <$> p.

(** The ordered parameter set as the specification words it: walk the
    fixed key order, keep a key whose value is truthy, default [t]. *)
Definition ordered_spec (params : Obj.t) : list (string * val) :=
  omap (λ k, if truthy (Obj.get params k) then Some (k, Obj.get params k)
             else if decide (k = "t") then Some (k, Str "brands")
             else None)
       key_order.

(** The key an item is filed under in [index.id]. *)
Definition key_of (item : Obj.t) : string := to_string (Obj.get item "id").

(** An item once [item.tkv = tkv] has run. *)
Definition tagged (tkv : string) (item : Obj.t) : Obj.t :=
  Obj.set "tkv" (Str tkv) item.

(** The item of the response at a reference, with the key of its
    category. *)
Definition source (cats : list (string * Nsi.category)) (r : ref) :
    option (string * Obj.t) :=
  e ← cats !! r.1; its ← Nsi.items e.2; it ← its !! r.2; Some (e.1, it).

Definition source_key (cats : list (string * Nsi.category)) (r : ref) :
    option string :=
  (λ p, key_of p.2) <$> source cats r.

(** The writes of the inner loop of [useNsi] into [index.id]. *)
Definition id_write (h : Nsi.heap) (r : ref) : option (string * ref) :=
  (λ item, (key_of item, r)) <$> h r.

(** The order in which the two loops of [useNsi] reach the items:
    [not_after r r'] when [r] is reached before [r'], or is [r']. *)
Definition not_after (r r' : ref) : Prop :=
  r.1 < r'.1 ∨ (r.1 = r'.1 ∧ r.2 ≤ r'.2).

(** The state of [fetchUrl] of [useNsi] once the first [n] categories
    have been processed. *)
Record index_inv (cats : list (string * Nsi.category)) (meta : val)
    (n : nat) (s : Nsi.heap * Index.t) : Prop := {
  inv_heap : ∀ r,
    s.1 r = if decide (r.1 < n)
            then (λ p, tagged p.1 p.2) <$> source cats r
            else snd <$> source cats r;
  inv_path : ∀ tkv arr,
    Index.path s.2 !! tkv = Some arr ↔
    ∃ ci c its, ci < n ∧ cats !! ci = Some (tkv, c)
                ∧ Nsi.items c = Some its ∧ arr = Nsi.array_of ci its;
  inv_id : ∀ k r,
    Index.id s.2 !! k = Some r ↔
    r.1 < n ∧ source_key cats r = Some k
    ∧ ∀ r', r'.1 < n → source_key cats r' = Some k → not_after r' r;
  inv_filed : ∀ k r,
    r.1 < n → source_key cats r = Some k → is_Some (Index.id s.2 !! k);
  inv_meta : Index.meta s.2 = meta
}.

(** A tag that carries both an icon URL and a key. *)
Definition contributes (tag : Taginfo.tag) : bool :=
  truthy (Taginfo.icon_url tag) && truthy (Taginfo.key tag).

(** The composite key of a tag: [key], or [key/value] when there is a
    value. *)
Definition composite (tag : Taginfo.tag) : string :=
  if truthy (Taginfo.value tag)
  then to_string (Taginfo.key tag) +:+ "/" +:+ to_string (Taginfo.value tag)
  else to_string (Taginfo.key tag).

(** What a tag writes into the icon table. *)
Definition tag_write (tag : Taginfo.tag) : option (string * val) :=
  if contributes tag && negb (bool_decide (composite tag = "__proto__"))
  then Some (composite tag, Taginfo.icon_url tag) else None.

(** The tag list of the specification's example. *)
Definition example_tags : list Taginfo.tag :=
  [{| Taginfo.key := Str "shop"; Taginfo.value := Undefined;
      Taginfo.icon_url := Str "u1" |};
   {| Taginfo.key := Str "shop"; Taginfo.value := Str "bakery";
      Taginfo.icon_url := Str "u2" |};
   {| Taginfo.key := Str "x"; Taginfo.value := Undefined;
      Taginfo.icon_url := Undefined |}].

(** The taxonomy of the specification's example: one category with one
    item, one category without items. *)
Definition example_cats : list (string * Nsi.category) :=
  [("amenity/cafe/Foo", {| Nsi.items := Some [[("id", Str "a1")]] |});
   ("bad/cat", {| Nsi.items := None |})].

Definition example_json : Nsi.json :=
  {| Nsi.nsi := Some example_cats; Nsi._meta := Undefined |}.

(** A taxonomy in which two items of different categories share the id
    [d]. *)
Definition shared_cats : list (string * Nsi.category) :=
  [("shop/a/X", {| Nsi.items := Some [[("id", Str "d")]] |});
   ("shop/b/Y", {| Nsi.items := Some [[("id", Str "z")]; [("id", Str "d")]] |})].

Definition shared_json : Nsi.json :=
  {| Nsi.nsi := Some shared_cats; Nsi._meta := Undefined |}.

(** The key and the raw value of a segment that splits in two on [=]. *)
Definition seg_pair (seg : string) : option (string * string) :=
  match split "=" seg with
  | [k; v] => Some (k, v)
  | _ => None
  end.

(** The segments [stringQs] folds over. *)
Definition segments (raw : string) : list string :=
  split "&" (skip_leading raw).

(** A string made of [?] and [#] only. *)
Definition marks (s : string) : Prop :=
  Forall (λ c, c = "?"%char ∨ c = "#"%char) (chars s).

(** The array indices among a list of keys, with their numbers. *)
Definition index_pairs (ks : list string) : list (N * string) :=
  omap (λ k, (., k) <$> Obj.array_index k) ks.

(** Ascending by number. *)
Fixpoint index_sorted (l : list (N * string)) : Prop :=
  match l with
  | [] => True
  | a :: l' =>
      match l' with
      | [] => True
      | b :: _ => (a.1 ≤ b.1)%N
      end ∧ index_sorted l'
  end.

End Notions.

(** * Properties *)

(** ** Characters and percent-encoding *)

Section Chars.
Import Js.

Lemma hex_roundtrip c :
  let n := N_of_ascii c in
  hex_val (hex_digit (n / 16)) = Some (n / 16)%N
  ∧ hex_val (hex_digit (n mod 16)) = Some (n mod 16)%N
  ∧ ascii_of_N (16 * (n / 16) + n mod 16) = c.
Proof. by destruct c as [[] [] [] [] [] [] [] []]. Qed.

Lemma unreserved_ascii c : uri_unreserved c = true → byte_in 0 127 c = true.
Proof. by destruct c as [[] [] [] [] [] [] [] []]. Qed.

Lemma unreserved_not_special c :
  uri_unreserved c = true →
  (c ≠ "%" ∧ c ≠ "&" ∧ c ≠ "=" ∧ c ≠ "?" ∧ c ≠ "#")%char.
Proof. by destruct c as [[] [] [] [] [] [] [] []]. Qed.

Lemma hex_digit_unreserved c :
  uri_unreserved (hex_digit (N_of_ascii c / 16)) = true
  ∧ uri_unreserved (hex_digit (N_of_ascii c mod 16)) = true.
Proof. by destruct c as [[] [] [] [] [] [] [] []]. Qed.

Lemma uri_char_not_sep c :
  uri_char c = true → (c ≠ "&" ∧ c ≠ "=" ∧ c ≠ "?" ∧ c ≠ "#")%char.
Proof. by destruct c as [[] [] [] [] [] [] [] []]. Qed.

End Chars.

Section Strings.
Import Js.

Lemma chars_app a b : chars (a +:+ b) = chars a ++ chars b.
Proof. induction a as [|c a IH]; simpl; [done|by rewrite IH]. Qed.

Lemma split_not_nil sep s : split sep s ≠ [].
Proof. destruct s as [|c s]; simpl; [done|]. destruct (Ascii.eqb c sep); [done|]. by destruct (split sep s). Qed.

Lemma split_none sep s : sep ∉ chars s → split sep s = [s].
Proof.
  induction s as [|c s IH]; simpl; [done|].
  intros [Hc Hs]%not_elem_of_cons.
  destruct (Ascii.eqb_spec c sep) as [->|_]; [done|].
  by rewrite IH.
Qed.

Lemma split_app sep a b :
  sep ∉ chars a → split sep (a +:+ String sep b) = a :: split sep b.
Proof.
  induction a as [|c a IH]; simpl.
  - intros _. by rewrite Ascii.eqb_refl.
  - intros [Hc Ha]%not_elem_of_cons.
    destruct (Ascii.eqb_spec c sep) as [->|_]; [done|].
    by rewrite IH.
Qed.

Lemma split_join sep segs :
  segs ≠ [] → Forall (λ s, sep ∉ chars s) segs →
  split sep (join (String sep "") segs) = segs.
Proof.
  induction segs as [|a [|b segs] IH]; [done| |].
  - intros _ [Ha _]%Forall_cons. by apply split_none.
  - intros _ [Ha Hs]%Forall_cons.
    change (join (String sep "") (a :: b :: segs))
      with (a +:+ String sep "" +:+ join (String sep "") (b :: segs)).
    change (String sep "" +:+ ?s) with (String sep s).
    rewrite split_app by done. by rewrite IH.
Qed.

Lemma string_of_chars s : string_of_list_ascii (chars s) = s.
Proof. apply string_of_list_ascii_of_string. Qed.

(** [encodeURIComponent] produces unreserved characters and [%] only. *)
Lemma encode_chars s :
  Forall (λ c, uri_char c = true) (chars (encodeURIComponent s)).
Proof.
  induction s as [|c s IH]; simpl; [done|].
  destruct (uri_unreserved c) eqn:Hc; simpl.
  - constructor; [|done]. unfold uri_char. by rewrite Hc.
  - destruct (hex_digit_unreserved c) as [H1 H2].
    unfold uri_char. repeat (constructor; [by rewrite ?H1, ?H2|]). done.
Qed.

Lemma encode_no_sep s (c : ascii) :
  c ∈ ["&"; "="; "?"; "#"]%char → c ∉ chars (encodeURIComponent s).
Proof.
  intros Hc Hin.
  pose proof (encode_chars s) as Hall.
  rewrite Forall_forall in Hall. apply Hall in Hin.
  apply uri_char_not_sep in Hin as (? & ? & ? & ?).
  repeat (apply elem_of_cons in Hc as [->|Hc]; [done|]).
  by apply elem_of_nil in Hc.
Qed.

Lemma encode_unreserved s : unreserved s → encodeURIComponent s = s.
Proof.
  unfold unreserved. induction s as [|c s IH]; simpl; [done|].
  intros [Hc Hs]%Forall_cons. rewrite Hc. by rewrite IH.
Qed.

Lemma encode_percent s :
  ¬ unreserved s → ("%" : ascii) ∈ chars (encodeURIComponent s).
Proof.
  unfold unreserved. induction s as [|c s IH]; simpl.
  - intros []. constructor.
  - intros Hn. destruct (uri_unreserved c) eqn:Hc; simpl.
    + right. apply IH. contradict Hn. by constructor.
    + left.
Qed.

Lemma unreserved_no_percent s : unreserved s → ("%" : ascii) ∉ chars s.
Proof.
  intros Hs Hin. unfold unreserved in Hs. rewrite Forall_forall in Hs.
  by apply Hs, unreserved_not_special in Hin as [? _].
Qed.

Lemma encode_eq_unreserved s s' :
  unreserved s' → encodeURIComponent s = s' → s = s'.
Proof.
  intros Hs' <-. symmetry. apply encode_unreserved.
  destruct (decide (unreserved s)) as [|Hn]; [done|].
  by apply encode_percent, unreserved_no_percent in Hn.
Qed.

Lemma unreserved_proto : unreserved "__proto__".
Proof. unfold unreserved. compute_done. Qed.

(** Only the key [__proto__] is encoded as [__proto__]. *)
Lemma encode_proto s : encodeURIComponent s = "__proto__" ↔ s = "__proto__".
Proof.
  split; [apply encode_eq_unreserved, unreserved_proto|by intros ->].
Qed.

Lemma length_encode s :
  String.length s ≤ String.length (encodeURIComponent s).
Proof.
  induction s as [|c s IH]; simpl; [done|].
  destruct (uri_unreserved c); simpl; lia.
Qed.

Lemma encode_fixed s : encodeURIComponent s = s → unreserved s.
Proof.
  unfold unreserved. induction s as [|c s IH]; simpl; [by constructor|].
  destruct (uri_unreserved c) eqn:Hc.
  - intros [= Hs]. constructor; auto.
  - intros [= _ Hs]. pose proof (length_encode s) as Hlen.
    apply (f_equal String.length) in Hs. simpl in Hs. lia.
Qed.

Lemma unescape_percent h l s :
  unescape (String "%" (String h (String l s)))
  = hi ← hex_val h; lo ← hex_val l;
    ((true, ascii_of_N (16 * hi + lo)) ::.) <$> unescape s.
Proof. done. Qed.

Lemma unescape_literal c s :
  c ≠ "%"%char → unescape (String c s) = ((false, c) ::.) <$> unescape s.
Proof. intros Hc. simpl. by destruct (Ascii.eqb_spec c "%"). Qed.

Lemma unescape_encode s :
  unescape (encodeURIComponent s)
  = Some ((λ c, (negb (uri_unreserved c), c)) <$> chars s).
Proof.
  induction s as [|c s IH]; [done|].
  cbn [encodeURIComponent chars fmap list_fmap].
  destruct (uri_unreserved c) eqn:Hc.
  - destruct (unreserved_not_special c Hc) as [Hp _].
    by rewrite unescape_literal, IH.
  - rewrite unescape_percent, IH.
    destruct (hex_roundtrip c) as (-> & -> & Hb). simpl in *. by rewrite Hb.
Qed.

(** *** Well-formed UTF-8 *)

Lemma byte_in_mono lo hi lo' hi' c :
  (lo' ≤ lo)%N → (hi ≤ hi')%N → byte_in lo hi c = true → byte_in lo' hi' c = true.
Proof.
  unfold byte_in. rewrite !andb_true_iff, !N.leb_le. lia.
Qed.

Lemma byte_in_high lo hi c :
  (128 ≤ lo)%N → byte_in lo hi c = true → byte_in 0 127 c = false.
Proof.
  unfold byte_in. rewrite andb_true_iff, andb_false_iff, !N.leb_le, !N.leb_gt. lia.
Qed.

Lemma second_lo_high b : (128 ≤ second_lo b)%N.
Proof. unfold second_lo. repeat case_match; lia. Qed.

Lemma lead_tail_high b cs :
  lead_tail b cs = true → Forall (λ c, byte_in 0 127 c = false) cs.
Proof.
  pose proof (second_lo_high b).
  unfold lead_tail. repeat case_match; try done;
    rewrite ?andb_true_iff; intros; destruct_and?;
    repeat (constructor; [eapply byte_in_high; [|eassumption]; (done || lia)|]);
    constructor.
Qed.

Lemma utf8_escapes_skip t b l :
  t = false ∨ byte_in 0 127 b = true →
  utf8_escapes ((t, b) :: l) = utf8_escapes l.
Proof. intros [->| Hb]; simpl; [done|]. destruct t; [|done]. by rewrite Hb. Qed.

Lemma utf8_escapes_seq b cs l :
  byte_in 0 127 b = false → lead_tail b cs = true →
  utf8_escapes ((true, b) :: ((true,.) <$> cs) ++ l) = utf8_escapes l.
Proof.
  intros Hb. unfold lead_tail. cbn [utf8_escapes]. rewrite Hb.
  repeat case_match; try done; simplify_eq/=; unfold tail_ok; simpl;
    intros ->; done.
Qed.

Lemma utf8_escapes_inv b l :
  byte_in 0 127 b = false → utf8_escapes ((true, b) :: l) = true →
  ∃ cs l', l = ((true,.) <$> cs) ++ l' ∧ lead_tail b cs = true
           ∧ utf8_escapes l' = true.
Proof.
  intros Hb. unfold lead_tail. cbn [utf8_escapes]. rewrite Hb.
  repeat case_match; try done; simplify_eq/=; unfold tail_ok;
    rewrite ?andb_true_iff; intros; destruct_and?;
    repeat match goal with e : (bool * ascii)%type |- _ => destruct e as [[] ?] end;
    try done; simpl in *.
  - by eexists [_], _.
  - by eexists [_; _], _; rewrite ?andb_true_iff.
  - by eexists [_; _; _], _; rewrite ?andb_true_iff.
Qed.

Lemma wf_bytes_cons c cs :
  byte_in 0 127 c = true → wf_bytes (c :: cs) ↔ wf_bytes cs.
Proof.
  intros Hc. unfold wf_bytes. rewrite fmap_cons, utf8_escapes_skip; auto.
Qed.

Lemma wf_bytes_seq b tl cs :
  byte_in 0 127 b = false → lead_tail b tl = true →
  wf_bytes (b :: tl ++ cs) ↔ wf_bytes cs.
Proof.
  intros Hb Htl. unfold wf_bytes.
  by rewrite fmap_cons, fmap_app, utf8_escapes_seq.
Qed.

Lemma wf_bytes_inv b cs :
  byte_in 0 127 b = false → wf_bytes (b :: cs) →
  ∃ tl cs', cs = tl ++ cs' ∧ lead_tail b tl = true ∧ wf_bytes cs'.
Proof.
  intros Hb Hwf. unfold wf_bytes in Hwf. rewrite fmap_cons in Hwf.
  apply utf8_escapes_inv in Hwf as (tl & l' & Heq & Htl & Hl'); [|done].
  apply fmap_app_inv in Heq as (l1 & l2 & H1 & -> & ->).
  apply (inj (fmap _)) in H1 as <-.
  by exists tl, l2.
Qed.

(** Induction over the characters of a well-formed byte list. *)
Lemma wf_bytes_ind (P : list ascii → Prop) :
  P [] →
  (∀ c cs, byte_in 0 127 c = true → wf_bytes cs → P cs → P (c :: cs)) →
  (∀ b tl cs, byte_in 0 127 b = false → lead_tail b tl = true →
              wf_bytes cs → P cs → P (b :: tl ++ cs)) →
  ∀ cs, wf_bytes cs → P cs.
Proof.
  intros Hnil Hone Hseq cs.
  remember (length cs) as n eqn:Hn. revert cs Hn.
  induction n as [n IH] using lt_wf_ind. intros [|c cs] Hn Hwf; [done|].
  simpl in Hn. destruct (byte_in 0 127 c) eqn:Hc.
  - apply wf_bytes_cons in Hwf; [|done].
    apply Hone; [done..|]. eapply IH; [|done..]. lia.
  - apply wf_bytes_inv in Hwf as (tl & cs' & -> & Htl & Hwf'); [|done].
    apply Hseq; [done..|]. eapply IH; [|done..].
    rewrite length_app in Hn. lia.
Qed.

(** Unescaped characters of a well-formed string may carry any tag as
    long as the bytes above 0x7F are tagged as escaped. *)
Lemma utf8_escapes_tagged (f : ascii → bool) cs :
  (∀ c, byte_in 0 127 c = false → f c = true) →
  wf_bytes cs → utf8_escapes ((λ c, (f c, c)) <$> cs) = true.
Proof.
  intros Hf. induction 1 as [|c cs Hc _ IH|b tl cs Hb Htl _ IH] using wf_bytes_ind.
  - done.
  - rewrite fmap_cons, utf8_escapes_skip; auto.
  - rewrite fmap_cons, fmap_app, (Hf b Hb).
    replace ((λ c, (f c, c)) <$> tl) with ((true,.) <$> tl).
    { by rewrite utf8_escapes_seq. }
    apply lead_tail_high in Htl.
    induction Htl as [|c tl' Hc' _ IH']; [done|].
    by rewrite !fmap_cons, IH', (Hf c Hc').
Qed.

Lemma decode_encode s :
  wf_string s = true →
  decodeURIComponent (encodeURIComponent s) = Some s.
Proof.
  intros Hwf. unfold decodeURIComponent. rewrite unescape_encode. simpl.
  rewrite utf8_escapes_tagged.
  - rewrite <- list_fmap_compose.
    change (snd ∘ _) with (@id ascii).
    by rewrite list_fmap_id, string_of_chars.
  - intros c Hc. destruct (uri_unreserved c) eqn:Hu; [|done].
    apply unreserved_ascii in Hu. congruence.
  - done.
Qed.

Lemma wf_string_bytes s : wf_string s = true ↔ wf_bytes (chars s).
Proof. done. Qed.

Lemma string_of_app (a b : list ascii) :
  string_of_list_ascii (a ++ b)
  = string_of_list_ascii a +:+ string_of_list_ascii b.
Proof. induction a as [|c a IH]; simpl; [done|by rewrite IH]. Qed.

Lemma chars_of_string cs : chars (string_of_list_ascii cs) = cs.
Proof. apply list_ascii_of_string_of_list_ascii. Qed.

Lemma wf_string_cons c s :
  byte_in 0 127 c = true → wf_string (String c s) = wf_string s.
Proof. intros Hc. unfold wf_string. simpl. by rewrite Hc. Qed.

Lemma wf_string_seq b a s :
  byte_in 0 127 b = false → lead_tail b (chars a) = true →
  wf_string (String b (a +:+ s)) = wf_string s.
Proof.
  intros Hb Ha. unfold wf_string.
  change (chars (String b (a +:+ s))) with (b :: chars (a +:+ s)).
  by rewrite chars_app, fmap_cons, fmap_app, utf8_escapes_seq.
Qed.

Lemma wf_string_inv b s :
  byte_in 0 127 b = false → wf_string (String b s) = true →
  ∃ a s', s = a +:+ s' ∧ lead_tail b (chars a) = true ∧ wf_string s' = true.
Proof.
  intros Hb Hwf. apply wf_string_bytes in Hwf.
  apply wf_bytes_inv in Hwf as (tl & cs' & Heq & Htl & Hwf'); [|done].
  exists (string_of_list_ascii tl), (string_of_list_ascii cs').
  rewrite <- string_of_app, <- Heq, string_of_chars, wf_string_bytes,
    !chars_of_string. done.
Qed.

Lemma length_append a b :
  String.length (a +:+ b) = String.length a + String.length b.
Proof. induction a as [|c a IH]; simpl; [done|by rewrite IH]. Qed.

Lemma split_prefix sep a s :
  sep ∉ chars a →
  ∃ w ws, split sep s = w :: ws ∧ split sep (a +:+ s) = (a +:+ w) :: ws.
Proof.
  induction a as [|c a IH]; simpl.
  - intros _. destruct (split sep s) as [|w ws] eqn:Hs; [|by eauto].
    by apply split_not_nil in Hs.
  - intros [Hc Ha]%not_elem_of_cons.
    destruct (IH Ha) as (w & ws & Hs & ->).
    destruct (Ascii.eqb_spec c sep) as [->|_]; [done|]. eauto.
Qed.

Lemma high_not_ascii (c sep : ascii) :
  byte_in 0 127 sep = true → byte_in 0 127 c = false → sep ≠ c.
Proof. congruence. Qed.

Lemma lead_tail_no_ascii b tl (sep : ascii) :
  byte_in 0 127 sep = true → lead_tail b tl = true → sep ∉ tl.
Proof.
  intros Hsep Htl%lead_tail_high Hin.
  rewrite Forall_forall in Htl. apply Htl in Hin. congruence.
Qed.

(** Splitting on an ASCII separator keeps the parts well-formed. *)
Lemma split_wf sep s :
  byte_in 0 127 sep = true → wf_string s = true →
  Forall (λ w, wf_string w = true) (split sep s).
Proof.
  intros Hsep. remember (String.length s) as n eqn:Hn. revert s Hn.
  induction n as [n IH] using lt_wf_ind. intros [|c s] Hn Hwf.
  { by constructor. }
  simpl in Hn. destruct (byte_in 0 127 c) eqn:Hc.
  - rewrite wf_string_cons in Hwf by done.
    assert (Forall (λ w, wf_string w = true) (split sep s)) as Hs.
    { eapply IH; [|done..]. lia. }
    simpl. destruct (Ascii.eqb c sep); [by constructor|].
    destruct Hs as [|w ws Hw Hws].
    + repeat constructor. by rewrite wf_string_cons.
    + constructor; [by rewrite wf_string_cons|done].
  - apply wf_string_inv in Hwf as (a & s' & -> & Ha & Hwf'); [|done].
    assert (Forall (λ w, wf_string w = true) (split sep s')) as Hs.
    { eapply IH; [|done..]. rewrite length_append in Hn. lia. }
    destruct (split_prefix sep (String c a) s') as (w & ws & Hw & Heq).
    { apply not_elem_of_cons. split; [by apply high_not_ascii|].
      by eapply lead_tail_no_ascii. }
    change (String c a +:+ s') with (String c (a +:+ s')) in Heq.
    rewrite Heq. rewrite Hw in Hs.
    apply Forall_cons in Hs as [Hw' Hws]. constructor; [|done].
    change (String c a +:+ w) with (String c (a +:+ w)).
    by rewrite wf_string_seq.
Qed.

Lemma wf_string_undefined : wf_string "undefined" = true.
Proof. done. Qed.

Lemma hex_val_ascii c n : hex_val c = Some n → byte_in 0 127 c = true.
Proof. by destruct c as [[] [] [] [] [] [] [] []]. Qed.

Lemma percent_ascii : byte_in 0 127 "%" = true.
Proof. done. Qed.

Lemma unescape_cons_true s c l :
  unescape s = Some ((true, c) :: l) →
  ∃ h lo s', s = String "%" (String h (String lo s'))
             ∧ byte_in 0 127 h = true ∧ byte_in 0 127 lo = true
             ∧ unescape s' = Some l.
Proof.
  destruct s as [|c0 s]; [done|]. simpl.
  destruct (Ascii.eqb_spec c0 "%") as [->|_].
  - destruct s as [|h [|lo s']]; try done.
    destruct (hex_val h) as [hi|] eqn:Hh; [|done].
    destruct (hex_val lo) as [lv|] eqn:Hl; [|done]. simpl.
    destruct (unescape s') as [l'|] eqn:Hs'; [|done]. intros [= _ <-].
    exists h, lo, s'. split_and!; eauto using hex_val_ascii.
  - by destruct (unescape s).
Qed.

Lemma unescape_app_literal a s :
  ("%" : ascii) ∉ chars a →
  unescape (a +:+ s) = (((false,.) <$> chars a) ++.) <$> unescape s.
Proof.
  induction a as [|c a IH].
  - intros _. change ("" +:+ s) with s. by destruct (unescape s).
  - intros [Hc Ha]%not_elem_of_cons.
    change (String c a +:+ s) with (String c (a +:+ s)).
    rewrite unescape_literal, IH by done. by destruct (unescape s).
Qed.

Lemma utf8_escapes_literals cs l :
  utf8_escapes (((false,.) <$> cs) ++ l) = utf8_escapes l.
Proof. induction cs as [|c cs IH]; [done|]. by rewrite fmap_cons. Qed.

Lemma unescape_escaped_prefix tl s l :
  unescape s = Some (((true,.) <$> tl) ++ l) → wf_string s = true →
  ∃ s', unescape s' = Some l ∧ wf_string s' = true
        ∧ String.length s' ≤ String.length s.
Proof.
  revert s. induction tl as [|c tl IH]; intros s Hs Hwf.
  - by exists s.
  - apply unescape_cons_true in Hs as (h & lo & s1 & -> & Hh & Hl & Hs1).
    rewrite !wf_string_cons in Hwf by done.
    destruct (IH _ Hs1 Hwf) as (s' & ? & ? & ?).
    exists s'. simpl. split_and!; [done..|lia].
Qed.

(** Decoding a well-formed string gives a well-formed string. *)
Lemma unescape_wf s l :
  wf_string s = true → unescape s = Some l → utf8_escapes l = true →
  wf_bytes (l.*2).
Proof.
  remember (String.length s) as n eqn:Hn. revert s l Hn.
  induction n as [n IH] using lt_wf_ind. intros [|c s] l Hn Hwf Hl Hesc.
  { by simplify_eq/=. }
  simpl in Hn. destruct (byte_in 0 127 c) eqn:Hc.
  - rewrite wf_string_cons in Hwf by done.
    destruct (decide (c = "%"%char)) as [->|Hp].
    + destruct l as [|[[] b] l]; [by destruct s as [|? [|??]]; simplify_option_eq| |].
      2:{ simpl in Hl. destruct s as [|? [|??]]; simplify_option_eq. }
      apply unescape_cons_true in Hl as (h & lo & s1 & [= ->] & Hh & Hlo & Hs1).
      simpl in Hn. rewrite !wf_string_cons in Hwf by done.
      destruct (byte_in 0 127 b) eqn:Hb.
      * rewrite utf8_escapes_skip in Hesc by auto.
        rewrite fmap_cons. apply wf_bytes_cons; [done|].
        eapply (IH (String.length s1)); [lia|done..].
      * apply utf8_escapes_inv in Hesc as (tl & l3 & -> & Htl & Hl3); [|done].
        destruct (unescape_escaped_prefix _ _ _ Hs1 Hwf) as (s3 & Hs3 & Hwf3 & Hlen).
        rewrite fmap_cons, fmap_app, <- list_fmap_compose.
        change (snd ∘ _) with (@id ascii). rewrite list_fmap_id.
        apply wf_bytes_seq; [done..|].
        eapply (IH (String.length s3)); [lia|done..].
    + rewrite unescape_literal in Hl by done.
      destruct (unescape s) as [l'|] eqn:Hs; [|done]. simplify_eq/=.
      apply wf_bytes_cons; [done|]. eapply (IH (String.length s)); [lia|done..].
  - apply wf_string_inv in Hwf as (a & s' & -> & Ha & Hwf'); [|done].
    assert (("%" : ascii) ∉ c :: chars a) as [Hp Hpa]%not_elem_of_cons.
    { apply not_elem_of_cons. split; [by apply high_not_ascii|].
      by eapply lead_tail_no_ascii. }
    rewrite unescape_literal, unescape_app_literal in Hl by done.
    destruct (unescape s') as [l'|] eqn:Hs; [|done]. simplify_eq/=.
    rewrite utf8_escapes_literals in Hesc.
    rewrite fmap_app, <- list_fmap_compose.
    change (snd ∘ _) with (@id ascii). rewrite list_fmap_id.
    apply wf_bytes_seq; [done..|].
    eapply (IH (String.length s')); [|done..]. rewrite length_append. lia.
Qed.

Lemma decode_wf s s' :
  wf_string s = true → decodeURIComponent s = Some s' → wf_string s' = true.
Proof.
  intros Hwf. unfold decodeURIComponent.
  destruct (unescape s) as [l|] eqn:Hl; [|done]. simpl.
  destruct (utf8_escapes l) eqn:Hesc; [|done]. intros [= <-].
  apply wf_string_bytes. rewrite chars_of_string. by eapply unescape_wf.
Qed.

Lemma skip_leading_wf s : wf_string s = true → wf_string (skip_leading s) = true.
Proof.
  induction s as [|c s IH]; [done|]. simpl.
  destruct (Ascii.eqb_spec c "?") as [->|_]; simpl.
  { rewrite wf_string_cons by done. apply IH. }
  destruct (Ascii.eqb_spec c "#") as [->|_]; simpl; [|done].
  rewrite wf_string_cons by done. apply IH.
Qed.

End Strings.

(** ** Objects *)

Section Objects.

Lemma get_set k v o k' :
  Obj.get (Obj.set k v o) k' = if decide (k = k') then v else Obj.get o k'.
Proof.
  induction o as [|[k0 v0] o IH]; simpl.
  - by case_decide.
  - repeat (case_decide; simplify_eq/=); try done; by repeat case_decide.
Qed.

Lemma get_delete k o k' :
  Obj.get (Obj.delete k o) k'
  = if decide (k = k') then Js.Undefined else Obj.get o k'.
Proof.
  unfold Obj.delete. induction o as [|[k0 v0] o IH].
  - simpl. by case_decide.
  - rewrite filter_cons. simpl.
    repeat (case_decide; simplify_eq/=); try done; by repeat case_decide.
Qed.

Lemma get_absent o k : k ∉ o.*1 → Obj.get o k = Js.Undefined.
Proof.
  induction o as [|[k0 v0] o IH]; simpl; [done|].
  intros [? ?]%not_elem_of_cons. case_decide; [done|]. by apply IH.
Qed.

Lemma keys_set k v o :
  (Obj.set k v o).*1 = if decide (k ∈ o.*1) then o.*1 else o.*1 ++ [k].
Proof.
  induction o as [|[k0 v0] o IH].
  - rewrite decide_False; [done|apply not_elem_of_nil].
  - cbn [Obj.set]. destruct (decide (k0 = k)) as [->|Hne].
    + rewrite decide_True; [done|left].
    + rewrite !fmap_cons, IH. cbn [fst].
      destruct (decide (k ∈ o.*1)).
      * rewrite decide_True; [done|by right].
      * rewrite decide_False; [done|]. by intros [?|?]%elem_of_cons.
Qed.

Lemma elem_of_keys_set k v o k' :
  k' ∈ (Obj.set k v o).*1 ↔ k' = k ∨ k' ∈ o.*1.
Proof.
  rewrite keys_set. case_decide.
  - split; [by right|]. by intros [->|?].
  - rewrite elem_of_app, list_elem_of_singleton. tauto.
Qed.

Lemma elem_of_keys_delete k o k' :
  k' ∈ (Obj.delete k o).*1 ↔ k' ≠ k ∧ k' ∈ o.*1.
Proof.
  unfold Obj.delete. rewrite !list_elem_of_fmap. split.
  - intros ([k0 v0] & -> & [? ?]%list_elem_of_filter). split; [done|].
    by exists (k0, v0).
  - intros [? ([k0 v0] & -> & ?)]. exists (k0, v0). split; [done|].
    by apply list_elem_of_filter.
Qed.

Lemma insert_index_perm e l : Obj.insert_index e l ≡ₚ e :: l.
Proof.
  induction l as [|e' l IH]; simpl; [done|].
  case_match; [done|]. rewrite IH. apply perm_swap.
Qed.

Lemma sort_index_perm l : Obj.sort_index l ≡ₚ l.
Proof.
  induction l as [|e l IH]; simpl; [done|].
  by rewrite insert_index_perm, IH.
Qed.

(** [Object.keys] lists every own key once. *)
Lemma keys_perm o : Obj.keys o ≡ₚ o.*1.
Proof.
  unfold Obj.keys. rewrite sort_index_perm.
  induction o as [|[k v] o IH]; [done|].
  rewrite fmap_cons, filter_cons. cbn [omap list_omap fst].
  destruct (Obj.array_index k) as [n|] eqn:Hk.
  - rewrite decide_False by done. simpl. by rewrite IH.
  - rewrite decide_True by done. simpl.
    rewrite <- Permutation_middle. by rewrite IH.
Qed.

Lemma elem_of_keys o k : k ∈ Obj.keys o ↔ k ∈ o.*1.
Proof. by rewrite keys_perm. Qed.

Lemma to_map_set k v o :
  Obj.to_map (Obj.set k v o) = <[k := v]> (Obj.to_map o).
Proof.
  unfold Obj.to_map. induction o as [|[k0 v0] o IH]; simpl; [done|].
  case_decide; simplify_eq/=.
  - by rewrite insert_insert_eq.
  - by rewrite IH, insert_insert_ne.
Qed.

Lemma to_map_lookup o k :
  Obj.to_map o !! k = if decide (k ∈ o.*1) then Some (Obj.get o k) else None.
Proof.
  unfold Obj.to_map. induction o as [|[k0 v0] o IH].
  - rewrite decide_False; [done|apply not_elem_of_nil].
  - cbn [list_to_map foldr Obj.get fmap list_fmap fst uncurry].
    change (foldr (λ '(k, v), <[k:=v]>) ∅ o) with (list_to_map o : gmap _ _).
    destruct (decide (k0 = k)) as [->|Hne].
    + rewrite lookup_insert_eq, decide_True; [done|left].
    + rewrite lookup_insert_ne, IH by done.
      destruct (decide (k ∈ o.*1)).
      * rewrite decide_True; [done|by right].
      * rewrite decide_False; [done|]. by intros [?|?]%elem_of_cons.
Qed.

(** Assignment under a computed key. *)
Lemma assign_set k v o : k ≠ "__proto__" → Obj.assign k v o = Obj.set k v o.
Proof. intros Hk. unfold Obj.assign. rewrite decide_False; [done|]. by intros [? _]. Qed.

Lemma assign_proto_lost v o :
  "__proto__" ∉ o.*1 → Obj.assign "__proto__" v o = o.
Proof. intros Ho. unfold Obj.assign. by rewrite decide_True. Qed.

Lemma assign_cases k v o : Obj.assign k v o = o ∨ Obj.assign k v o = Obj.set k v o.
Proof. unfold Obj.assign. case_decide; auto. Qed.

Lemma elem_of_keys_assign k v o k' :
  k' ∈ (Obj.assign k v o).*1 ↔ k' ∈ o.*1 ∨ (k' = k ∧ k ≠ "__proto__").
Proof.
  unfold Obj.assign. case_decide as Hk.
  - destruct Hk as [Hk _]. split; [by left|]. by intros [?|[_ ?]].
  - rewrite elem_of_keys_set. split.
    + intros [->|?]; [|by left].
      destruct (decide (k = "__proto__")) as [Heq|Hne]; [|by right].
      left. destruct (decide (k ∈ o.*1)); [done|]. by destruct Hk.
    + intros [?|[-> _]]; [by right|by left].
Qed.

Lemma keys_assign_proto k v o :
  "__proto__" ∉ o.*1 → "__proto__" ∉ (Obj.assign k v o).*1.
Proof. rewrite elem_of_keys_assign. intros Ho [?|[? ?]]; [done|congruence]. Qed.

Lemma get_assign k v o k' :
  k' ≠ "__proto__" →
  Obj.get (Obj.assign k v o) k' = if decide (k = k') then v else Obj.get o k'.
Proof.
  intros Hk'. unfold Obj.assign. case_decide as Hk; [|apply get_set].
  destruct Hk as [-> _]. by rewrite decide_False by done.
Qed.

End Objects.

(** ** The codec *)

Section Codec.
Import Js.

Lemma qsString_segments obj : qsString obj = join "&" (segment <$> entries obj).
Proof.
  unfold qsString, entries. f_equal.
  by rewrite <- list_fmap_compose.
Qed.

Lemma segment_chars kv (c : ascii) :
  c ∈ chars (segment kv) → uri_char c = true ∨ c = "="%char.
Proof.
  unfold segment. rewrite !chars_app, !elem_of_app.
  pose proof (encode_chars kv.1) as H1. pose proof (encode_chars kv.2) as H2.
  rewrite Forall_forall in H1, H2.
  intros [?|[Hc|?]]; [left; by apply H1| |left; by apply H2].
  apply list_elem_of_singleton in Hc. by right.
Qed.

Lemma segment_no_amp kv : ("&" : ascii) ∉ chars (segment kv).
Proof. by intros [?%uri_char_not_sep|?]%segment_chars; destruct_and?. Qed.

Lemma join_chars sep l (c : ascii) :
  c ∈ chars (join sep l) → c ∈ chars sep ∨ ∃ s, s ∈ l ∧ c ∈ chars s.
Proof.
  induction l as [|a [|b l] IH]; simpl.
  - by intros ?%elem_of_nil.
  - intros ?. right. exists a. split; [left|done].
  - rewrite !chars_app, !elem_of_app. intros [?|[?|Hc]]; [|by left|].
    + right. exists a. split; [left|done].
    + destruct (IH Hc) as [?|(s & ? & ?)]; [by left|].
      right. exists s. split; [by right|done].
Qed.

Lemma skip_leading_id s :
  ("?" : ascii) ∉ chars s → ("#" : ascii) ∉ chars s → skip_leading s = s.
Proof.
  destruct s as [|c s]; [done|]. simpl.
  intros [? _]%not_elem_of_cons [? _]%not_elem_of_cons.
  destruct (Ascii.eqb_spec c "?"); [done|].
  by destruct (Ascii.eqb_spec c "#").
Qed.

Lemma skip_leading_segments kvs :
  skip_leading (join "&" (segment <$> kvs)) = join "&" (segment <$> kvs).
Proof.
  apply skip_leading_id; intros [Hc|(s & Hs & Hc)]%join_chars.
  - by apply list_elem_of_singleton in Hc.
  - apply list_elem_of_fmap in Hs as (kv & -> & _).
    by apply segment_chars in Hc as [?%uri_char_not_sep|?]; destruct_and?.
  - by apply list_elem_of_singleton in Hc.
  - apply list_elem_of_fmap in Hs as (kv & -> & _).
    by apply segment_chars in Hc as [?%uri_char_not_sep|?]; destruct_and?.
Qed.

Lemma split_segment kv :
  split "=" (segment kv)
  = [encodeURIComponent kv.1; encodeURIComponent kv.2].
Proof.
  unfold segment.
  change ("=" +:+ ?s) with (String "=" s).
  rewrite split_app, split_none; [done|..]; apply encode_no_sep; set_solver.
Qed.

Lemma stringQs_step_segment o kv :
  wf_string kv.2 = true →
  stringQs_step (Some o) (segment kv)
  = Some (Obj.assign (encodeURIComponent kv.1) (Str kv.2) o).
Proof.
  intros Hwf. unfold stringQs_step. simpl.
  by rewrite split_segment, decode_encode.
Qed.

Lemma foldl_stringQs_step o kvs :
  Forall (λ kv, wf_string kv.2 = true) kvs →
  foldl stringQs_step (Some o) (segment <$> kvs)
  = Some (foldl (λ o kv, Obj.assign (encodeURIComponent kv.1) (Str kv.2) o) o kvs).
Proof.
  intros Hwf. revert o. induction Hwf as [|kv kvs Hkv _ IH]; intros o; [done|].
  rewrite fmap_cons. cbn [foldl]. by rewrite stringQs_step_segment, IH.
Qed.

(** Decoding an encoded list of pairs. *)
Lemma stringQs_segments kvs :
  Forall (λ kv, wf_string kv.2 = true) kvs →
  stringQs (join "&" (segment <$> kvs)) = Some (reread kvs).
Proof.
  intros Hwf. unfold stringQs. rewrite skip_leading_segments.
  destruct kvs as [|kv kvs]; [done|].
  rewrite split_join.
  - by apply foldl_stringQs_step.
  - done.
  - apply Forall_fmap, Forall_forall. intros ? _. apply segment_no_amp.
Qed.

Lemma stringQs_qsString obj :
  Forall (λ kv, wf_string kv.2 = true) (entries obj) →
  stringQs (qsString obj) = Some (reread (entries obj)).
Proof. intros Hwf. rewrite qsString_segments. by apply stringQs_segments. Qed.

Lemma qsString_chars obj (c : ascii) :
  c ∈ chars (qsString obj) → uri_char c = true ∨ c = "="%char ∨ c = "&"%char.
Proof.
  rewrite qsString_segments. intros [Hc|(s & Hs & Hc)]%join_chars.
  - apply list_elem_of_singleton in Hc. auto.
  - apply list_elem_of_fmap in Hs as (kv & -> & _).
    apply segment_chars in Hc. tauto.
Qed.

Lemma qsString_no_question obj : ("?" : ascii) ∉ chars (qsString obj).
Proof.
  by intros [?%uri_char_not_sep|[?|?]]%qsString_chars; destruct_and?.
Qed.

Lemma encode_eq_iff key k :
  unreserved k → encodeURIComponent key = k ↔ key = k.
Proof.
  intros Hk. split; [by apply encode_eq_unreserved|].
  intros ->. by apply encode_unreserved.
Qed.

Lemma reread_entries obj :
  reread (entries obj)
  = foldl (λ o key, Obj.assign (encodeURIComponent key)
                      (Str (to_string (Obj.get obj key))) o) [] (Obj.keys obj).
Proof. unfold reread, entries. by rewrite foldl_fmap. Qed.

Lemma get_foldl_set (g : string → val) ks o k :
  unreserved k → k ≠ "__proto__" →
  Obj.get (foldl (λ o key, Obj.assign (encodeURIComponent key) (g key) o) o ks) k
  = if decide (k ∈ ks) then g k else Obj.get o k.
Proof.
  intros Hk Hproto. revert o. induction ks as [|key ks IH]; intros o.
  - rewrite decide_False; [done|apply not_elem_of_nil].
  - cbn [foldl]. rewrite IH, get_assign by done.
    destruct (decide (k ∈ ks)).
    { rewrite decide_True; [done|by right]. }
    destruct (decide (encodeURIComponent key = k)) as [Heq|Hne].
    + apply encode_eq_iff in Heq as ->; [|done].
      rewrite decide_True; [done|left].
    + rewrite decide_False; [done|].
      intros [->|?]%elem_of_cons; [|done].
      by rewrite encode_unreserved in Hne.
Qed.

Lemma keys_foldl_set (g : string → val) ks o k :
  k ∈ (foldl (λ o key, Obj.assign (encodeURIComponent key) (g key) o) o ks).*1
  ↔ k ∈ o.*1 ∨ (k ≠ "__proto__" ∧ ∃ key, key ∈ ks ∧ encodeURIComponent key = k).
Proof.
  revert o. induction ks as [|key ks IH]; intros o.
  - split; [by left|]. intros [?|(_ & ? & []%elem_of_nil & _)]; done.
  - cbn [foldl]. rewrite IH, elem_of_keys_assign. split.
    + intros [[?|[-> ?]]|(? & key' & ? & ?)]; [by left|right|right].
      * split; [done|]. exists key. split; [left|done].
      * split; [done|]. exists key'. split; [by right|done].
    + intros [?|(? & key' & [->|?]%elem_of_cons & ?)]; [left; by left| |].
      * left. right. by subst.
      * right. split; [done|]. by exists key'.
Qed.

(** Reading an unreserved key back after encoding and decoding. *)
Lemma get_reread obj k :
  unreserved k → k ≠ "__proto__" →
  Obj.get (reread (entries obj)) k
  = if decide (k ∈ obj.*1) then Str (to_string (Obj.get obj k)) else Undefined.
Proof.
  intros Hk Hproto. rewrite reread_entries, get_foldl_set by done.
  destruct (decide (k ∈ obj.*1)) as [Hin|Hin].
  - rewrite decide_True; [done|by apply elem_of_keys].
  - rewrite decide_False; [done|by rewrite elem_of_keys].
Qed.

Lemma keys_reread obj k :
  k ∈ (reread (entries obj)).*1
  ↔ k ≠ "__proto__" ∧ ∃ key, key ∈ obj.*1 ∧ encodeURIComponent key = k.
Proof.
  rewrite reread_entries, keys_foldl_set. split.
  - intros [[]%elem_of_nil|(? & key & ?%elem_of_keys & ?)].
    split; [done|]. by exists key.
  - intros (? & key & ? & ?). right. split; [done|].
    exists key. by rewrite elem_of_keys.
Qed.

(** The key [__proto__] does not come back, and reads as [undefined]. *)
Lemma reread_proto obj :
  ("__proto__" ∉ (reread (entries obj)).*1)
  ∧ Obj.get (reread (entries obj)) "__proto__" = Undefined.
Proof.
  assert ("__proto__" ∉ (reread (entries obj)).*1) as Hk.
  { rewrite keys_reread. by intros [? _]. }
  split; [done|]. by apply get_absent.
Qed.

Lemma wf_obj_get o k : wf_obj o → wf_string (to_string (Obj.get o k)) = true.
Proof.
  induction 1 as [|[k0 v0] o Hv _ IH]; simpl; [done|]. by case_decide.
Qed.

Lemma wf_obj_set k v o :
  wf_string (to_string v) = true → wf_obj o → wf_obj (Obj.set k v o).
Proof.
  intros Hv. induction 1 as [|[k0 v0] o Hv0 Ho IH]; simpl.
  - by repeat constructor.
  - case_decide; by constructor.
Qed.

Lemma wf_obj_assign k v o :
  wf_string (to_string v) = true → wf_obj o → wf_obj (Obj.assign k v o).
Proof.
  intros Hv Ho. destruct (assign_cases k v o) as [->| ->]; [done|].
  by apply wf_obj_set.
Qed.

Lemma wf_obj_delete k o : wf_obj o → wf_obj (Obj.delete k o).
Proof.
  unfold wf_obj. rewrite !Forall_forall.
  intros Ho kv [_ ?]%list_elem_of_filter. by apply Ho.
Qed.

Lemma wf_obj_entries o :
  wf_obj o → Forall (λ kv, wf_string kv.2 = true) (entries o).
Proof.
  intros Ho. apply Forall_fmap, Forall_forall. intros key _. simpl.
  by apply wf_obj_get.
Qed.

Lemma elem_of_set kv k v (o : Obj.t) :
  kv ∈ Obj.set k v o → kv = (k, v) ∨ kv ∈ o.
Proof.
  induction o as [|[k0 v0] o IH]; simpl.
  - intros ?%list_elem_of_singleton. by left.
  - case_decide; intros [->|?]%elem_of_cons.
    + by left.
    + right. by right.
    + right. left.
    + destruct IH as [?|?]; [done|by left|]. right. by right.
Qed.

Lemma stringQs_step_inv o seg q :
  stringQs_step (Some o) seg = Some q →
  q = o ∨ ∃ k v v', split "=" seg = [k; v] ∧ decodeURIComponent v = Some v'
                    ∧ q = Obj.set k (Str v') o.
Proof.
  unfold stringQs_step. simpl.
  destruct (split "=" seg) as [|k [|v [|??]]]; try (intros [= <-]; by left).
  destruct (decodeURIComponent v) as [v'|] eqn:Hv; [|done].
  intros [= <-]. destruct (assign_cases k (Str v') o) as [->| ->]; [by left|].
  right. by exists k, v, v'.
Qed.

Lemma foldl_stringQs_step_None segs : foldl stringQs_step None segs = None.
Proof. by induction segs. Qed.

(** Every property of the decoded object comes from a segment [k=v]:
    the key as written, the value decoded. *)
Lemma foldl_stringQs_step_entries segs o q kv :
  foldl stringQs_step (Some o) segs = Some q → kv ∈ q →
  kv ∈ o ∨ ∃ seg v v', seg ∈ segs ∧ split "=" seg = [kv.1; v]
                       ∧ decodeURIComponent v = Some v' ∧ kv.2 = Str v'.
Proof.
  revert o. induction segs as [|seg segs IH]; intros o; cbn [foldl].
  - intros [= <-] ?. by left.
  - destruct (stringQs_step (Some o) seg) as [o'|] eqn:Hstep.
    2:{ by rewrite foldl_stringQs_step_None. }
    intros Hq Hkv. destruct (IH _ Hq Hkv) as [Ho'|(seg' & v & v' & ? & ?)].
    2:{ right. exists seg', v, v'. split; [by right|done]. }
    apply stringQs_step_inv in Hstep as [->|(k & v & v' & Hs & Hv & ->)];
      [by left|].
    apply elem_of_set in Ho' as [->|?]; [|by left].
    right. exists seg, v, v'. split; [left|done].
Qed.

Lemma foldl_stringQs_step_wf segs o q :
  Forall (λ seg, wf_string seg = true) segs → wf_obj o →
  foldl stringQs_step (Some o) segs = Some q → wf_obj q.
Proof.
  intros Hsegs. revert o. induction Hsegs as [|seg segs Hseg _ IH]; intros o Ho.
  - cbn [foldl]. by intros [= <-].
  - cbn [foldl]. destruct (stringQs_step (Some o) seg) as [o'|] eqn:Hstep.
    2:{ by rewrite foldl_stringQs_step_None. }
    apply IH.
    apply stringQs_step_inv in Hstep as [->|(k & v & v' & Hs & Hv & ->)];
      [done|].
    apply wf_obj_set; [|done]. simpl. eapply decode_wf; [|done].
    pose proof (split_wf "=" seg eq_refl Hseg) as Hparts.
    rewrite Hs in Hparts. by apply Forall_cons in Hparts as [_ [? _]%Forall_cons].
Qed.

(** The decoded query holds well-formed strings. *)
Lemma stringQs_wf raw q :
  wf_string raw = true → stringQs raw = Some q → wf_obj q.
Proof.
  intros Hraw. apply foldl_stringQs_step_wf; [|constructor].
  by apply split_wf, skip_leading_wf.
Qed.

Lemma keys_singleton k v : Obj.keys [(k, v)] = [k].
Proof. apply Permutation_singleton_r, (keys_perm [(k, v)]). Qed.

Lemma str_obj_keys p : (str_obj p).*1 = p.*1.
Proof. unfold str_obj. rewrite <- list_fmap_compose. by apply list_fmap_ext; intros ? []. Qed.

Lemma str_obj_get p k :
  k ∈ p.*1 → ∃ s, Obj.get (str_obj p) k = Str s ∧ (k, s) ∈ p.
Proof.
  induction p as [|[k0 s0] p IH]; simpl.
  - by intros ?%elem_of_nil.
  - intros Hin. case_decide; simplify_eq/=.
    + exists s0. split; [done|left].
    + apply elem_of_cons in Hin as [?|Hin]; [done|].
      destruct (IH Hin) as (s & ? & ?). exists s. split; [done|by right].
Qed.

End Codec.

Section CodecClaims.
Import Js.

(** C2 as stated fails: keys are encoded by [qsString] but not decoded by
    [stringQs].  The map with the one key [a b], which holds neither [=]
    nor [&], comes back with the key [a%20b]. *)
Lemma roundtrip_fails_on_encoded_key :
  let p := [("a b", Str "x")] in
  Forall (λ kv, no_separator kv.1 ∧ no_separator (to_string kv.2)) p
  ∧ stringQs (qsString p) = Some [("a%20b", Str "x")]
  ∧ Obj.to_map [("a%20b", Str "x")] ≠ Obj.to_map p.
Proof.
  split_and!.
  - unfold no_separator. compute_done.
  - done.
  - intros Heq. apply (f_equal (.!! "a b")) in Heq. done.
Qed.

(** The key [__proto__], which holds neither [=] nor [&] and needs no
    escaping, is lost as well: assigning a string to it stores nothing. *)
Example roundtrip_loses_proto_key :
  let p := [("__proto__", Str "x")] in
  Forall (λ kv, no_separator kv.1 ∧ no_separator (to_string kv.2)) p
  ∧ unreserved "__proto__"
  ∧ stringQs (qsString p) = Some [].
Proof.
  split_and!.
  - unfold no_separator. compute_done.
  - unfold unreserved. compute_done.
  - done.
Qed.

(** C2, amended: for every parameter map whose keys are made of unreserved
    characters and are not [__proto__], and whose values are strings,
    decoding the encoding gives the same map. *)
Theorem roundtrip_unreserved_keys (p : list (string * string)) :
  Forall (λ kv, unreserved kv.1 ∧ kv.1 ≠ "__proto__"
                ∧ wf_string kv.2 = true) p →
  ∃ q, stringQs (qsString (str_obj p)) = Some q
       ∧ Obj.to_map q = Obj.to_map (str_obj p).
Proof.
  intros Hp. rewrite Forall_forall in Hp.
  assert (wf_obj (str_obj p)) as Hwf.
  { apply Forall_fmap, Forall_forall. intros [k v] Hkv.
    by apply Hp in Hkv as (_ & _ & ?). }
  assert (∀ k, k ∈ (str_obj p).*1 → unreserved k ∧ k ≠ "__proto__") as Hkey.
  { intros k Hk. rewrite str_obj_keys in Hk.
    apply list_elem_of_fmap in Hk as (kv & -> & Hkv).
    by apply Hp in Hkv as (? & ? & _). }
  eexists. split; [by apply stringQs_qsString, wf_obj_entries|].
  apply map_eq. intros k. rewrite !to_map_lookup.
  assert (k ∈ (reread (entries (str_obj p))).*1 ↔ k ∈ (str_obj p).*1) as Hkeys.
  { rewrite keys_reread. split.
    - intros (_ & key & Hin & <-).
      rewrite encode_unreserved; [done|]. by apply Hkey.
    - intros Hk. destruct (Hkey k Hk) as [? ?]. split; [done|].
      exists k. split; [done|]. by apply encode_unreserved. }
  destruct (decide (k ∈ (str_obj p).*1)) as [Hin|Hin].
  - rewrite decide_True by by apply Hkeys.
    destruct (Hkey k Hin) as [? ?].
    rewrite get_reread, decide_True by done.
    rewrite str_obj_keys in Hin.
    by destruct (str_obj_get p k Hin) as (s & -> & _).
  - by rewrite decide_False by by rewrite Hkeys.
Qed.

Lemma roundtrip_unreserved_keys_witness :
  ∃ q, stringQs (qsString (str_obj [("k", "caf&é"); ("v", "a=b")])) = Some q
       ∧ Obj.to_map q = Obj.to_map (str_obj [("k", "caf&é"); ("v", "a=b")]).
Proof.
  apply (roundtrip_unreserved_keys [("k", "caf&é"); ("v", "a=b")]).
  repeat constructor; first [discriminate | vm_compute; reflexivity].
Defined.

(** C9: [stringQs] never decodes a key.  Every property of its result
    comes from a segment [k=v] of the raw string, with the key exactly as
    written and only the value decoded; so a key that holds a character
    [encodeURIComponent] escapes comes back in its escaped form. *)
Theorem stringQs_keeps_keys_raw raw q kv k v :
  stringQs raw = Some q → kv ∈ q →
  ¬ unreserved k → wf_string v = true →
  (∃ seg w w', seg ∈ split "&" (skip_leading raw)
               ∧ split "=" seg = [kv.1; w]
               ∧ decodeURIComponent w = Some w' ∧ kv.2 = Str w')
  ∧ stringQs (qsString [(k, Str v)]) = Some [(encodeURIComponent k, Str v)]
  ∧ encodeURIComponent k ≠ k.
Proof.
  intros Hq Hkv Hk Hv. split_and!.
  - unfold stringQs in Hq.
    destruct (foldl_stringQs_step_entries _ _ _ _ Hq Hkv) as [[]%elem_of_nil|?].
    done.
  - rewrite stringQs_qsString.
    + unfold entries, reread. rewrite keys_singleton.
      cbn [fmap list_fmap foldl fst snd].
      rewrite assign_set.
      * cbn. by rewrite decide_True.
      * intros ->%encode_proto. apply Hk, unreserved_proto.
    + apply wf_obj_entries. by repeat constructor.
  - by intros ?%encode_fixed.
Qed.

Lemma stringQs_keeps_keys_raw_witness :
  (∃ seg w w', seg ∈ split "&" (skip_leading "?a%20b=c%20d")
               ∧ split "=" seg = ["a%20b"; w]
               ∧ decodeURIComponent w = Some w' ∧ Str "c d" = Str w')
  ∧ stringQs (qsString [("a b", Str "x")]) = Some [(encodeURIComponent "a b", Str "x")]
  ∧ encodeURIComponent "a b" ≠ "a b".
Proof.
  apply (stringQs_keeps_keys_raw "?a%20b=c%20d" [("a%20b", Str "c d")]
           ("a%20b", Str "c d") "a b" "x").
  - reflexivity.
  - left.
  - unfold unreserved. compute_done.
  - reflexivity.
Defined.

End CodecClaims.

Section Outbound.
Import Js.

Lemma set_fresh k v (o : Obj.t) : k ∉ o.*1 → Obj.set k v o = o ++ [(k, v)].
Proof.
  induction o as [|[k0 v0] o IH]; simpl; [done|].
  intros [? ?]%not_elem_of_cons. rewrite decide_False by done. by rewrite IH.
Qed.

Lemma get_entries_nodup (o : Obj.t) :
  NoDup o.*1 → (λ key, (key, Obj.get o key)) <$> o.*1 = o.
Proof.
  induction o as [|[k0 v0] o IH]; [done|].
  rewrite !fmap_cons. cbn [fst Obj.get]. intros [Hk Ho]%NoDup_cons.
  rewrite decide_True by done. f_equal.
  rewrite <- (IH Ho) at 2. apply list_fmap_ext. intros i k Hi. simpl.
  rewrite decide_False; [done|]. intros ->. apply Hk.
  by eapply list_elem_of_lookup_2.
Qed.

Lemma keys_no_index (o : Obj.t) :
  Forall (λ k, Obj.array_index k = None) o.*1 → Obj.keys o = o.*1.
Proof.
  intros Ho. unfold Obj.keys.
  assert (omap (λ kv, (., kv.1) <$> Obj.array_index kv.1) o = []) as ->.
  { induction o as [|[k1 v1] o IH]; [done|].
    apply Forall_cons in Ho as [Hk1 Ho]. cbn. simpl in Hk1. rewrite Hk1. auto. }
  simpl. induction Ho as [|k ks Hk _ IH]; [done|].
  by rewrite filter_cons, decide_True, IH.
Qed.

Lemma ordered_spec_keys params :
  (ordered_spec params).*1 `sublist_of` key_order.
Proof.
  unfold ordered_spec. induction key_order as [|k ks IH]; [done|].
  cbn [omap list_omap].
  destruct (truthy (Obj.get params k)); [by apply sublist_skip|].
  destruct (decide (k = "t")); [by apply sublist_skip|by apply sublist_cons].
Qed.

Lemma key_order_nodup : NoDup key_order.
Proof. compute_done. Qed.

Lemma key_order_plain :
  Forall (λ k, Obj.array_index k = None ∧ encodeURIComponent k = k) key_order.
Proof. by repeat constructor. Qed.

Lemma ordered_params_spec params : ordered_params params = ordered_spec params.
Proof.
  unfold ordered_params, ordered_spec.
  enough (∀ ks acc, NoDup ks → (∀ k, k ∈ ks → k ∉ acc.*1) →
            foldl (order_step params) acc ks
            = acc ++ omap (λ k, if truthy (Obj.get params k)
                                then Some (k, Obj.get params k)
                                else if decide (k = "t")
                                     then Some (k, Str "brands") else None) ks)
    as H.
  { apply (H key_order []); [apply key_order_nodup|]. intros k _. apply not_elem_of_nil. }
  induction ks as [|k ks IH]; intros acc Hnd Hacc.
  - simpl. by rewrite app_nil_r.
  - apply NoDup_cons in Hnd as [Hk Hks]. cbn [foldl omap list_omap].
    assert (k ∉ acc.*1) as Hfresh by (apply Hacc; left).
    assert (∀ v, ∀ k', k' ∈ ks → k' ∉ (acc ++ [(k, v)]).*1) as Hnext.
    { intros v k' Hk'. rewrite fmap_app, not_elem_of_app. split.
      - apply Hacc. by right.
      - simpl. intros ->%list_elem_of_singleton. done. }
    unfold order_step at 2.
    destruct (truthy (Obj.get params k)).
    { rewrite set_fresh, IH, <- app_assoc by auto. done. }
    destruct (decide (k = "t")).
    { rewrite set_fresh, IH, <- app_assoc by auto. done. }
    apply IH; [done|]. intros k' Hk'. apply Hacc. by right.
Qed.

(** C4: the outbound sync walks the fixed key order, keeps a key only when
    the parameters hold a truthy value for it, and defaults [t] to
    [brands]; the query string lists the kept keys in that order. *)
Theorem outbound_walks_key_order params :
  ordered_params params = ordered_spec params
  ∧ Obj.keys (ordered_params params) = (ordered_spec params).*1
  ∧ qsString (ordered_params params)
    = join "&" ((λ kv, kv.1 +:+ "=" +:+ encodeURIComponent (to_string kv.2))
                  <$> ordered_spec params)
  ∧ qsString (ordered_params [("k", Str "cafe"); ("v", Str "Foo")])
    = "t=brands&k=cafe&v=Foo".
Proof.
  pose proof (ordered_spec_keys params) as Hsub.
  assert (Forall (λ k, Obj.array_index k = None ∧ encodeURIComponent k = k)
            (ordered_spec params).*1) as Hplain.
  { rewrite Forall_forall. intros k Hk%(sublist_subseteq _ _ Hsub).
    revert k Hk. apply Forall_forall, key_order_plain. }
  assert (Obj.keys (ordered_spec params) = (ordered_spec params).*1) as Hkeys.
  { apply keys_no_index. eapply Forall_impl; [done|]. by intros k [? _]. }
  rewrite ordered_params_spec. split_and!; [done|done| |by vm_compute].
  unfold qsString. rewrite Hkeys. f_equal.
  set (o := ordered_spec params) in *.
  transitivity ((λ kv, kv.1 +:+ "=" +:+ encodeURIComponent (to_string kv.2))
                  <$> ((λ key, (key, Obj.get o key)) <$> o.*1)).
  - rewrite <- (list_fmap_compose (λ key, (key, Obj.get o key)) _ o.*1).
    apply list_fmap_ext. intros i k Hi. simpl.
    apply list_elem_of_lookup_2 in Hi. rewrite Forall_forall in Hplain.
    by destruct (Hplain k Hi) as [_ ->].
  - rewrite get_entries_nodup; [done|].
    eapply sublist_NoDup; [apply key_order_nodup|done].
Qed.

Lemma outbound_navigates_iff did loading params hash loc :
  (outbound did loading params hash loc).2 ≠ None ↔
  loading = false
  ∧ (did = false ∧ "?" +:+ qsString (ordered_params params) ≠ Location.search loc
     ∨ hash ≠ Location.hash loc).
Proof.
  unfold outbound. destruct loading; simpl.
  { split; [done|]. by intros [? _]. }
  destruct did; simpl; repeat case_bool_decide; simpl;
    (split; [intros ?|intros [_ [[? ?]|?]]]); try done; auto.
Qed.

(** C7: at a fixed point, where the location already shows the query
    string and the hash the parameters encode to, the outbound sync asks
    for no navigation and leaves the flag as it is. *)
Theorem outbound_fixed_point did loading params hash loc :
  Location.search loc = "?" +:+ qsString (ordered_params params) →
  Location.hash loc = hash →
  outbound did loading params hash loc = (did, None).
Proof.
  intros Hs Hh. unfold outbound. destruct loading; [done|].
  rewrite Hs, Hh. rewrite !bool_decide_false by (by intros []).
  by rewrite andb_false_r.
Qed.

Lemma outbound_fixed_point_witness :
  outbound false false [("k", Str "cafe"); ("v", Str "Foo")] "#a1"
    {| Location.pathname := "/"; Location.search := "?t=brands&k=cafe&v=Foo";
       Location.hash := "#a1" |}
  = (false, None).
Proof. apply outbound_fixed_point; reflexivity. Defined.

End Outbound.

Section Inbound.
Import Js.

Lemma truthy_str s : s ≠ "" → truthy (Str s) = true.
Proof. by destruct s. Qed.

Lemma question_differs (o o' : Obj.t) : "?" +:+ qsString o ≠ qsString o'.
Proof.
  intros Heq. apply (qsString_no_question o'). rewrite <- Heq. left.
Qed.

(** Reading a key other than [__proto__] that was assigned. *)
Lemma read_item heap ix k r :
  Index.id ix !! k = Some r → k ≠ "__proto__" →
  Index.read heap ix k = Index.Item r.
Proof.
  intros Hr Hk. unfold Index.read. rewrite Hr.
  rewrite decide_False; [done|]. by intros [? _].
Qed.

(** Only what was assigned is read as an item. *)
Lemma read_item_inv heap ix k r :
  Index.read heap ix k = Index.Item r → Index.id ix !! k = Some r.
Proof.
  unfold Index.read, Index.inherited.
  destruct (Index.id ix !! k) as [r'|].
  - case_decide; [|congruence].
    destruct (heap r') as [item|]; [|congruence].
    case_decide; congruence.
  - destruct (_ ≫= _) as [item|]; repeat case_decide; congruence.
Qed.

Lemma split_limit_wf sep n s :
  byte_in 0 127 sep = true → wf_string s = true →
  Forall (λ w, wf_string w = true) (split_limit sep n s).
Proof. intros. by apply Forall_take, split_wf. Qed.

(** C3 as stated fails: an empty [id] is falsy, so it is never looked up,
    even when an item is indexed under the empty id.  With the query
    [?id=] the parameters keep [id], get no [t], [k], [v], and the hash
    is not [#]. *)
Lemma inbound_skips_empty_id :
  let location := {| Location.pathname := "/"; Location.search := "?id=";
                     Location.hash := "" |} in
  let json := {| Nsi.nsi := Some [("amenity/cafe/Foo",
                    {| Nsi.items := Some [[("id", Str "")]] |})];
                 Nsi._meta := Undefined |} in
  ∃ heap ix q,
    build_index json = Some (heap, ix)
    ∧ stringQs (Location.search location) = Some q
    ∧ "id" ∈ q.*1 ∧ Obj.get q "id" = Str ""
    ∧ Index.id ix !! "" = Some (0, 0)
    ∧ Index.read heap ix "" = Index.Item (0, 0)
    ∧ (λ item, Obj.get item "tkv") <$> heap (0, 0)
      = Some (Str "amenity/cafe/Foo")
    ∧ inbound location false (Some (heap, ix)) [] ""
      = Some (Commit "" [("id", Str "")])
    ∧ ¬ ∃ newParams, inbound location false (Some (heap, ix)) [] ""
                     = Some (Commit ("#" +:+ "") newParams).
Proof.
  eexists _, _, _. split; [reflexivity|]. split; [reflexivity|].
  split_and!; [by left|by vm_compute..|].
  intros [newParams Heq]. vm_compute in Heq. discriminate.
Qed.

(** Nor is it enough that an item was assigned under the id.  The item
    assigned under [__proto__] becomes the prototype of [byId]; when it
    has a field [__proto__] of its own, [byId["__proto__"]] reads that
    field, a string without [tkv], and the inbound sync throws. *)
Example inbound_reads_proto_field :
  let location := {| Location.pathname := "/";
                     Location.search := "?id=__proto__";
                     Location.hash := "" |} in
  let json := {| Nsi.nsi := Some [("amenity/cafe/Foo",
                    {| Nsi.items := Some [[("id", Str "__proto__");
                                           ("__proto__", Str "x")]] |})];
                 Nsi._meta := Undefined |} in
  ∃ heap ix,
    build_index json = Some (heap, ix)
    ∧ Index.id ix !! "__proto__" = Some (0, 0)
    ∧ Index.read heap ix "__proto__" = Index.Field (Str "x")
    ∧ inbound location false (Some (heap, ix)) [] "" = None.
Proof. eexists _, _. split; [reflexivity|]. split_and!; by vm_compute. Qed.

(** C3, amended: when the decoded query holds a non-empty [id], the index
    is loaded, [byId[id]] is an item and the item's [tkv] has three parts,
    the inbound sync commits: [t], [k], [v] are the three parts, [id] is
    gone and the hash is [#] followed by the id. *)
Theorem inbound_resolves_id location heap ix params hash q itemID r item
    tkv p0 p1 p2 :
  wf_string (Location.search location) = true →
  stringQs (Location.search location) = Some q →
  Obj.get q "id" = Str itemID → itemID ≠ "" →
  Index.read heap ix itemID = Index.Item r → heap r = Some item →
  Obj.get item "tkv" = Str tkv → wf_string tkv = true →
  split_limit "/" 3 tkv = [p0; p1; p2] →
  ∃ newParams,
    inbound location false (Some (heap, ix)) params hash
    = Some (Commit ("#" +:+ itemID) newParams)
    ∧ Obj.get newParams "t" = Str p0
    ∧ Obj.get newParams "k" = Str p1
    ∧ Obj.get newParams "v" = Str p2
    ∧ "id" ∉ newParams.*1.
Proof.
  intros Hwf Hq Hid Hne Hr Hitem Htkv Hwftkv Hparts.
  pose proof (split_limit_wf "/" 3 tkv eq_refl Hwftkv) as Hwfp.
  rewrite Hparts in Hwfp.
  apply Forall_cons in Hwfp as [Hp0 [Hp1 [Hp2 _]%Forall_cons]%Forall_cons].
  set (np := Obj.delete "id" (Obj.set "v" (Str p2) (Obj.set "k" (Str p1)
               (Obj.set "t" (Str p0) q)))).
  assert (wf_obj np) as Hnp.
  { apply wf_obj_delete. repeat (apply wf_obj_set; [done|]).
    exact (stringQs_wf _ _ Hwf Hq). }
  exists (reread (entries np)). split_and!.
  - unfold inbound, resolve_id. rewrite Hq. simpl.
    rewrite Hid, truthy_str by done. simpl. rewrite Hr. simpl.
    rewrite Hitem. simpl. rewrite Htkv, Hparts. simpl. fold np.
    rewrite (bool_decide_true (_ ≠ qsString np)) by apply question_differs.
    rewrite orb_true_r.
    by rewrite stringQs_qsString by by apply wf_obj_entries.
  - rewrite get_reread by by repeat constructor.
    unfold np. rewrite decide_True.
    + by rewrite get_delete, !get_set.
    + rewrite elem_of_keys_delete, !elem_of_keys_set. auto.
  - rewrite get_reread by by repeat constructor.
    unfold np. rewrite decide_True.
    + by rewrite get_delete, !get_set.
    + rewrite elem_of_keys_delete, !elem_of_keys_set. auto.
  - rewrite get_reread by by repeat constructor.
    unfold np. rewrite decide_True.
    + by rewrite get_delete, !get_set.
    + rewrite elem_of_keys_delete, !elem_of_keys_set. auto.
  - rewrite keys_reread. intros (_ & key & Hkey & Henc).
    apply encode_eq_unreserved in Henc as ->; [|by repeat constructor].
    unfold np in Hkey. by apply elem_of_keys_delete in Hkey as [? _].
Qed.

Lemma inbound_resolves_id_witness :
  ∃ newParams,
    inbound {| Location.pathname := "/"; Location.search := "?id=a1";
               Location.hash := "" |} false
      (Some (Nsi.write (0, 0) [("id", Str "a1"); ("tkv", Str "amenity/cafe/Foo")]
               (λ _, None),
             {| Index.path := {["amenity/cafe/Foo" := [(0, 0)]]};
                Index.id := {["a1" := (0, 0)]}; Index.id_proto := None;
                Index.meta := Undefined |}))
      [] ""
    = Some (Commit ("#" +:+ "a1") newParams)
    ∧ Obj.get newParams "t" = Str "amenity"
    ∧ Obj.get newParams "k" = Str "cafe"
    ∧ Obj.get newParams "v" = Str "Foo"
    ∧ "id" ∉ newParams.*1.
Proof.
  apply (inbound_resolves_id _ _ _ [] "" [("id", Str "a1")] "a1" (0, 0)
           [("id", Str "a1"); ("tkv", Str "amenity/cafe/Foo")]
           "amenity/cafe/Foo" "amenity" "cafe" "Foo");
    first [reflexivity | discriminate].
Defined.

(** C1: the flag does not stop the outbound sync when the hashes differ.
    With the location [/?id=a1#foo], fresh state and the index just
    loaded, the inbound sync commits (and sets the flag), and the outbound
    sync of the same render still replaces the location. *)
Theorem outbound_navigates_despite_flag :
  let location := {| Location.pathname := "/"; Location.search := "?id=a1";
                     Location.hash := "#foo" |} in
  both_effects location false (build_index example_json) [] ""
  = Some (Commit "#a1" [("t", Str "amenity"); ("k", Str "cafe");
                        ("v", Str "Foo")],
          Some (Replace "/?t=brands"))
  ∧ outbound true false [] "" location = (false, Some (Replace "/?t=brands")).
Proof. split; by vm_compute. Qed.

End Inbound.

(** ** Last write wins *)

Section LastWrite.
Context {A K V : Type} `{Countable K}.

Lemma last_filter_Some (P : A → Prop) `{!∀ x, Decision (P x)} (l : list A) x :
  last (filter P l) = Some x ↔
  ∃ i, l !! i = Some x ∧ P x ∧ ∀ j y, i < j → l !! j = Some y → ¬ P y.
Proof.
  induction l as [|y l IH] using rev_ind.
  - split; [done|]. by intros (i & ? & _).
  - rewrite filter_app, filter_cons, filter_nil. destruct (decide (P y)) as [Hy|Hy].
    + rewrite last_snoc. split.
      * intros [= ->]. exists (length l). split_and!; [|done|].
        -- by rewrite lookup_app_r, Nat.sub_diag.
        -- intros j z Hj Hz. apply lookup_lt_Some in Hz.
           rewrite length_app in Hz. simpl in Hz. lia.
      * intros (i & Hi & Hx & Hlater).
        destruct (decide (i = length l)) as [->|Hne].
        -- rewrite lookup_app_r, Nat.sub_diag in Hi by done. by simplify_eq/=.
        -- assert (i < length l) as Hlt.
           { apply lookup_lt_Some in Hi. rewrite length_app in Hi. simpl in Hi. lia. }
           exfalso. apply (Hlater (length l) y Hlt); [|done].
           by rewrite lookup_app_r, Nat.sub_diag.
    + rewrite app_nil_r, IH. split.
      * intros (i & Hi & Hx & Hlater). exists i. split_and!; [|done|].
        -- by apply lookup_app_l_Some.
        -- intros j z Hj Hz.
           destruct (decide (j < length l)) as [Hlt|Hge].
           ++ rewrite lookup_app_l in Hz by done. by eapply Hlater.
           ++ rewrite lookup_app_r in Hz by lia.
              apply list_lookup_singleton_Some in Hz as [_ <-]. done.
      * intros (i & Hi & Hx & Hlater).
        assert (i < length l) as Hlt.
        { destruct (decide (i < length l)); [done|].
          rewrite lookup_app_r in Hi by lia.
          apply list_lookup_singleton_Some in Hi as [_ <-]. done. }
        rewrite lookup_app_l in Hi by done.
        exists i. split_and!; [done..|].
        intros j z Hj Hz. apply (Hlater j z Hj). by apply lookup_app_l_Some.
Qed.

Lemma last_filter_None (P : A → Prop) `{!∀ x, Decision (P x)} (l : list A) :
  last (filter P l) = None ↔ Forall (λ y, ¬ P y) l.
Proof.
  rewrite last_None. induction l as [|y l IH].
  - split; [by constructor|done].
  - rewrite filter_cons, Forall_cons. destruct (decide (P y)).
    + split; [done|]. by intros [? _].
    + rewrite IH. tauto.
Qed.

(** A loop of conditional writes into a dictionary: the value under a key
    is that of the last element writing to it. *)
Lemma lookup_foldl_insert (f : A → option (K * V)) l (m : gmap K V) k :
  foldl (λ m x, apply_write m (f x)) m l !! k
  = match last (filter (λ x, fst <$> f x = Some k) l) with
    | Some x => snd <$> f x
    | None => m !! k
    end.
Proof.
  induction l as [|x l IH] using rev_ind; [done|].
  rewrite foldl_snoc, filter_app, filter_cons, filter_nil. unfold apply_write at 1.
  destruct (decide (fst <$> f x = Some k)) as [Hk|Hk].
  - rewrite last_snoc. destruct (f x) as [[k' v]|]; simplify_eq/=.
    by rewrite lookup_insert_eq.
  - rewrite app_nil_r, <- IH. destruct (f x) as [[k' v]|]; [|done].
    apply lookup_insert_ne. simpl in *. congruence.
Qed.

End LastWrite.

(** ** The index *)

Section IndexLemmas.
Import Js.

Lemma key_of_tagged tkv item : key_of (tagged tkv item) = key_of item.
Proof. unfold key_of, tagged. by rewrite get_set. Qed.

Lemma get_tagged tkv item : Obj.get (tagged tkv item) "tkv" = Str tkv.
Proof. unfold tagged. by rewrite get_set, decide_True. Qed.

Lemma lookup_array_of ci (its : list Obj.t) i :
  Nsi.array_of ci its !! i = (λ _, (ci, i)) <$> its !! i.
Proof. apply list_lookup_imap. Qed.

Lemma elem_of_array_of ci (its : list Obj.t) r :
  r ∈ Nsi.array_of ci its ↔ r.1 = ci ∧ r.2 < length its.
Proof.
  rewrite list_elem_of_lookup. setoid_rewrite lookup_array_of. split.
  - intros (i & Hi). destruct (its !! i) eqn:Hit; simplify_eq/=.
    split; [done|]. by eapply lookup_lt_Some.
  - destruct r as [ci' ii]. simpl. intros [-> Hlt]. exists ii.
    apply lookup_lt_is_Some in Hlt as [it ->]. done.
Qed.

Lemma array_of_nodup ci (its : list Obj.t) : NoDup (Nsi.array_of ci its).
Proof.
  apply NoDup_alt. intros i j r. rewrite !lookup_array_of.
  intros Hi Hj. destruct (its !! i), (its !! j); simplify_eq/=. done.
Qed.

Lemma foldl_id_write_ext (h h' : Nsi.heap) rs (m : gmap string ref) :
  (∀ r, r ∈ rs → h r = h' r) →
  foldl (λ m r, apply_write m (id_write h r)) m rs
  = foldl (λ m r, apply_write m (id_write h' r)) m rs.
Proof.
  revert m. induction rs as [|r rs IH]; intros m Hext; [done|].
  cbn [foldl].
  assert (id_write h r = id_write h' r) as ->.
  { unfold id_write. by rewrite (Hext r) by left. }
  apply IH. intros r' ?. apply Hext. by right.
Qed.

(** The inner loop: every item of the array is tagged in place and filed
    under its id. *)
Lemma foldl_visit_item tkv rs h ix :
  NoDup rs →
  let s := foldl (visit_item tkv) (h, ix) rs in
  (∀ r, s.1 r = if decide (r ∈ rs) then tagged tkv <$> h r else h r)
  ∧ Index.path s.2 = Index.path ix
  ∧ Index.meta s.2 = Index.meta ix
  ∧ Index.id s.2
    = foldl (λ m r, apply_write m (id_write h r)) (Index.id ix) rs.
Proof.
  revert h ix. induction rs as [|r rs IH]; intros h ix Hnd.
  { by split_and!. }
  apply NoDup_cons in Hnd as [Hr Hrs]. cbn [foldl].
  assert (∀ (h0 : Nsi.heap) r',
            h0 r = tagged tkv <$> h r → (∀ r', r' ≠ r → h0 r' = h r') →
            (if decide (r' ∈ rs) then tagged tkv <$> h0 r' else h0 r')
            = (if decide (r' ∈ r :: rs) then tagged tkv <$> h r' else h r'))
    as Hheap.
  { intros h0 r' Hat Hoff. destruct (decide (r' = r)) as [->|Hne].
    - rewrite decide_False by done. by rewrite decide_True by left.
    - rewrite Hoff by done. destruct (decide (r' ∈ rs)).
      + by rewrite decide_True by by right.
      + rewrite decide_False; [done|]. by intros [?|?]%elem_of_cons. }
  destruct (h r) as [item|] eqn:Hitem.
  - set (ix' := {| Index.path := Index.path ix;
                   Index.id := apply_write (Index.id ix) (id_write h r);
                   Index.id_proto :=
                     Index.assign_proto (Nsi.write r (tagged tkv item) h) ix
                       (key_of item) r;
                   Index.meta := Index.meta ix |}).
    replace (visit_item tkv (h, ix) r)
      with (Nsi.write r (tagged tkv item) h, ix').
    2:{ unfold ix', visit_item, id_write. simpl. rewrite Hitem. simpl.
        fold (tagged tkv item). fold (key_of (tagged tkv item)).
        by rewrite key_of_tagged. }
    destruct (IH (Nsi.write r (tagged tkv item) h) ix' Hrs)
      as (Hh & Hp & Hm & Hid).
    split_and!; [|done..|].
    + intros r'. rewrite Hh. apply Hheap.
      * unfold Nsi.write. by rewrite decide_True.
      * intros r'' ?. unfold Nsi.write. by rewrite decide_False.
    + rewrite Hid. simpl. apply foldl_id_write_ext.
      intros r' Hr'. unfold Nsi.write. rewrite decide_False; [done|].
      by intros ->.
  - replace (visit_item tkv (h, ix) r) with (h, ix).
    2:{ unfold visit_item. simpl. by rewrite Hitem. }
    destruct (IH h ix Hrs) as (Hh & Hp & Hm & Hid).
    split_and!; [|done..|].
    + intros r'. rewrite Hh. apply Hheap; [by rewrite Hitem|done].
    + rewrite Hid. unfold id_write at 3. by rewrite Hitem.
Qed.

Section Build.
Variable cats : list (string * Nsi.category).
Variable meta : val.
Hypothesis cats_nodup : NoDup cats.*1.

Lemma source_array n tkv c its j :
  cats !! n = Some (tkv, c) → Nsi.items c = Some its →
  source cats (n, j) = (λ it, (tkv, it)) <$> its !! j.
Proof.
  intros Hn Hits. unfold source. simpl. rewrite Hn. simpl. rewrite Hits.
  simpl. by destruct (its !! j).
Qed.

Lemma source_no_array n tkv c j :
  cats !! n = Some (tkv, c) → Nsi.items c = None → source cats (n, j) = None.
Proof. intros Hn Hits. unfold source. simpl. rewrite Hn. simpl. by rewrite Hits. Qed.

Lemma heap_of_source r : Nsi.heap_of cats r = snd <$> source cats r.
Proof.
  unfold Nsi.heap_of, source. destruct (cats !! r.1) as [e|]; [|done]. simpl.
  destruct (Nsi.items e.2) as [its|]; [|done]. simpl.
  by destruct (its !! r.2).
Qed.

Lemma cats_key_inj ci ci' tkv c c' :
  cats !! ci = Some (tkv, c) → cats !! ci' = Some (tkv, c') → ci = ci'.
Proof.
  intros Hci Hci'. eapply NoDup_lookup; [apply cats_nodup|..];
    rewrite list_lookup_fmap.
  - by rewrite Hci.
  - by rewrite Hci'.
Qed.

Lemma index_inv_init :
  index_inv cats meta 0
    (Nsi.heap_of cats,
     {| Index.path := ∅; Index.id := ∅; Index.id_proto := None;
        Index.meta := meta |}).
Proof.
  split; cbn [fst snd Index.path Index.id Index.meta].
  - intros r. rewrite decide_False by lia. apply heap_of_source.
  - intros tkv arr. rewrite lookup_empty. split; [done|].
    intros (ci & c & its & ? & _). lia.
  - intros k r. rewrite lookup_empty. split; [done|]. intros [? _]. lia.
  - intros k r ?. lia.
  - done.
Qed.

Lemma index_inv_skip n tkv c s :
  cats !! n = Some (tkv, c) → Nsi.items c = None →
  index_inv cats meta n s → index_inv cats meta (S n) s.
Proof.
  intros Hn Hits [Hh Hp Hid Hfiled Hm].
  assert (∀ r k, source_key cats r = Some k → r.1 ≠ n) as Hkey.
  { intros [ci j] k Hk Heq. simpl in Heq. subst ci. unfold source_key in Hk.
    by rewrite (source_no_array _ _ _ _ Hn Hits) in Hk. }
  split; [| | | |done].
  - intros r. rewrite Hh. destruct (decide (r.1 = n)) as [Heq|Hne].
    + destruct r as [ci j]. simpl in Heq. subst ci. simpl.
      rewrite decide_False, decide_True by lia.
      by rewrite (source_no_array _ _ _ _ Hn Hits).
    + destruct (decide (r.1 < n)).
      * by rewrite decide_True by lia.
      * by rewrite decide_False by lia.
  - intros tkv' arr. rewrite Hp. split.
    + intros (ci & c' & its & ? & ?). exists ci, c', its. split; [lia|done].
    + intros (ci & c' & its & Hlt & Hci & Hits' & ->).
      exists ci, c', its. split_and!; try done.
      destruct (decide (ci = n)) as [->|]; [|lia]. congruence.
  - intros k r. rewrite Hid. split.
    + intros (Hlt & Hk & Hlast). split_and!; [lia|done|].
      intros r' Hr' Hk'. apply Hlast; [|done].
      apply Hkey in Hk'. lia.
    + intros (Hlt & Hk & Hlast). split_and!; [|done|].
      * apply Hkey in Hk. lia.
      * intros r' Hr' Hk'. apply Hlast; [lia|done].
  - intros k r Hlt Hk. apply (Hfiled k r); [|done]. apply Hkey in Hk. lia.
Qed.

Lemma index_inv_array n tkv c its s :
  cats !! n = Some (tkv, c) → Nsi.items c = Some its →
  index_inv cats meta n s →
  index_inv cats meta (S n) (visit_category s (n, (tkv, c))).
Proof.
  intros Hn Hits [Hh Hp Hid Hfiled Hm].
  unfold visit_category. rewrite Hits.
  set (arr := Nsi.array_of n its).
  set (ix1 := {| Index.path := <[tkv := arr]> (Index.path s.2);
                 Index.id := Index.id s.2;
                 Index.id_proto := Index.id_proto s.2;
                 Index.meta := Index.meta s.2 |}).
  destruct (foldl_visit_item tkv arr s.1 ix1 (array_of_nodup n its))
    as (Hh' & Hp' & Hm' & Hid').
  set (s' := foldl (visit_item tkv) (s.1, ix1) arr) in *.
  (* the items of this category *)
  assert (∀ j, source cats (n, j) = (λ it, (tkv, it)) <$> its !! j) as Hsrc.
  { intros j. by apply source_array with c. }
  assert (∀ r k, r.1 = n → source_key cats r = Some k →
            arr !! r.2 = Some r ∧ fst <$> id_write s.1 r = Some k) as Hmine.
  { intros [ci j] k Heq Hk. simpl in Heq. subst ci.
    unfold source_key in Hk. rewrite Hsrc in Hk. simpl.
    destruct (its !! j) as [it|] eqn:Hj; [|done]. simpl in Hk. split.
    - unfold arr. rewrite lookup_array_of, Hj. done.
    - unfold id_write. rewrite Hh, decide_False by (simpl; lia).
      rewrite Hsrc, Hj. simpl. congruence. }
  assert (∀ i r k, arr !! i = Some r → fst <$> id_write s.1 r = Some k →
            r = (n, i) ∧ source_key cats r = Some k
            ∧ snd <$> id_write s.1 r = Some r) as Htheirs.
  { intros i r k Hi Hk. unfold arr in Hi. rewrite lookup_array_of in Hi.
    destruct (its !! i) as [it|] eqn:Hit; [|done]. simpl in Hi.
    injection Hi as <-. split; [done|].
    unfold id_write in *. rewrite Hh, decide_False in Hk |- * by (simpl; lia).
    unfold source_key. rewrite Hsrc, Hit in *. simpl in *. by simplify_eq. }
  split; [| | | |by rewrite Hm'].
  - (* heap *)
    intros r. rewrite Hh', Hh. unfold arr.
    destruct r as [ci j]. cbn [fst snd].
    destruct (decide (ci = n)) as [->|Hne].
    + rewrite !(decide_False (P := n < n)), (decide_True (P := n < S n)) by lia.
      rewrite Hsrc. destruct (its !! j) as [it|] eqn:Hj.
      * rewrite decide_True; [done|]. apply elem_of_array_of. simpl.
        split; [done|]. by eapply lookup_lt_Some.
      * rewrite decide_False; [done|]. rewrite elem_of_array_of. simpl.
        apply lookup_ge_None in Hj. lia.
    + rewrite (decide_False (P := (ci, j) ∈ _))
        by (rewrite elem_of_array_of; simpl; lia).
      destruct (decide (ci < n)).
      * by rewrite decide_True by lia.
      * by rewrite decide_False by lia.
  - (* path *)
    intros tkv' arr'. rewrite Hp'. unfold ix1. cbn [Index.path].
    destruct (decide (tkv = tkv')) as [<-|Hne].
    + rewrite lookup_insert_eq. split.
      * intros [= <-]. exists n, c, its. split; [lia|done].
      * intros (ci & c' & its' & _ & Hci & Hits' & ->).
        assert (ci = n) as -> by by eapply cats_key_inj. by simplify_eq.
    + rewrite lookup_insert_ne, Hp by done. split.
      * intros (ci & c' & its' & ? & ?). exists ci, c', its'. split; [lia|done].
      * intros (ci & c' & its' & Hlt & Hci & Hits' & ->).
        exists ci, c', its'. split_and!; try done.
        destruct (decide (ci = n)) as [->|]; [|lia]. congruence.
  - (* id *)
    intros k r. rewrite Hid'. unfold ix1. cbn [Index.id].
    rewrite lookup_foldl_insert.
    destruct (last (filter (λ x, fst <$> id_write s.1 x = Some k) arr))
      as [x|] eqn:Hlast.
    + apply last_filter_Some in Hlast as (i & Hi & Hx & Hlater).
      destruct (Htheirs i x k Hi Hx) as (-> & Hkx & ->).
      split.
      * intros [= <-]. split_and!; [simpl; lia|done|].
        intros [ci j] Hlt Hk. simpl in Hlt. unfold not_after. simpl.
        destruct (decide (ci = n)) as [->|]; [|lia]. right. split; [done|].
        destruct (Hmine (n, j) k eq_refl Hk) as [Hj Hkj]. simpl in Hj.
        destruct (decide (j ≤ i)); [done|].
        exfalso. apply (Hlater j (n, j)); [lia|done..].
      * intros (Hlt & Hk & Hlast'). destruct r as [ci j]. simpl in Hlt.
        pose proof (Hlast' (n, i) ltac:(simpl; lia) Hkx) as Hvis.
        unfold not_after in Hvis. simpl in Hvis.
        assert (ci = n) as -> by lia.
        destruct (Hmine (n, j) k eq_refl Hk) as [Hj Hkj]. simpl in Hj.
        destruct (decide (i < j)) as [Hij|Hij].
        { exfalso. by apply (Hlater j (n, j)). }
        do 2 f_equal. lia.
    + apply last_filter_None in Hlast. rewrite Forall_forall in Hlast.
      assert (∀ r', source_key cats r' = Some k → r'.1 ≠ n) as Hnone.
      { intros r' Hk Heq. destruct (Hmine r' k Heq Hk) as [Hj Hkj].
        apply (Hlast r'); [|done]. by eapply list_elem_of_lookup_2. }
      rewrite Hid. split.
      * intros (Hlt & Hk & Hlast'). split_and!; [lia|done|].
        intros r' Hr' Hk'. apply Hlast'; [|done].
        apply Hnone in Hk'. lia.
      * intros (Hlt & Hk & Hlast'). split_and!; [|done|].
        -- apply Hnone in Hk. lia.
        -- intros r' Hr' Hk'. apply Hlast'; [lia|done].
  - (* every item is filed *)
    intros k r Hlt Hk. rewrite Hid'. unfold ix1. cbn [Index.id].
    rewrite lookup_foldl_insert.
    destruct (last (filter (λ x, fst <$> id_write s.1 x = Some k) arr))
      as [x|] eqn:Hlast.
    + apply last_filter_Some in Hlast as (i & Hi & Hx & _).
      destruct (Htheirs i x k Hi Hx) as (_ & _ & ->). done.
    + apply last_filter_None in Hlast. rewrite Forall_forall in Hlast.
      apply (Hfiled k r); [|done].
      destruct (decide (r.1 = n)) as [Heq|]; [|lia].
      destruct (Hmine r k Heq Hk) as [Hj Hkj].
      exfalso. apply (Hlast r); [|done]. by eapply list_elem_of_lookup_2.
Qed.

Lemma index_inv_step n e s :
  cats !! n = Some e →
  index_inv cats meta n s →
  index_inv cats meta (S n) (visit_category s (n, e)).
Proof.
  destruct e as [tkv c]. intros Hn Hs.
  destruct (Nsi.items c) as [its|] eqn:Hits.
  - by eapply index_inv_array.
  - unfold visit_category. rewrite Hits. by eapply index_inv_skip.
Qed.

Lemma index_inv_prefix n :
  n ≤ length cats →
  index_inv cats meta n
    (foldl visit_category
       (Nsi.heap_of cats,
        {| Index.path := ∅; Index.id := ∅; Index.id_proto := None;
        Index.meta := meta |})
       (take n (imap (λ ci e, (ci, e)) cats))).
Proof.
  induction n as [|n IH]; intros Hn.
  - apply index_inv_init.
  - destruct (lookup_lt_is_Some_2 cats n) as [e He]; [lia|].
    erewrite take_S_r by (rewrite list_lookup_imap, He; done).
    rewrite foldl_snoc. apply index_inv_step; [done|]. apply IH. lia.
Qed.

(** The cache [fetchUrl] builds satisfies the invariant for all
    categories. *)
Lemma build_index_inv json :
  Nsi.nsi json = Some cats → Nsi._meta json = meta →
  ∃ s, build_index json = Some s ∧ index_inv cats meta (length cats) s.
Proof.
  intros Hcats Hmeta. unfold build_index. rewrite Hcats, Hmeta. simpl.
  eexists. split; [done|].
  rewrite <- (firstn_all (imap _ cats)), length_imap.
  by apply index_inv_prefix.
Qed.

End Build.

Lemma source_inv cats r tkv it :
  source cats r = Some (tkv, it) →
  ∃ c its, cats !! r.1 = Some (tkv, c) ∧ Nsi.items c = Some its
           ∧ its !! r.2 = Some it.
Proof.
  unfold source. destruct (cats !! r.1) as [[tkv' c]|]; [|done]. simpl.
  destruct (Nsi.items c) as [its|] eqn:Hits; [|done]. simpl.
  destruct (its !! r.2) as [it'|] eqn:Hit; [|done]. simpl.
  intros [= <- <-]. by exists c, its.
Qed.

End IndexLemmas.

Section IndexClaims.
Import Js.


Lemma example_cats_nodup : NoDup example_cats.*1.
Proof. compute_done. Defined.


(** The example of the specification: only [amenity/cafe/Foo] is in
    [byPath], and [byId["a1"].tkv] is that key. *)
Example build_index_example :
  ∃ h ix,
    build_index example_json = Some (h, ix)
    ∧ dom (Index.path ix) = {["amenity/cafe/Foo"]}
    ∧ Index.id ix !! "a1" = Some (0, 0)
    ∧ (λ item, Obj.get item "tkv") <$> h (0, 0)
      = Some (Str "amenity/cafe/Foo").
Proof. eexists _, _. split; [reflexivity|]. by vm_compute. Qed.


Lemma shared_cats_nodup : NoDup shared_cats.*1.
Proof. compute_done. Defined.


(** Two items under one id: [byId] keeps the later one, and both are
    tagged in place in their own [byPath] list. *)
Example build_index_duplicate_id :
  ∃ h ix,
    build_index shared_json = Some (h, ix)
    ∧ Index.id ix !! "d" = Some (1, 1)
    ∧ Index.id ix !! "z" = Some (1, 0)
    ∧ Index.path ix !! "shop/a/X" = Some [(0, 0)]
    ∧ Index.path ix !! "shop/b/Y" = Some [(1, 0); (1, 1)]
    ∧ (λ item, Obj.get item "tkv") <$> h (1, 1) = Some (Str "shop/b/Y")
    ∧ (λ item, Obj.get item "tkv") <$> h (0, 0) = Some (Str "shop/a/X").
Proof. eexists _, _. split; [reflexivity|]. split_and!; by vm_compute. Qed.

End IndexClaims.

(** ** The icon table *)

Section Icons.
Import Js.

Lemma visit_tag_write icons tag :
  visit_tag icons tag = apply_write icons (tag_write tag).
Proof.
  unfold visit_tag, tag_write, contributes, composite, apply_write.
  destruct (truthy (Taginfo.icon_url tag)), (truthy (Taginfo.key tag));
    try done.
  cbn [negb orb andb]. case_decide as Hkv.
  - by rewrite bool_decide_true.
  - by rewrite bool_decide_false.
Qed.

Lemma tag_write_key tag kv :
  fst <$> tag_write tag = Some kv
  ↔ (contributes tag = true ∧ composite tag = kv) ∧ kv ≠ "__proto__".
Proof.
  unfold tag_write. destruct (contributes tag); simpl.
  - case_bool_decide as Hkv; simpl.
    + split; [done|]. intros [[_ <-] ?]. done.
    + split; [intros [= <-]; done|by intros [[_ ->] _]].
  - split; [done|by intros [[? _] _]].
Qed.

Lemma foldl_visit_tag tags icons kv :
  foldl visit_tag icons tags !! kv
  = if decide (kv = "__proto__") then icons !! kv
    else match last (filter (λ tag, contributes tag = true
                                    ∧ composite tag = kv) tags) with
         | Some tag => Some (Taginfo.icon_url tag)
         | None => icons !! kv
         end.
Proof.
  assert (foldl visit_tag icons tags
          = foldl (λ m x, apply_write m (tag_write x)) icons tags) as ->.
  { revert icons. induction tags as [|tag tags IH]; intros icons; [done|].
    cbn [foldl]. by rewrite visit_tag_write, IH. }
  rewrite lookup_foldl_insert. case_decide as Hkv.
  - rewrite (list_filter_iff _ (λ _, False)).
    2:{ intros tag. rewrite tag_write_key. tauto. }
    assert (filter (λ _ : Taginfo.tag, False) tags = []) as ->; [|done].
    induction tags as [|tag tags IH]; [done|].
    by rewrite filter_cons, decide_False by tauto.
  - rewrite (list_filter_iff _ (λ tag, contributes tag = true ∧ composite tag = kv))
      by (intros; rewrite tag_write_key; tauto).
    destruct (last _) as [tag|] eqn:Hlast; [|done].
    apply last_Some_elem_of, list_elem_of_filter in Hlast as [[Hc <-] _].
    unfold tag_write. by rewrite Hc, bool_decide_false.
Qed.

(** C6 as stated fails: a tag with the key [__proto__], an icon URL and
    no value has a non-empty icon URL and a non-empty key, and enters no
    table: [icons["__proto__"] = url] stores nothing. *)
Lemma icons_lose_proto_key :
  let tag := {| Taginfo.key := Str "__proto__"; Taginfo.value := Undefined;
                Taginfo.icon_url := Str "u" |} in
  truthy (Taginfo.icon_url tag) = true
  ∧ truthy (Taginfo.key tag) = true
  ∧ composite tag = "__proto__"
  ∧ build_icons {| Taginfo.tags := Some [tag] |} = Some ∅
  ∧ (∀ icons, build_icons {| Taginfo.tags := Some [tag] |} = Some icons →
              icons !! composite tag = None).
Proof.
  split_and!; try done. intros icons [= <-]. done.
Qed.

(** C6, amended: a tag enters the icon table exactly when it has a
    non-empty icon URL and a non-empty key and its composite key is not
    [__proto__]; it is filed under [key], or [key/value] when it has a
    value; and of the tags with one composite key the last in the array
    wins.  Nothing is filed under [__proto__]. *)
Theorem icons_last_tag_wins json tags :
  Taginfo.tags json = Some tags →
  ∃ icons,
    build_icons json = Some icons
    ∧ (∀ kv, kv ≠ "__proto__" →
             icons !! kv
             = Taginfo.icon_url
               <$> last (filter (λ tag, contributes tag = true
                                        ∧ composite tag = kv) tags))
    ∧ icons !! "__proto__" = None
    ∧ (∀ kv, is_Some (icons !! kv) ↔
             kv ≠ "__proto__"
             ∧ ∃ tag, tag ∈ tags
                      ∧ truthy (Taginfo.icon_url tag) = true
                      ∧ truthy (Taginfo.key tag) = true
                      ∧ composite tag = kv).
Proof.
  intros Htags. unfold build_icons. rewrite Htags. simpl.
  eexists. split; [done|].
  assert (∀ kv, kv ≠ "__proto__" →
                foldl visit_tag ∅ tags !! kv
                = Taginfo.icon_url
                  <$> last (filter (λ tag, contributes tag = true
                                           ∧ composite tag = kv) tags)) as Hlast.
  { intros kv Hkv. rewrite foldl_visit_tag, decide_False by done.
    by destruct (last _). }
  assert (foldl visit_tag ∅ tags !! "__proto__" = None) as Hproto.
  { by rewrite foldl_visit_tag, decide_True. }
  split_and!; [done..|]. intros kv.
  destruct (decide (kv = "__proto__")) as [->|Hkv].
  { rewrite Hproto. split; [by intros [? ?]|by intros [? _]]. }
  rewrite Hlast, fmap_is_Some by done. split.
  - intros [tag Htag]. split; [done|]. exists tag.
    apply last_Some_elem_of, list_elem_of_filter in Htag as [[Hc ?] ?].
    by apply andb_true_iff in Hc as [? ?].
  - intros (_ & tag & Hin & Hu & Hk & Hcomp).
    destruct (last _) as [tag'|] eqn:Hnone; [done|].
    apply last_None in Hnone.
    assert (tag ∈ filter (λ tag, contributes tag = true ∧ composite tag = kv) tags)
      as Hf.
    { apply list_elem_of_filter. unfold contributes. by rewrite Hu, Hk. }
    rewrite Hnone in Hf. by apply elem_of_nil in Hf.
Qed.

Lemma icons_last_tag_wins_witness :
  ∃ icons,
    build_icons {| Taginfo.tags := Some example_tags |} = Some icons
    ∧ (∀ kv, kv ≠ "__proto__" →
             icons !! kv
             = Taginfo.icon_url
               <$> last (filter (λ tag, contributes tag = true
                                        ∧ composite tag = kv) example_tags))
    ∧ icons !! "__proto__" = None
    ∧ (∀ kv, is_Some (icons !! kv) ↔
             kv ≠ "__proto__"
             ∧ ∃ tag, tag ∈ example_tags
                      ∧ truthy (Taginfo.icon_url tag) = true
                      ∧ truthy (Taginfo.key tag) = true
                      ∧ composite tag = kv).
Proof.
  apply (icons_last_tag_wins {| Taginfo.tags := Some example_tags |}).
  reflexivity.
Defined.

(** The example of the specification; the tag without a key is dropped. *)
Example build_icons_example :
  build_icons {| Taginfo.tags := Some example_tags |}
  = Some {["shop" := Str "u1"; "shop/bakery" := Str "u2"]}.
Proof. by vm_compute. Qed.

End Icons.

(** ** The loaders *)

Section Loaders.
Context {J D : Type} (process : J → option D) (resp : response J).

Lemma step_failed st ev :
  failed resp →
  Loader.data (Loader.step process resp st ev) = Loader.data st
  ∧ Loader.loading (Loader.step process resp st ev) = Loader.loading st.
Proof.
  intros [-> | ->]; destruct ev; simpl; try done;
    by destruct (Loader.started st && negb (Loader.settled st)).
Qed.

Lemma foldl_step_failed st evs :
  failed resp →
  Loader.data (foldl (Loader.step process resp) st evs) = Loader.data st
  ∧ Loader.loading (foldl (Loader.step process resp) st evs) = Loader.loading st.
Proof.
  intros Hf. revert st. induction evs as [|ev evs IH]; intros st; [done|].
  cbn [foldl]. destruct (IH (Loader.step process resp st ev)) as [-> ->].
  by apply step_failed.
Qed.

(** A failed request leaves the loader as it started, whatever happens
    afterwards. *)
Lemma run_failed d evs :
  failed resp →
  Loader.data (Loader.run process resp d evs) = d
  ∧ Loader.loading (Loader.run process resp d evs) = true.
Proof. intros Hf. unfold Loader.run. by apply foldl_step_failed. Qed.

Lemma run_loaded d evs :
  Loader.loading (Loader.run process resp d evs) = false →
  ∃ json, resp = Parsed json.
Proof.
  intros Hl. destruct resp as [| |json] eqn:Hresp; [| |by exists json].
  - destruct (run_failed d evs) as [_ Ht]; [by left|]. congruence.
  - destruct (run_failed d evs) as [_ Ht]; [by right|]. congruence.
Qed.

(** The successful path: after the first render the request settles and
    both setters run. *)
Lemma run_parsed json d d' :
  resp = Parsed json → process json = Some d' →
  Loader.run process resp d [Loader.Render; Loader.Settle]
  = {| Loader.data := d'; Loader.loading := false;
       Loader.started := true; Loader.settled := true |}.
Proof. intros -> Hp. unfold Loader.run. simpl. by rewrite Hp. Qed.

End Loaders.

Section LoaderClaims.

(** C8: when the fetch or the parse fails, none of the three loaders ever
    updates its state: [loading] stays [true] and [data] keeps its initial
    value, whatever happens later; [loading] is [false] only after a
    successful parse. *)
Theorem loaders_stay_loading_on_failure {J} (rf : response J) (empty : J)
    (rn : response Nsi.json) (rt : response Taginfo.json)
    (evs : list Loader.event) :
  failed rf → failed rn → failed rt →
  (Loader.loading (useFetch rf empty evs) = true
   ∧ Loader.data (useFetch rf empty evs) = empty)
  ∧ (Loader.loading (useNsi rn evs) = true
     ∧ Loader.data (useNsi rn evs) = None)
  ∧ (Loader.loading (useTaginfo rt evs) = true
     ∧ Loader.data (useTaginfo rt evs) = ∅)
  ∧ (∀ (r : response J) evs',
       Loader.loading (useFetch r empty evs') = false → ∃ json, r = Parsed json)
  ∧ (∀ r evs', Loader.loading (useNsi r evs') = false → ∃ json, r = Parsed json)
  ∧ (∀ r evs',
       Loader.loading (useTaginfo r evs') = false → ∃ json, r = Parsed json).
Proof.
  intros Hf Hn Ht. unfold useFetch, useNsi, useTaginfo.
  split_and!; try (by apply run_failed); intros r evs'; apply run_loaded.
Qed.

Lemma loaders_stay_loading_on_failure_witness :
  let evs := [Loader.Render; Loader.Settle; Loader.Render] in
  (Loader.loading (useFetch NetworkError ([] : list nat) evs) = true
   ∧ Loader.data (useFetch NetworkError ([] : list nat) evs) = [])
  ∧ (Loader.loading (useNsi ParseError evs) = true
     ∧ Loader.data (useNsi ParseError evs) = None)
  ∧ (Loader.loading (useTaginfo NetworkError evs) = true
     ∧ Loader.data (useTaginfo NetworkError evs) = ∅)
  ∧ (∀ (r : response (list nat)) evs',
       Loader.loading (useFetch r [] evs') = false → ∃ json, r = Parsed json)
  ∧ (∀ r evs', Loader.loading (useNsi r evs') = false → ∃ json, r = Parsed json)
  ∧ (∀ r evs',
       Loader.loading (useTaginfo r evs') = false → ∃ json, r = Parsed json).
Proof.
  apply (loaders_stay_loading_on_failure NetworkError [] ParseError NetworkError);
    [by left | by right | by left].
Defined.

End LoaderClaims.

(** * Further properties *)

(** ** [stringQs] segment by segment *)

Section Segments.
Import Js.

Lemma stringQs_step_pair o seg :
  stringQs_step (Some o) seg
  = match seg_pair seg with
    | Some kv => v' ← decodeURIComponent kv.2; Some (Obj.assign kv.1 (Str v') o)
    | None => Some o
    end.
Proof.
  unfold stringQs_step, seg_pair. simpl.
  by destruct (split "=" seg) as [|k [|v [|??]]].
Qed.

Lemma stringQs_segments_unfold raw :
  stringQs raw = foldl stringQs_step (Some []) (segments raw).
Proof. done. Qed.

Lemma foldl_stringQs_step_snoc o segs seg q :
  foldl stringQs_step (Some o) (segs ++ [seg]) = Some q →
  ∃ o', foldl stringQs_step (Some o) segs = Some o'
        ∧ stringQs_step (Some o') seg = Some q.
Proof.
  rewrite foldl_snoc.
  destruct (foldl stringQs_step (Some o) segs) as [o'|]; [|done]. eauto.
Qed.

Lemma foldl_stringQs_step_last o segs q k :
  k ≠ "__proto__" →
  foldl stringQs_step (Some o) segs = Some q →
  match last (filter (λ seg, fst <$> seg_pair seg = Some k) segs) with
  | Some seg => ∃ v v', seg_pair seg = Some (k, v)
                        ∧ decodeURIComponent v = Some v'
                        ∧ Obj.get q k = Str v' ∧ k ∈ q.*1
  | None => Obj.get q k = Obj.get o k ∧ (k ∈ q.*1 ↔ k ∈ o.*1)
  end.
Proof.
  intros Hproto. revert q.
  induction segs as [|seg segs IH] using rev_ind; intros q.
  { intros [= <-]. done. }
  intros (o' & Ho' & Hstep)%foldl_stringQs_step_snoc.
  specialize (IH _ Ho'). rewrite stringQs_step_pair in Hstep.
  rewrite filter_app, filter_cons, filter_nil.
  destruct (decide (fst <$> seg_pair seg = Some k)) as [Hk|Hk].
  - rewrite last_snoc. destruct (seg_pair seg) as [[k0 v]|]; [|done].
    simpl in Hk. injection Hk as ->. simpl in Hstep.
    destruct (decodeURIComponent v) as [v'|] eqn:Hv; [|done].
    injection Hstep as <-. exists v, v'. split_and!; [done..| |].
    + by rewrite get_assign, decide_True.
    + apply elem_of_keys_assign. by right.
  - rewrite app_nil_r.
    assert (Obj.get q k = Obj.get o' k ∧ (k ∈ q.*1 ↔ k ∈ o'.*1)) as [Hget Hin].
    { destruct (seg_pair seg) as [[k0 v]|]; [|by injection Hstep as <-].
      simpl in Hstep, Hk.
      destruct (decodeURIComponent v) as [v'|]; [|done].
      injection Hstep as <-. split.
      - rewrite get_assign, decide_False; [done|congruence|done].
      - rewrite elem_of_keys_assign. split; [|by left].
        intros [?|[-> _]]; [done|congruence]. }
    destruct (last _) as [seg'|].
    + destruct IH as (v & v' & ? & ? & ? & ?). exists v, v'.
      split_and!; [done..|congruence|by apply Hin].
    + destruct IH as [? ?]. split; [congruence|]. by rewrite Hin.
Qed.

(** No segment makes [__proto__] a property. *)
Lemma foldl_stringQs_step_proto o segs q :
  "__proto__" ∉ o.*1 →
  foldl stringQs_step (Some o) segs = Some q → "__proto__" ∉ q.*1.
Proof.
  revert o. induction segs as [|seg segs IH]; intros o Ho; cbn [foldl].
  { by intros [= <-]. }
  rewrite stringQs_step_pair.
  destruct (seg_pair seg) as [[k v]|]; simpl; [|by apply IH].
  destruct (decodeURIComponent v) as [v'|]; simpl.
  - apply IH. by apply keys_assign_proto.
  - by rewrite foldl_stringQs_step_None.
Qed.

Lemma stringQs_proto raw q : stringQs raw = Some q → "__proto__" ∉ q.*1.
Proof. apply foldl_stringQs_step_proto, not_elem_of_nil. Qed.

(** X1: of the segments [k=v] with one key other than [__proto__] the last
    decides the value (a segment that does not split in two on [=] counts
    for nothing), and a key with no such segment is no property of the
    result; [__proto__] never is one, whatever the segments. *)
Theorem stringQs_last_segment_wins raw q k :
  stringQs raw = Some q →
  ("__proto__" ∉ q.*1)
  ∧ (k ≠ "__proto__" →
     match last (filter (λ seg, fst <$> seg_pair seg = Some k)
                   (segments raw)) with
     | Some seg => ∃ v v', seg_pair seg = Some (k, v)
                           ∧ decodeURIComponent v = Some v'
                           ∧ Obj.get q k = Str v' ∧ k ∈ q.*1
     | None => k ∉ q.*1
     end).
Proof.
  intros Hq. split; [by eapply stringQs_proto|]. intros Hk.
  rewrite stringQs_segments_unfold in Hq.
  pose proof (foldl_stringQs_step_last _ _ _ k Hk Hq) as H.
  destruct (last _) as [seg|]; [done|].
  destruct H as [_ Hin]. rewrite Hin. apply not_elem_of_nil.
Qed.

Lemma stringQs_last_segment_wins_witness :
  ("__proto__" ∉ [("k", Str "b c")].*1)
  ∧ ("k" ≠ "__proto__" →
     match last (filter (λ seg, fst <$> seg_pair seg = Some "k")
                   (segments "?k=a&__proto__=x&junk&k=b%20c&v==")) with
     | Some seg => ∃ v v', seg_pair seg = Some ("k", v)
                           ∧ decodeURIComponent v = Some v'
                           ∧ Obj.get [("k", Str "b c")] "k" = Str v'
                           ∧ "k" ∈ [("k", Str "b c")].*1
     | None => "k" ∉ [("k", Str "b c")].*1
     end).
Proof.
  apply (stringQs_last_segment_wins "?k=a&__proto__=x&junk&k=b%20c&v=="
           [("k", Str "b c")] "k").
  reflexivity.
Defined.

Lemma foldl_stringQs_step_throws o segs :
  foldl stringQs_step (Some o) segs = None ↔
  ∃ seg k v, seg ∈ segs ∧ seg_pair seg = Some (k, v)
             ∧ decodeURIComponent v = None.
Proof.
  revert o. induction segs as [|seg segs IH]; intros o.
  { split; [done|]. by intros (? & ? & ? & ?%elem_of_nil & _). }
  cbn [foldl]. rewrite stringQs_step_pair.
  destruct (seg_pair seg) as [[k v]|] eqn:Hseg; simpl.
  - destruct (decodeURIComponent v) as [v'|] eqn:Hv; simpl.
    + rewrite IH. split.
      * intros (seg' & k' & v0 & ? & ?). exists seg', k', v0. split; [by right|done].
      * intros (seg' & k' & v0 & [->|?]%elem_of_cons & Hp & Hd).
        -- congruence.
        -- by exists seg', k', v0.
    + rewrite foldl_stringQs_step_None. split; [|done]. intros _.
      exists seg, k, v. split; [left|done].
  - rewrite IH. split.
    + intros (seg' & k' & v0 & ? & ?). exists seg', k', v0. split; [by right|done].
    + intros (seg' & k' & v0 & [->|?]%elem_of_cons & Hp & Hd).
      * congruence.
      * by exists seg', k', v0.
Qed.

(** X2: [stringQs] throws exactly when some segment [k=v] has a value that
    [decodeURIComponent] rejects; segments that do not split in two are
    never decoded and cannot make it throw. *)
Theorem stringQs_throws_iff raw :
  stringQs raw = None ↔
  ∃ seg k v, seg ∈ segments raw ∧ seg_pair seg = Some (k, v)
             ∧ decodeURIComponent v = None.
Proof. rewrite stringQs_segments_unfold. apply foldl_stringQs_step_throws. Qed.

Lemma stringQs_throws_iff_witness : stringQs "?k=ok&v=%E9" = None.
Proof.
  apply (proj2 (stringQs_throws_iff "?k=ok&v=%E9")).
  exists "v=%E9", "v", "%E9". split_and!; [|reflexivity..].
  right. left.
Defined.

Lemma set_nodup k v (o : Obj.t) : NoDup o.*1 → NoDup (Obj.set k v o).*1.
Proof.
  intros Ho. rewrite keys_set. case_decide; [done|].
  apply NoDup_app. split_and!; [done| |apply NoDup_singleton].
  intros k' ? ->%list_elem_of_singleton. done.
Qed.

Lemma assign_nodup k v (o : Obj.t) : NoDup o.*1 → NoDup (Obj.assign k v o).*1.
Proof.
  intros Ho. destruct (assign_cases k v o) as [->| ->]; [done|].
  by apply set_nodup.
Qed.

(** X3: the object [stringQs] returns has each key once, however often the
    key occurs in the query string. *)
Theorem stringQs_keys_nodup raw q : stringQs raw = Some q → NoDup q.*1.
Proof.
  rewrite stringQs_segments_unfold.
  assert (NoDup ([] : Obj.t).*1) as Hnil by constructor.
  revert Hnil. generalize ([] : Obj.t). generalize (segments raw).
  intros segs. induction segs as [|seg segs IH]; intros o Ho.
  { by intros [= <-]. }
  cbn [foldl]. rewrite stringQs_step_pair.
  destruct (seg_pair seg) as [[k v]|]; simpl; [|by apply IH].
  destruct (decodeURIComponent v) as [v'|]; simpl.
  - apply IH. by apply assign_nodup.
  - by rewrite foldl_stringQs_step_None.
Qed.

Lemma stringQs_keys_nodup_witness : NoDup [("a", Str "2"); ("b", Str "")].*1.
Proof. apply (stringQs_keys_nodup "a=1&b=&a=2"). reflexivity. Defined.

Lemma skip_leading_marks prefix s :
  marks prefix → skip_leading (prefix +:+ s) = skip_leading s.
Proof.
  unfold marks. induction prefix as [|c prefix IH]; [done|].
  intros [Hc Hp]%Forall_cons.
  change (String c prefix +:+ s) with (String c (prefix +:+ s)).
  cbn [skip_leading]. destruct Hc as [-> | ->]; simpl; by apply IH.
Qed.

(** X4: any run of [?] and [#] in front of a query string is ignored. *)
Theorem stringQs_ignores_marks prefix s :
  marks prefix → stringQs (prefix +:+ s) = stringQs s.
Proof. intros Hp. unfold stringQs. by rewrite skip_leading_marks. Qed.

Lemma stringQs_ignores_marks_witness :
  stringQs ("#?#" +:+ "k=v") = stringQs "k=v".
Proof.
  apply stringQs_ignores_marks. unfold marks.
  repeat (apply Forall_cons; split; [first [by left | by right]|]).
  apply Forall_nil_2.
Defined.


(** X5: the string [qsString] returns is made of unreserved characters and
    of [%], [=] and [&] only; it never holds [?], [#], a space or a
    non-ASCII byte, whatever the keys and values are. *)
Theorem qsString_alphabet obj (c : ascii) :
  c ∈ chars (qsString obj) →
  (uri_unreserved c = true ∨ c ∈ ["%"; "="; "&"]%char)
  ∧ (c ∉ ["?"; "#"; " "]%char) ∧ byte_in 0 127 c = true.
Proof.
  intros [Hc|[->| ->]]%qsString_chars; [|by compute_done..].
  unfold uri_char in Hc. apply orb_true_iff in Hc as [Hc|Hc].
  - split_and!; [by left| |by apply unreserved_ascii].
    destruct (unreserved_not_special c Hc) as (_ & _ & _ & ? & ?).
    intros [->|[->|[->|[]%elem_of_nil]%elem_of_cons]%elem_of_cons]%elem_of_cons;
      done.
  - apply Ascii.eqb_eq in Hc as ->. by compute_done.
Qed.

Lemma qsString_alphabet_witness :
  (uri_unreserved "2" = true ∨ "2"%char ∈ ["%"; "="; "&"]%char)
  ∧ ("2"%char ∉ ["?"; "#"; " "]%char) ∧ byte_in 0 127 "2" = true.
Proof.
  apply (qsString_alphabet [("a b", Str "?#")] "2"). compute_done.
Defined.

End Segments.

(** ** Encoding what was decoded *)

Section Reencode.
Import Js.

Lemma foldl_set_encoded (g : string → val) ks (acc : Obj.t) :
  NoDup ks → Forall unreserved ks → "__proto__" ∉ ks →
  (∀ k, k ∈ ks → k ∉ acc.*1) →
  foldl (λ o k, Obj.assign (encodeURIComponent k) (g k) o) acc ks
  = acc ++ ((λ k, (k, g k)) <$> ks).
Proof.
  revert acc. induction ks as [|k ks IH]; intros acc Hnd Hun Hproto Hacc.
  { simpl. by rewrite app_nil_r. }
  apply NoDup_cons in Hnd as [Hk Hks]. apply Forall_cons in Hun as [Huk Hun].
  apply not_elem_of_cons in Hproto as [Hkp Hproto].
  cbn [foldl]. rewrite encode_unreserved by done.
  rewrite assign_set by done.
  rewrite set_fresh by (apply Hacc; left). rewrite IH; [|done..|].
  - by rewrite <- app_assoc.
  - intros k' Hk'. rewrite fmap_app, not_elem_of_app. split.
    + apply Hacc. by right.
    + simpl. intros ->%list_elem_of_singleton. done.
Qed.

Lemma keys_nodup (o : Obj.t) : NoDup o.*1 → NoDup (Obj.keys o).
Proof. intros Ho. by rewrite keys_perm. Qed.

(** What [stringQs] makes of [qsString obj] when the keys need no
    escaping: the properties in the order of [Object.keys], the values as
    strings. *)
Lemma reread_plain (obj : Obj.t) :
  NoDup obj.*1 → Forall unreserved obj.*1 → "__proto__" ∉ obj.*1 →
  reread (entries obj)
  = (λ k, (k, Str (to_string (Obj.get obj k)))) <$> Obj.keys obj.
Proof.
  intros Hnd Hkeys Hproto. rewrite reread_entries.
  rewrite foldl_set_encoded; [done|by apply keys_nodup| | |].
  - rewrite Forall_forall in Hkeys |- *. intros k Hin. by apply Hkeys, elem_of_keys.
  - by rewrite elem_of_keys.
  - intros; apply not_elem_of_nil.
Qed.

End Reencode.

Section KeyOrder.
Import Js.

Lemma omap_index_pairs (o : Obj.t) :
  omap (λ kv, (., kv.1) <$> Obj.array_index kv.1) o = index_pairs o.*1.
Proof.
  unfold index_pairs. induction o as [|[k v] o IH]; [done|].
  rewrite fmap_cons. cbn [omap list_omap fst]. rewrite IH. done.
Qed.

Lemma keys_unfold (o : Obj.t) :
  Obj.keys o
  = (Obj.sort_index (index_pairs o.*1)).*2
    ++ filter (λ k, Obj.array_index k = None) o.*1.
Proof. unfold Obj.keys. by rewrite omap_index_pairs. Qed.

Lemma index_pairs_spec ks e :
  e ∈ index_pairs ks → Obj.array_index e.2 = Some e.1.
Proof.
  unfold index_pairs. intros (k & Hk & He)%list_elem_of_omap.
  destruct (Obj.array_index k) as [n|] eqn:Hn; [|done].
  injection He as <-. done.
Qed.

Lemma index_pairs_indices (l : list (N * string)) :
  Forall (λ e, Obj.array_index e.2 = Some e.1) l → index_pairs l.*2 = l.
Proof.
  unfold index_pairs. induction 1 as [|[n k] l Hk _ IH]; [done|].
  rewrite fmap_cons. cbn [omap list_omap snd]. simpl in Hk. rewrite Hk. simpl.
  by rewrite IH.
Qed.

Lemma index_pairs_others (ks : list string) :
  index_pairs (filter (λ k, Obj.array_index k = None) ks) = [].
Proof.
  unfold index_pairs. induction ks as [|k ks IH]; [done|].
  rewrite filter_cons. case_decide as Hk; [|done].
  cbn [omap list_omap]. rewrite Hk. done.
Qed.

Lemma filter_others_indices (l : list (N * string)) :
  Forall (λ e, Obj.array_index e.2 = Some e.1) l →
  filter (λ k, Obj.array_index k = None) l.*2 = [].
Proof.
  induction 1 as [|[n k] l Hk _ IH]; [done|].
  rewrite fmap_cons, filter_cons. simpl in *. rewrite decide_False by congruence.
  done.
Qed.

Lemma filter_others_idemp (ks : list string) :
  filter (λ k, Obj.array_index k = None) (filter (λ k, Obj.array_index k = None) ks)
  = filter (λ k, Obj.array_index k = None) ks.
Proof.
  induction ks as [|k ks IH]; [done|].
  rewrite filter_cons. case_decide as Hk; [|done].
  by rewrite filter_cons, decide_True, IH.
Qed.

Lemma insert_index_sorted e l :
  index_sorted l → index_sorted (Obj.insert_index e l).
Proof.
  induction l as [|a l IH]; [done|]. intros [Hhd Hl]. cbn [Obj.insert_index].
  destruct (e.1 <=? a.1)%N eqn:Hle.
  - apply N.leb_le in Hle. by split.
  - apply N.leb_gt in Hle. split; [|by apply IH].
    destruct l as [|b l]; simpl.
    + lia.
    + destruct (e.1 <=? b.1)%N; lia.
Qed.

Lemma sort_index_sorted l : index_sorted (Obj.sort_index l).
Proof.
  induction l as [|e l IH]; [done|]. simpl. by apply insert_index_sorted.
Qed.

Lemma sort_index_id l : index_sorted l → Obj.sort_index l = l.
Proof.
  induction l as [|a l IH]; [done|]. intros [Hhd Hl].
  cbn [Obj.sort_index foldr]. fold (Obj.sort_index l). rewrite IH by done.
  destruct l as [|b l]; [done|]. simpl.
  by rewrite (proj2 (N.leb_le _ _) Hhd).
Qed.

(** An object whose properties were created in the order of
    [Object.keys] lists them in that order again. *)
Lemma keys_stable (o o' : Obj.t) : o'.*1 = Obj.keys o → Obj.keys o' = o'.*1.
Proof.
  intros Heq. rewrite keys_unfold, Heq, keys_unfold.
  set (I := Obj.sort_index (index_pairs o.*1)).
  assert (Forall (λ e, Obj.array_index e.2 = Some e.1) I) as HI.
  { rewrite Forall_forall. intros e He. unfold I in He.
    rewrite sort_index_perm in He. by eapply index_pairs_spec. }
  unfold index_pairs at 1. rewrite omap_app. fold (index_pairs I.*2).
  fold (index_pairs (filter (λ k, Obj.array_index k = None) o.*1)).
  rewrite index_pairs_indices, index_pairs_others, app_nil_r by done.
  rewrite filter_app, filter_others_indices, filter_others_idemp by done.
  rewrite sort_index_id; [done|]. apply sort_index_sorted.
Qed.

(** X6: decoding what [qsString] wrote and encoding it again gives the same
    string, when the keys need no escaping and none is [__proto__]: the
    order of the keys and the text of the values are kept ([undefined]
    being written as text). *)
Theorem qsString_stringQs_qsString (obj : Obj.t) :
  NoDup obj.*1 → Forall unreserved obj.*1 → "__proto__" ∉ obj.*1 →
  wf_obj obj →
  ∃ q, stringQs (qsString obj) = Some q ∧ qsString q = qsString obj.
Proof.
  intros Hnd Hkeys Hproto Hwf. exists (reread (entries obj)).
  split; [by apply stringQs_qsString, wf_obj_entries|].
  assert ((reread (entries obj)).*1 = Obj.keys obj) as Hk.
  { rewrite reread_plain by done. rewrite <- list_fmap_compose.
    change (fst ∘ _) with (@id string). apply list_fmap_id. }
  rewrite !qsString_segments.
  enough (entries (reread (entries obj)) = entries obj) as -> by done.
  unfold entries at 1 3.
  rewrite (keys_stable obj (reread (entries obj)) Hk), Hk.
  apply list_fmap_ext. intros i k Hi. f_equal.
  apply list_elem_of_lookup_2, elem_of_keys in Hi.
  rewrite get_reread.
  - by rewrite decide_True.
  - rewrite Forall_forall in Hkeys. by apply Hkeys.
  - by intros ->.
Qed.

Lemma qsString_stringQs_qsString_witness :
  ∃ q, stringQs (qsString [("v", Str "a b"); ("10", Undefined); ("9", Str "=")])
       = Some q
       ∧ qsString q = qsString [("v", Str "a b"); ("10", Undefined); ("9", Str "=")].
Proof.
  apply qsString_stringQs_qsString.
  - compute_done.
  - repeat constructor.
  - compute_done.
  - by repeat constructor.
Defined.

(** X7: a key that needs no escaping and is not [__proto__] survives
    encoding and decoding, and its value comes back as a string: the text
    of the value, [undefined] becoming the nine letters.  The key
    [__proto__] does not come back. *)
Theorem stringQs_qsString_get (obj : Obj.t) k :
  wf_obj obj → unreserved k → k ∈ obj.*1 →
  ∃ q, stringQs (qsString obj) = Some q
       ∧ ("__proto__" ∉ q.*1)
       ∧ (k ≠ "__proto__" →
          k ∈ q.*1 ∧ Obj.get q k = Str (to_string (Obj.get obj k))).
Proof.
  intros Hwf Hk Hin. exists (reread (entries obj)).
  split; [by apply stringQs_qsString, wf_obj_entries|].
  split; [apply reread_proto|]. intros Hproto. split.
  - apply keys_reread. split; [done|]. exists k.
    split; [done|]. by apply encode_unreserved.
  - by rewrite get_reread, decide_True.
Qed.

Lemma stringQs_qsString_get_witness :
  ∃ q, stringQs (qsString [("a b", Str "x"); ("v", Undefined)]) = Some q
       ∧ ("__proto__" ∉ q.*1)
       ∧ ("v" ≠ "__proto__" →
          "v" ∈ q.*1
          ∧ Obj.get q "v"
            = Str (to_string (Obj.get [("a b", Str "x"); ("v", Undefined)] "v"))).
Proof.
  apply stringQs_qsString_get.
  - by repeat constructor.
  - by repeat constructor.
  - right. left.
Defined.

End KeyOrder.

(** ** The ordered parameters *)

Section Ordered.
Import Js.

Lemma append_nil_r s : s +:+ "" = s.
Proof.
  induction s as [|c s IH]; [done|].
  change (String c s +:+ "") with (String c (s +:+ "")). by rewrite IH.
Qed.

Lemma append_assoc a b c : (a +:+ b) +:+ c = a +:+ (b +:+ c).
Proof.
  induction a as [|x a IH]; [done|].
  change (String x ((a +:+ b) +:+ c) = String x (a +:+ (b +:+ c))).
  by rewrite IH.
Qed.

Lemma join_cons sep a l :
  join sep (a :: l)
  = a +:+ match l with [] => "" | _ => sep +:+ join sep l end.
Proof. destruct l; simpl; [by rewrite append_nil_r|done]. Qed.

Lemma ordered_spec_cons params :
  ∃ v rest,
    truthy v = true
    ∧ ordered_spec params = ("t", v) :: rest.
Proof.
  unfold ordered_spec, key_order. cbn [omap list_omap].
  destruct (truthy (Obj.get params "t")) eqn:Ht.
  - exists (Obj.get params "t"). eexists. split; [done|reflexivity].
  - rewrite decide_True by done. exists (Str "brands"). eexists.
    split; [done|reflexivity].
Qed.

Lemma get_ordered_spec params k :
  k ∈ key_order →
  Obj.get (ordered_spec params) k
  = if truthy (Obj.get params k) then Obj.get params k
    else if decide (k = "t") then Str "brands" else Undefined.
Proof.
  unfold ordered_spec. generalize key_order. intros ks.
  induction ks as [|k0 ks IH]; [by intros ?%elem_of_nil|].
  intros Hin. cbn [omap list_omap].
  destruct (decide (k0 = k)) as [->|Hne].
  - destruct (truthy (Obj.get params k)) eqn:Ht.
    { simpl. by rewrite decide_True. }
    destruct (decide (k = "t")).
    { simpl. by rewrite decide_True. }
    destruct (decide (k ∈ ks)) as [Hk|Hk].
    { by rewrite IH. }
    apply get_absent. intros (kv & -> & Hkv)%list_elem_of_fmap.
    apply list_elem_of_omap in Hkv as (k' & Hk' & Hkv). apply Hk.
    destruct (truthy (Obj.get params k')); [by simplify_eq/=|].
    destruct (decide (k' = "t")); by simplify_eq/=.
  - apply elem_of_cons in Hin as [?|Hin]; [done|].
    destruct (truthy (Obj.get params k0)).
    { simpl. rewrite decide_False by done. by apply IH. }
    destruct (decide (k0 = "t")).
    { simpl. rewrite decide_False by done. by apply IH. }
    by apply IH.
Qed.

Lemma ordered_spec_truthy params kv :
  kv ∈ ordered_spec params → truthy kv.2 = true ∧ kv.1 ∈ key_order.
Proof.
  unfold ordered_spec. intros (k & Hk & Hkv)%list_elem_of_omap.
  destruct (truthy (Obj.get params k)) eqn:Ht; [by simplify_eq/=|].
  destruct (decide (k = "t")); by simplify_eq/=.
Qed.

Lemma ordered_spec_nodup params : NoDup (ordered_spec params).*1.
Proof.
  eapply sublist_NoDup; [apply key_order_nodup|apply ordered_spec_keys].
Qed.

Lemma ordered_spec_plain params k :
  k ∈ (ordered_spec params).*1 →
  Obj.array_index k = None ∧ encodeURIComponent k = k.
Proof.
  intros Hk%(sublist_subseteq _ _ (ordered_spec_keys params)).
  revert k Hk. apply Forall_forall, key_order_plain.
Qed.

Lemma ordered_spec_unreserved params : Forall unreserved (ordered_spec params).*1.
Proof.
  rewrite Forall_forall. intros k [_ Hk]%ordered_spec_plain.
  by apply encode_fixed.
Qed.

Lemma ordered_spec_no_proto params : "__proto__" ∉ (ordered_spec params).*1.
Proof.
  intros Hk%(sublist_subseteq _ _ (ordered_spec_keys params)).
  revert Hk. compute_done.
Qed.

Lemma keys_ordered_spec params :
  Obj.keys (ordered_spec params) = (ordered_spec params).*1.
Proof.
  apply keys_no_index. rewrite Forall_forall.
  by intros k [? _]%ordered_spec_plain.
Qed.

Lemma truthy_to_string v : truthy v = true → Str (to_string v) = v.
Proof. by destruct v. Qed.

Lemma wf_obj_ordered_spec params : wf_obj params → wf_obj (ordered_spec params).
Proof.
  intros Hwf. unfold wf_obj. rewrite Forall_forall. intros [k v] Hkv.
  unfold ordered_spec in Hkv. apply list_elem_of_omap in Hkv as (k' & _ & Hkv).
  destruct (truthy (Obj.get params k')).
  { injection Hkv as <- <-. by apply wf_obj_get. }
  destruct (decide (k' = "t")); by simplify_eq/=.
Qed.

(** X8: whatever the parameters are, the query string the outbound sync
    builds starts with a non-empty [t]: the tree is always in the URL, and
    always first. *)
Theorem outbound_tree_first params :
  ∃ v rest,
    v ≠ ""
    ∧ Obj.get (ordered_params params) "t" = Str v
    ∧ qsString (ordered_params params)
      = "t=" +:+ encodeURIComponent v +:+ rest.
Proof.
  rewrite ordered_params_spec.
  destruct (ordered_spec_cons params) as (v & rest & Hv & Heq).
  destruct v as [|v]; [done|]. exists v.
  assert (Obj.get (ordered_spec params) "t" = Str v) as Hget.
  { rewrite Heq. reflexivity. }
  assert (Obj.keys (ordered_spec params) = "t" :: rest.*1) as Hkeys.
  { by rewrite keys_ordered_spec, Heq. }
  rewrite qsString_segments. unfold entries.
  rewrite Hkeys, !fmap_cons, join_cons, Hget.
  unfold segment at 1. cbn [fst snd to_string].
  change (encodeURIComponent "t") with "t". rewrite !append_assoc.
  eexists. split_and!; [by destruct v|done|reflexivity].
Qed.

Lemma omap_ext_elem {A B} (f g : A → option B) (l : list A) :
  (∀ x, x ∈ l → f x = g x) → omap f l = omap g l.
Proof.
  induction l as [|x l IH]; intros Hfg; [done|].
  cbn [omap list_omap]. rewrite (Hfg x) by left.
  rewrite IH; [done|]. intros y ?. apply Hfg. by right.
Qed.

Lemma truthy_ordered params k :
  k ∈ key_order →
  truthy (Obj.get (ordered_spec params) k)
  = truthy (Obj.get params k) || bool_decide (k = "t").
Proof.
  intros Hk. rewrite get_ordered_spec by done.
  destruct (truthy (Obj.get params k)) eqn:Ht; [done|].
  by case_decide; [rewrite bool_decide_true|rewrite bool_decide_false].
Qed.

Lemma ordered_params_twice params :
  ordered_params (ordered_params params) = ordered_params params.
Proof.
  rewrite !ordered_params_spec. unfold ordered_spec at 1 3.
  apply omap_ext_elem. intros k Hk.
  rewrite truthy_ordered, get_ordered_spec by done.
  destruct (truthy (Obj.get params k)); [done|]. simpl.
  by case_decide; [rewrite bool_decide_true|rewrite bool_decide_false].
Qed.

(** X9: ordering parameters that are ordered already changes nothing. *)
Theorem ordered_params_idempotent params :
  ordered_params (ordered_params params) = ordered_params params.
Proof. apply ordered_params_twice. Qed.

Lemma get_elem_of (o : Obj.t) k v : NoDup o.*1 → (k, v) ∈ o → Obj.get o k = v.
Proof.
  induction o as [|[k0 v0] o IH]; [by intros _ ?%elem_of_nil|].
  rewrite fmap_cons. intros [Hk0 Ho]%NoDup_cons [[= -> ->]|Hin]%elem_of_cons.
  - simpl. by rewrite decide_True.
  - simpl. rewrite decide_False; [by apply IH|].
    intros ->. apply Hk0. apply list_elem_of_fmap. by exists (k, v).
Qed.

Lemma stringQs_ordered params :
  wf_obj params →
  stringQs ("?" +:+ qsString (ordered_params params))
  = Some (ordered_params params).
Proof.
  intros Hwf. rewrite ordered_params_spec.
  change (stringQs ("?" +:+ ?s)) with (stringQs s).
  rewrite stringQs_qsString by by apply wf_obj_entries, wf_obj_ordered_spec.
  f_equal. rewrite reread_plain
    by (apply ordered_spec_nodup || apply ordered_spec_unreserved
        || apply ordered_spec_no_proto).
  rewrite keys_ordered_spec.
  etrans; [|apply (get_entries_nodup (ordered_spec params)), ordered_spec_nodup].
  apply list_fmap_ext. intros i k Hi. f_equal.
  apply truthy_to_string.
  apply list_elem_of_lookup_2, list_elem_of_fmap in Hi as ([k' v] & -> & Hkv).
  pose proof (ordered_spec_truthy _ _ Hkv) as [Hv Hin]. simpl in *.
  by rewrite (get_elem_of _ _ _ (ordered_spec_nodup params) Hkv).
Qed.

(** X10: the query string the outbound sync writes decodes to the ordered
    parameters themselves: same keys, same order, same values. *)
Theorem outbound_search_decodes params :
  wf_obj params →
  stringQs ("?" +:+ qsString (ordered_params params))
  = Some (ordered_params params).
Proof. apply stringQs_ordered. Qed.

Lemma outbound_search_decodes_witness :
  stringQs ("?" +:+ qsString (ordered_params
              [("zz", Str "dropped"); ("v", Str "a&b"); ("k", Str "café")]))
  = Some (ordered_params
            [("zz", Str "dropped"); ("v", Str "a&b"); ("k", Str "café")]).
Proof. apply outbound_search_decodes. by repeat constructor. Defined.

(** X11: ordering the parameters never changes which page is shown. *)
Theorem content_ordered params :
  content (ordered_params params) = content params.
Proof.
  unfold content. rewrite ordered_params_spec.
  rewrite !truthy_ordered by compute_done.
  by rewrite !bool_decide_false, !orb_false_r by done.
Qed.

End Ordered.

(** ** The inbound sync when no item is looked up *)

Section InboundMore.
Import Js.

Lemma commit_or_keep_not_wait (b : bool) newHash newSearch :
  (if b then Commit newHash <$> stringQs newSearch else Some Keep) ≠ Some Wait.
Proof. destruct b; [|done]. by destruct (stringQs newSearch). Qed.

(** X12: as long as the query decodes, the inbound sync waits exactly when
    the index is loading and the query holds a non-empty [id]; the stored
    parameters, the stored hash and the index play no part. *)
Theorem inbound_waits_iff location indexLoading index params hash q :
  stringQs (Location.search location) = Some q →
  inbound location indexLoading index params hash = Some Wait
  ↔ indexLoading = true ∧ truthy (Obj.get q "id") = true.
Proof.
  intros Hq. unfold inbound, resolve_id. rewrite Hq. simpl.
  destruct (truthy (Obj.get q "id")); simpl.
  2:{ split; [|by intros [_ ?]]. by intros ?%commit_or_keep_not_wait. }
  destruct indexLoading; simpl; [done|].
  split; [|by intros [? _]].
  destruct index as [[h ix]|]; simpl; [|done].
  destruct (Index.read h ix _) as [r|v|]; simpl; [| |done].
  - destruct (h r) as [item|]; simpl; [|done].
    destruct (Obj.get item "tkv"); simpl; [done|].
    by intros ?%commit_or_keep_not_wait.
  - destruct (truthy v); [done|]. by intros ?%commit_or_keep_not_wait.
Qed.

Lemma inbound_waits_iff_witness :
  inbound {| Location.pathname := "/"; Location.search := "?id=a1&cc=us";
             Location.hash := "" |} true None [] "" = Some Wait.
Proof.
  apply (inbound_waits_iff _ true None [] ""
           [("id", Str "a1"); ("cc", Str "us")]); [reflexivity|].
  split; reflexivity.
Defined.

(** Reading a key that was never assigned, from an index whose prototype
    is still [Object.prototype]. *)
Lemma read_missing heap ix k :
  Index.id ix !! k = None → Index.id_proto ix = None →
  k ∉ Obj.proto_names →
  Index.read heap ix k = Index.Field Undefined.
Proof.
  intros Hk Hp Hn. unfold Index.read, Index.inherited. rewrite Hk, Hp.
  cbn [mbind option_bind]. by rewrite decide_False.
Qed.

Lemma read_builtin heap ix k :
  Index.id ix !! k = None → Index.id_proto ix = None →
  k ∈ Obj.proto_names →
  Index.read heap ix k = Index.Builtin.
Proof.
  intros Hk Hp Hn. unfold Index.read, Index.inherited. rewrite Hk, Hp.
  cbn [mbind option_bind]. by rewrite decide_True.
Qed.

Lemma resolve_id_unresolved location indexLoading index q :
  truthy (Obj.get q "id") = false
  ∨ (∃ heap ix v,
       indexLoading = false ∧ index = Some (heap, ix)
       ∧ Index.read heap ix (to_string (Obj.get q "id")) = Index.Field v
       ∧ truthy v = false) →
  resolve_id location indexLoading index q
  = Some (Some (Location.hash location, Location.search location)).
Proof.
  unfold resolve_id. intros [->|(heap & ix & v & -> & -> & Hid & Hv)]; [done|].
  destruct (truthy (Obj.get q "id")); [|done].
  cbn [mbind option_bind fst snd]. by rewrite Hid, Hv.
Qed.

(** X13: when no item is looked up or found (no [id], an empty [id], or,
    once the index is loaded, an [id] for which [byId[id]] is [undefined]
    or an empty string), the inbound sync can only copy the location: it
    commits the location's hash and the decoded query, [id] included, or
    changes nothing. *)
Theorem inbound_unresolved location indexLoading index params hash q :
  stringQs (Location.search location) = Some q →
  truthy (Obj.get q "id") = false
  ∨ (∃ heap ix v,
       indexLoading = false ∧ index = Some (heap, ix)
       ∧ Index.read heap ix (to_string (Obj.get q "id")) = Index.Field v
       ∧ truthy v = false) →
  inbound location indexLoading index params hash
  = Some (if bool_decide (hash ≠ Location.hash location)
             || bool_decide ("?" +:+ qsString params ≠ Location.search location)
          then Commit (Location.hash location) q else Keep).
Proof.
  intros Hq Hun. unfold inbound. rewrite Hq. cbn [mbind option_bind].
  rewrite resolve_id_unresolved by done. cbn [mbind option_bind].
  rewrite Hq. by destruct (_ || _).
Qed.

Lemma inbound_unresolved_witness :
  inbound {| Location.pathname := "/"; Location.search := "?id=missing";
             Location.hash := "#x" |} false
    (Some (Nsi.heap_of example_cats,
           {| Index.path := ∅; Index.id := {["a1" := (0, 0)]};
              Index.id_proto := None; Index.meta := Undefined |})) [] ""
  = Some (if bool_decide ("" ≠ "#x")
             || bool_decide ("?" +:+ qsString [] ≠ "?id=missing")
          then Commit "#x" [("id", Str "missing")] else Keep).
Proof.
  apply (inbound_unresolved
           {| Location.pathname := "/"; Location.search := "?id=missing";
              Location.hash := "#x" |}); [reflexivity|].
  right. eexists _, _, Undefined. split_and!; reflexivity.
Defined.

(** X14: the inbound sync changes nothing only if the location's hash is
    the stored hash and its query string is exactly [?] followed by the
    encoding of the stored parameters; with an empty query string it never
    ends without a commit. *)
Theorem inbound_keep_only_at_fixed_point location indexLoading index params hash :
  inbound location indexLoading index params hash = Some Keep →
  Location.hash location = hash
  ∧ Location.search location = "?" +:+ qsString params
  ∧ Location.search location ≠ "".
Proof.
  unfold inbound. destruct (stringQs (Location.search location)) as [q|]; [|done].
  cbn [mbind option_bind].
  assert (∀ newHash newSearch,
            (if bool_decide (hash ≠ newHash)
                || bool_decide ("?" +:+ qsString params ≠ newSearch)
             then Commit newHash <$> stringQs newSearch else Some Keep)
            = Some Keep →
            newHash = hash ∧ newSearch = "?" +:+ qsString params) as Hfin.
  { intros newHash newSearch.
    destruct (decide (hash = newHash)) as [<-|?].
    2:{ rewrite bool_decide_true by done. simpl. by destruct (stringQs newSearch). }
    destruct (decide ("?" +:+ qsString params = newSearch)) as [<-|?]; [done|].
    rewrite (bool_decide_true (_ ≠ newSearch)), orb_true_r by done.
    by destruct (stringQs newSearch). }
  unfold resolve_id.
  destruct (truthy (Obj.get q "id")); cbn [mbind option_bind].
  2:{ intros [<- Hs]%Hfin. by rewrite Hs. }
  destruct indexLoading; cbn [mbind option_bind]; [done|].
  destruct index as [[h ix]|]; cbn [mbind option_bind]; [|done].
  cbn [fst snd].
  destruct (Index.read h ix (to_string (Obj.get q "id"))) as [r|v|];
    cbn [mbind option_bind]; [| |done].
  - destruct (h r) as [item|]; cbn [mbind option_bind]; [|done].
    destruct (Obj.get item "tkv"); cbn [mbind option_bind]; [done|].
    intros [_ Hs]%Hfin. symmetry in Hs.
    by apply question_differs in Hs.
  - destruct (truthy v); [done|]. intros [<- Hs]%Hfin. by rewrite Hs.
Qed.

Lemma inbound_keep_only_at_fixed_point_witness :
  "#a1" = "#a1"
  ∧ "?t=brands" = "?" +:+ qsString [("t", Str "brands")]
  ∧ "?t=brands" ≠ "".
Proof.
  apply (inbound_keep_only_at_fixed_point
           {| Location.pathname := "/"; Location.search := "?t=brands";
              Location.hash := "#a1" |} true None [("t", Str "brands")] "#a1").
  reflexivity.
Defined.

(** X15: at a fixed point, where the location shows [?] followed by the
    encoding of the stored parameters and the stored hash, and the
    parameters hold no [id] (or an empty one), the inbound sync changes
    nothing, whether or not the index is loaded. *)
Theorem inbound_fixed_point location indexLoading index params hash :
  wf_obj params →
  ("id" ∈ params.*1 → Obj.get params "id" = Str "") →
  Location.search location = "?" +:+ qsString params →
  Location.hash location = hash →
  inbound location indexLoading index params hash = Some Keep.
Proof.
  intros Hwf Hid Hs Hh. unfold inbound. rewrite Hs.
  change (stringQs ("?" +:+ ?s)) with (stringQs s).
  rewrite stringQs_qsString by by apply wf_obj_entries.
  cbn [mbind option_bind]. unfold resolve_id.
  assert (truthy (Obj.get (reread (entries params)) "id") = false) as ->.
  { rewrite get_reread by by repeat constructor.
    case_decide as Hin; [|done]. by rewrite (Hid Hin). }
  cbn [mbind option_bind]. rewrite Hs, Hh.
  by rewrite !bool_decide_false by (by intros []).
Qed.

Lemma inbound_fixed_point_witness :
  inbound {| Location.pathname := "/"; Location.search := "?t=brands&k=caf%C3%A9";
             Location.hash := "#a1" |} true None
    [("t", Str "brands"); ("k", Str "café")] "#a1"
  = Some Keep.
Proof.
  apply inbound_fixed_point; [by repeat constructor| |reflexivity..].
  intros Hin. exfalso. revert Hin. compute_done.
Defined.

End InboundMore.

(** ** Looking an item up by its id *)

Section Lookup.
Import Js.

(** X16: when the inbound sync commits and the stored hash is already the
    hash of the location, the outbound sync of the same render asks for no
    navigation, however the query strings differ: here the flag holds. *)
Theorem flag_holds_when_hash_agrees location indexLoading index params hash
    newHash newParams nav :
  both_effects location indexLoading index params hash
  = Some (Commit newHash newParams, nav) →
  Location.hash location = hash →
  nav = None.
Proof.
  unfold both_effects.
  destruct (inbound location indexLoading index params hash) as [r|]; [|done].
  simpl. intros [= -> <-] <-. unfold outbound. simpl.
  destruct indexLoading; [done|]. by rewrite bool_decide_false by (by intros []).
Qed.

Lemma flag_holds_when_hash_agrees_witness :
  (outbound true false [] ""
     {| Location.pathname := "/"; Location.search := "?k=cafe&v=Foo";
        Location.hash := "" |}).2 = None.
Proof.
  apply (flag_holds_when_hash_agrees
           {| Location.pathname := "/"; Location.search := "?k=cafe&v=Foo";
              Location.hash := "" |} false None [] ""
           "" [("k", Str "cafe"); ("v", Str "Foo")]);
    reflexivity.
Defined.

Lemma stringQs_values_str raw q k :
  stringQs raw = Some q → k ∈ q.*1 → ∃ s, Obj.get q k = Str s.
Proof.
  intros Hq Hin.
  assert (k ≠ "__proto__") as Hk.
  { intros ->. by apply stringQs_proto in Hq. }
  rewrite stringQs_segments_unfold in Hq.
  pose proof (foldl_stringQs_step_last _ _ _ k Hk Hq) as H.
  destruct (last _) as [seg|].
  - destruct H as (v & v' & _ & _ & ? & _). by exists v'.
  - destruct H as [_ H]. apply H in Hin. by apply elem_of_nil in Hin.
Qed.

Lemma wf_nth_val parts i :
  Forall (λ w, wf_string w = true) parts →
  wf_string (to_string (nth_val parts i)) = true.
Proof.
  intros Hparts. unfold nth_val. destruct (parts !! i) as [w|] eqn:Hi; [|done].
  rewrite Forall_forall in Hparts. apply Hparts.
  by eapply list_elem_of_lookup_2.
Qed.

(** The inbound sync once the item is found. *)
Lemma inbound_resolved location heap ix params hash q itemID r item tkv :
  wf_string (Location.search location) = true →
  stringQs (Location.search location) = Some q →
  Obj.get q "id" = Str itemID → itemID ≠ "" →
  Index.read heap ix itemID = Index.Item r → heap r = Some item →
  Obj.get item "tkv" = Str tkv → wf_string tkv = true →
  ∃ newParams,
    inbound location false (Some (heap, ix)) params hash
    = Some (Commit ("#" +:+ itemID) newParams)
    ∧ Obj.get newParams "t"
      = Str (to_string (nth_val (split_limit "/" 3 tkv) 0))
    ∧ Obj.get newParams "k"
      = Str (to_string (nth_val (split_limit "/" 3 tkv) 1))
    ∧ Obj.get newParams "v"
      = Str (to_string (nth_val (split_limit "/" 3 tkv) 2))
    ∧ ("id" ∉ newParams.*1)
    ∧ ∀ k, unreserved k → k ∉ ["t"; "k"; "v"; "id"] →
           Obj.get newParams k = Obj.get q k.
Proof.
  intros Hwf Hq Hid Hne Hr Hitem Htkv Hwftkv.
  set (parts := split_limit "/" 3 tkv).
  assert (Forall (λ w, wf_string w = true) parts) as Hparts
    by by apply split_limit_wf.
  set (np := Obj.delete "id" (Obj.set "v" (nth_val parts 2)
               (Obj.set "k" (nth_val parts 1)
                  (Obj.set "t" (nth_val parts 0) q)))).
  assert (wf_obj np) as Hnp.
  { apply wf_obj_delete. repeat (apply wf_obj_set; [by apply wf_nth_val|]).
    exact (stringQs_wf _ _ Hwf Hq). }
  exists (reread (entries np)). split_and!.
  - unfold inbound, resolve_id. rewrite Hq. simpl.
    rewrite Hid, truthy_str by done. simpl. rewrite Hr. simpl.
    rewrite Hitem. simpl. rewrite Htkv. simpl. fold parts. fold np.
    rewrite (bool_decide_true (_ ≠ qsString np)) by apply question_differs.
    rewrite orb_true_r.
    by rewrite stringQs_qsString by by apply wf_obj_entries.
  - rewrite get_reread by by repeat constructor.
    unfold np. rewrite decide_True.
    + by rewrite get_delete, !get_set.
    + rewrite elem_of_keys_delete, !elem_of_keys_set. auto.
  - rewrite get_reread by by repeat constructor.
    unfold np. rewrite decide_True.
    + by rewrite get_delete, !get_set.
    + rewrite elem_of_keys_delete, !elem_of_keys_set. auto.
  - rewrite get_reread by by repeat constructor.
    unfold np. rewrite decide_True.
    + by rewrite get_delete, !get_set.
    + rewrite elem_of_keys_delete, !elem_of_keys_set. auto.
  - rewrite keys_reread. intros (_ & key & Hkey & Henc).
    apply encode_eq_unreserved in Henc as ->; [|by repeat constructor].
    unfold np in Hkey. by apply elem_of_keys_delete in Hkey as [? _].
  - intros k Hk Hother.
    destruct (decide (k = "__proto__")) as [->|Hproto].
    { destruct (reread_proto np) as [_ ->]. symmetry.
      by apply get_absent, (stringQs_proto _ _ Hq). }
    rewrite get_reread by done.
    assert (k ≠ "t" ∧ k ≠ "k" ∧ k ≠ "v" ∧ k ≠ "id") as (? & ? & ? & ?).
    { rewrite !not_elem_of_cons in Hother. tauto. }
    assert (Obj.get np k = Obj.get q k) as Hget.
    { unfold np. rewrite get_delete, decide_False by done.
      by rewrite !get_set, !decide_False by done. }
    assert (k ∈ np.*1 ↔ k ∈ q.*1) as Hin.
    { unfold np. rewrite elem_of_keys_delete, !elem_of_keys_set. tauto. }
    rewrite Hget. destruct (decide (k ∈ q.*1)) as [Hk'|Hk'].
    + rewrite decide_True by by apply Hin.
      by destruct (stringQs_values_str _ _ _ Hq Hk') as [s ->].
    + rewrite decide_False by by rewrite Hin.
      symmetry. by apply get_absent.
Qed.


(** X17: when an item is found, the other parameters of the query are kept
    as they were decoded, and a part that the item's [tkv] lacks is
    written as the text [undefined]: [t], [k], [v] are always present
    afterwards. *)
Theorem inbound_resolved_keeps_others location heap ix params hash q itemID r
    item tkv :
  wf_string (Location.search location) = true →
  stringQs (Location.search location) = Some q →
  Obj.get q "id" = Str itemID → itemID ≠ "" →
  Index.read heap ix itemID = Index.Item r → heap r = Some item →
  Obj.get item "tkv" = Str tkv → wf_string tkv = true →
  ∃ newParams,
    inbound location false (Some (heap, ix)) params hash
    = Some (Commit ("#" +:+ itemID) newParams)
    ∧ Obj.get newParams "t"
      = Str (to_string (nth_val (split_limit "/" 3 tkv) 0))
    ∧ Obj.get newParams "k"
      = Str (to_string (nth_val (split_limit "/" 3 tkv) 1))
    ∧ Obj.get newParams "v"
      = Str (to_string (nth_val (split_limit "/" 3 tkv) 2))
    ∧ ("id" ∉ newParams.*1)
    ∧ ∀ k, unreserved k → k ∉ ["t"; "k"; "v"; "id"] →
           Obj.get newParams k = Obj.get q k.
Proof. apply inbound_resolved. Qed.

Lemma inbound_resolved_keeps_others_witness :
  ∃ newParams,
    inbound {| Location.pathname := "/"; Location.search := "?id=a1&cc=us";
               Location.hash := "" |} false
      (Some (Nsi.write (0, 0) [("id", Str "a1"); ("tkv", Str "amenity/cafe")]
               (λ _, None),
             {| Index.path := ∅; Index.id := {["a1" := (0, 0)]};
                Index.id_proto := None; Index.meta := Undefined |}))
      [] ""
    = Some (Commit ("#" +:+ "a1") newParams)
    ∧ Obj.get newParams "t"
      = Str (to_string (nth_val (split_limit "/" 3 "amenity/cafe") 0))
    ∧ Obj.get newParams "k"
      = Str (to_string (nth_val (split_limit "/" 3 "amenity/cafe") 1))
    ∧ Obj.get newParams "v"
      = Str (to_string (nth_val (split_limit "/" 3 "amenity/cafe") 2))
    ∧ ("id" ∉ newParams.*1)
    ∧ ∀ k, unreserved k → k ∉ ["t"; "k"; "v"; "id"] →
           Obj.get newParams k
           = Obj.get [("id", Str "a1"); ("cc", Str "us")] k.
Proof.
  apply (inbound_resolved_keeps_others _ _ _ [] ""
           [("id", Str "a1"); ("cc", Str "us")] "a1" (0, 0)
           [("id", Str "a1"); ("tkv", Str "amenity/cafe")] "amenity/cafe");
    first [reflexivity | discriminate].
Defined.

Lemma wf_string_ascii s :
  Forall (λ c, byte_in 0 127 c = true) (chars s) → wf_string s = true.
Proof.
  induction s as [|c s IH]; [done|]. intros [Hc Hs]%Forall_cons.
  rewrite wf_string_cons by done. by apply IH.
Qed.

Lemma uri_char_ascii c : uri_char c = true → byte_in 0 127 c = true.
Proof. by destruct c as [[] [] [] [] [] [] [] []]. Qed.

Lemma wf_string_encode s : wf_string (encodeURIComponent s) = true.
Proof.
  apply wf_string_ascii. eapply Forall_impl; [apply encode_chars|].
  apply uri_char_ascii.
Qed.

Lemma stringQs_id_query id_ :
  wf_string id_ = true →
  stringQs ("?id=" +:+ encodeURIComponent id_) = Some [("id", Str id_)].
Proof.
  intros Hwf.
  change (stringQs ("?id=" +:+ encodeURIComponent id_))
    with (stringQs (join "&" (segment <$> [("id", id_)]))).
  by rewrite stringQs_segments by by repeat constructor.
Qed.

(** An item with a field [__proto__] of its own, assigned under the id
    [__proto__], hides itself: the field is read in its place. *)
Lemma read_assigned heap ix k r item :
  Index.id ix !! k = Some r → heap r = Some item →
  (k = "__proto__" → "__proto__" ∉ item.*1) →
  Index.read heap ix k = Index.Item r.
Proof.
  intros Hr Hitem Hfield. unfold Index.read. rewrite Hr.
  case_decide as Hk; [|done]. destruct Hk as [-> _]. rewrite Hitem.
  by rewrite decide_False by by apply Hfield.
Qed.

(** X18: every item of the loaded taxonomy can be reached by its id, unless
    the id is [__proto__] and items have a field of that name.  For an
    item with a non-empty id, the location [?id=<id>] makes the inbound
    sync commit the hash [#<id>] and the parts of the key of the category
    holding the last item with that id. *)
Theorem loaded_item_resolves json cats h ix params hash pathname lhash r0 id_ :
  Nsi.nsi json = Some cats → NoDup cats.*1 →
  build_index json = Some (h, ix) →
  Forall (λ e, wf_string e.1 = true) cats →
  source_key cats r0 = Some id_ → id_ ≠ "" → wf_string id_ = true →
  (id_ = "__proto__" →
   ∀ r tkv it, source cats r = Some (tkv, it) → "__proto__" ∉ it.*1) →
  ∃ r tkv it newParams,
    source cats r = Some (tkv, it) ∧ key_of it = id_ ∧ not_after r0 r
    ∧ inbound {| Location.pathname := pathname;
                 Location.search := "?id=" +:+ encodeURIComponent id_;
                 Location.hash := lhash |} false (Some (h, ix)) params hash
      = Some (Commit ("#" +:+ id_) newParams)
    ∧ Obj.get newParams "t"
      = Str (to_string (nth_val (split_limit "/" 3 tkv) 0))
    ∧ Obj.get newParams "k"
      = Str (to_string (nth_val (split_limit "/" 3 tkv) 1))
    ∧ Obj.get newParams "v"
      = Str (to_string (nth_val (split_limit "/" 3 tkv) 2))
    ∧ "id" ∉ newParams.*1.
Proof.
  intros Hcats Hnodup Hbuild Hkeys Hsrc0 Hne Hwf Hfield.
  destruct (build_index_inv cats (Nsi._meta json) Hnodup json Hcats eq_refl)
    as (s & Hs & [Hh Hp Hid Hfiled _]).
  rewrite Hbuild in Hs. injection Hs as <-. cbn [fst snd] in *.
  assert (r0.1 < length cats) as Hlt0.
  { unfold source_key, source in Hsrc0.
    destruct (cats !! r0.1) eqn:H0; [|done]. by eapply lookup_lt_Some. }
  destruct (Hfiled _ _ Hlt0 Hsrc0) as [r Hr].
  pose proof Hr as (Hlt & Hk & Hlast)%Hid.
  unfold source_key in Hk.
  destruct (source cats r) as [[tkv it]|] eqn:Hsrc; [|done].
  simpl in Hk. injection Hk as Hk.
  pose proof Hsrc as (c & its & Hci & Hits & Hit)%source_inv.
  assert (wf_string tkv = true) as Hwftkv.
  { rewrite Forall_forall in Hkeys.
    apply (Hkeys (tkv, c)). by eapply list_elem_of_lookup_2. }
  destruct (inbound_resolved
              {| Location.pathname := pathname;
                 Location.search := "?id=" +:+ encodeURIComponent id_;
                 Location.hash := lhash |}
              h ix params hash [("id", Str id_)] id_ r (tagged tkv it) tkv)
    as (newParams & Hin & Ht & Hkk & Hv & Hnoid & _).
  - cbn [Location.search]. change ("?id=" +:+ ?s) with (String "?" (String "i" (String "d" (String "=" s)))).
    rewrite !wf_string_cons by done. apply wf_string_encode.
  - by apply stringQs_id_query.
  - done.
  - done.
  - apply read_assigned with (tagged tkv it); [done| |].
    + by rewrite Hh, decide_True, Hsrc.
    + intros Heq. unfold tagged. rewrite elem_of_keys_set.
      intros [?|?]; [done|]. by eapply (Hfield Heq r).
  - by rewrite Hh, decide_True, Hsrc.
  - apply get_tagged.
  - done.
  - exists r, tkv, it, newParams. split_and!; try done.
    apply Hlast; [done|]. done.
Qed.

Lemma loaded_item_resolves_witness :
  ∃ r tkv it newParams,
    source example_cats r = Some (tkv, it) ∧ key_of it = "a1" ∧ not_after (0, 0) r
    ∧ inbound {| Location.pathname := "/";
                 Location.search := "?id=" +:+ encodeURIComponent "a1";
                 Location.hash := "" |} false
        (Some (default (Nsi.heap_of [], {| Index.path := ∅; Index.id := ∅;
                                           Index.id_proto := None;
                                           Index.meta := Undefined |})
                 (build_index example_json))) [] ""
      = Some (Commit ("#" +:+ "a1") newParams)
    ∧ Obj.get newParams "t"
      = Str (to_string (nth_val (split_limit "/" 3 tkv) 0))
    ∧ Obj.get newParams "k"
      = Str (to_string (nth_val (split_limit "/" 3 tkv) 1))
    ∧ Obj.get newParams "v"
      = Str (to_string (nth_val (split_limit "/" 3 tkv) 2))
    ∧ "id" ∉ newParams.*1.
Proof.
  apply (loaded_item_resolves example_json example_cats _ _ [] "" "/" "" (0, 0) "a1");
    first [reflexivity | discriminate | apply example_cats_nodup
          | by repeat constructor].
Defined.

End Lookup.

(** ** The life of a loader *)

Section LoaderLife.
Context {J D : Type} (process : J → option D) (resp : response J) (d : D).

Lemma run_snoc evs ev :
  Loader.run process resp d (evs ++ [ev])
  = Loader.step process resp (Loader.run process resp d evs) ev.
Proof. unfold Loader.run. apply foldl_snoc. Qed.

(** What the state of a loader can be. *)
Lemma run_cases evs :
  let st := Loader.run process resp d evs in
  (Loader.settled st = true → Loader.started st = true)
  ∧ (Loader.settled st = false → Loader.loading st = true)
  ∧ (Loader.loading st = true → Loader.data st = d)
  ∧ (Loader.loading st = false →
     Loader.settled st = true
     ∧ ∃ json d', resp = Parsed json ∧ process json = Some d'
                  ∧ Loader.data st = d')
  ∧ (Loader.settled st = true →
     ∀ json d', resp = Parsed json → process json = Some d' →
                Loader.loading st = false).
Proof.
  induction evs as [|ev evs IH] using rev_ind; [done|].
  rewrite run_snoc. destruct IH as (Hst & Hload & Hdata & Hdone & Hback).
  destruct (Loader.run process resp d evs) as [d0 l0 st0 se0]. simpl in *.
  destruct ev; simpl; [done|].
  destruct st0; simpl; [|done]. destruct se0; simpl; [done|].
  specialize (Hload eq_refl) as ->. specialize (Hdata eq_refl) as ->.
  unfold Loader.fetchUrl. simpl. destruct resp as [| |json]; simpl; [done..|].
  destruct (process json) as [d'|] eqn:Hp; simpl.
  - split_and!; [done..| |done]. intros _. split; [done|]. by exists json, d'.
  - split_and!; [done..|]. intros _ json' d'' [= <-]. congruence.
Qed.

(** X19: once a loader has loaded, no later event changes it: the request
    is not issued again and the data is not replaced. *)
Theorem loader_stable evs ev :
  Loader.loading (Loader.run process resp d evs) = false →
  Loader.run process resp d (evs ++ [ev]) = Loader.run process resp d evs.
Proof.
  intros Hl. rewrite run_snoc.
  destruct (run_cases evs) as (Hst & _ & _ & Hdone & _).
  destruct (Hdone Hl) as [Hse _]. specialize (Hst Hse).
  destruct (Loader.run process resp d evs) as [d0 l0 st0 se0]. simpl in *.
  subst. by destruct ev.
Qed.

(** A [Settle] with a [Render] somewhere before it. *)
Lemma settled_after_render evs :
  Loader.settled (Loader.run process resp d evs) = true
  ↔ ∃ pre post, evs = pre ++ Loader.Settle :: post ∧ Loader.Render ∈ pre.
Proof.
  assert (∀ evs, Loader.started (Loader.run process resp d evs) = true
                 ↔ Loader.Render ∈ evs) as Hstarted.
  { clear evs. intros evs. induction evs as [|ev evs IH] using rev_ind.
    - split; [done|]. by intros ?%elem_of_nil.
    - rewrite run_snoc, elem_of_app, list_elem_of_singleton, <- IH.
      destruct (Loader.run process resp d evs) as [d0 l0 st0 se0].
      destruct ev; simpl.
      + split; [by right|done].
      + destruct (st0 && negb se0) eqn:Hb; simpl.
        * apply andb_true_iff in Hb as [-> _].
          unfold Loader.fetchUrl. simpl.
          destruct resp as [| |json]; simpl; try (split; [by left|done]).
          destruct (process json); simpl; (split; [by left|done]).
        * split; [by left|]. by intros [?|?]. }
  induction evs as [|ev evs IH] using rev_ind.
  - split; [done|]. intros (pre & post & Heq & _). by destruct pre.
  - rewrite run_snoc.
    destruct (Loader.settled (Loader.run process resp d evs)) eqn:Hse.
    + assert (Loader.settled
                (Loader.step process resp (Loader.run process resp d evs) ev)
              = true) as ->.
      { destruct (Loader.run process resp d evs) as [d0 l0 st0 se0].
        simpl in Hse. subst. destruct ev; simpl; [done|].
        by rewrite andb_false_r. }
      split; [intros _|done].
      destruct (proj1 IH eq_refl) as (pre & post & -> & Hin).
      exists pre, (post ++ [ev]). split; [|done].
      by rewrite <- app_assoc.
    + destruct ev.
      * assert (Loader.settled
                  (Loader.step process resp (Loader.run process resp d evs)
                     Loader.Render) = false) as ->.
        { by destruct (Loader.run process resp d evs). }
        split; [done|]. intros (pre & post & Heq & Hin).
        destruct post as [|p post _] using rev_ind.
        { by apply app_inj_tail in Heq as [_ ?]. }
        rewrite app_comm_cons, app_assoc in Heq.
        apply app_inj_tail in Heq as [-> _].
        assert (false = true) as Habs; [|done].
        apply IH. by exists pre, post.
      * destruct (Loader.started (Loader.run process resp d evs)) eqn:Hst.
        -- assert (Loader.settled
                     (Loader.step process resp (Loader.run process resp d evs)
                        Loader.Settle) = true) as ->.
           { destruct (Loader.run process resp d evs) as [d0 l0 st0 se0].
             simpl in *. subst. simpl. unfold Loader.fetchUrl. simpl.
             destruct resp as [| |json]; simpl; try done.
             by destruct (process json). }
           split; [intros _|done]. exists evs, []. split; [done|].
           by apply Hstarted.
        -- assert (Loader.settled
                     (Loader.step process resp (Loader.run process resp d evs)
                        Loader.Settle) = false) as ->.
           { destruct (Loader.run process resp d evs) as [d0 l0 st0 se0].
             simpl in *. by subst. }
           split; [done|]. intros (pre & post & Heq & Hin).
           destruct post as [|p post _] using rev_ind.
           { apply app_inj_tail in Heq as [-> _].
             apply Hstarted in Hin. congruence. }
           rewrite app_comm_cons, app_assoc in Heq.
           apply app_inj_tail in Heq as [-> _].
           assert (false = true) as Habs; [|done].
           apply IH. by exists pre, post.
Qed.

Lemma run_loading_false_iff evs :
  Loader.loading (Loader.run process resp d evs) = false
  ↔ (∃ json d', resp = Parsed json ∧ process json = Some d')
    ∧ ∃ pre post, evs = pre ++ Loader.Settle :: post ∧ Loader.Render ∈ pre.
Proof.
  destruct (run_cases evs) as (_ & _ & _ & Hdone & Hback).
  rewrite <- settled_after_render. split.
  - intros Hl. destruct (Hdone Hl) as [Hse (json & d' & ? & ? & _)].
    split; [|done]. by exists json, d'.
  - intros [(json & d' & Hr & Hp) Hse]. by eapply Hback.
Qed.

(** X20: a loader stops loading exactly when its request was parsed, the
    processing of the body did not throw, and the request settled after
    the first render; its data is then the processed body. *)
Theorem loader_loaded_iff evs :
  Loader.loading (Loader.run process resp d evs) = false
  ↔ (∃ json d', resp = Parsed json ∧ process json = Some d'
                ∧ Loader.data (Loader.run process resp d evs) = d')
    ∧ ∃ pre post, evs = pre ++ Loader.Settle :: post ∧ Loader.Render ∈ pre.
Proof.
  rewrite run_loading_false_iff. split.
  - intros [Hp Hse]. split; [|done].
    destruct (run_cases evs) as (_ & _ & _ & Hdone & _). apply Hdone.
    by apply run_loading_false_iff.
  - intros [(json & d' & ? & ? & _) Hse]. split; [|done]. by exists json, d'.
Qed.

(** Until then the data is the initial one. *)
Lemma run_loading_data evs :
  Loader.loading (Loader.run process resp d evs) = true →
  Loader.data (Loader.run process resp d evs) = d.
Proof. intros Hl. destruct (run_cases evs) as (_ & _ & Hdata & _). auto. Qed.

End LoaderLife.

Lemma loader_stable_witness :
  useTaginfo (Parsed {| Taginfo.tags := Some example_tags |})
    ([Loader.Render; Loader.Settle] ++ [Loader.Settle])
  = useTaginfo (Parsed {| Taginfo.tags := Some example_tags |})
      [Loader.Render; Loader.Settle].
Proof.
  apply (loader_stable build_icons
           (Parsed {| Taginfo.tags := Some example_tags |}) ∅
           [Loader.Render; Loader.Settle] Loader.Settle).
  reflexivity.
Defined.

(** ** [isLoading] of the provider *)

Section IsLoading.





End IsLoading.

(** ** The inbound sync on the state of the loader *)

Section Safe.
Import Js.

Lemma truthy_inv v : truthy v = true → ∃ s, v = Str s ∧ s ≠ "".
Proof. destruct v as [|[|c s]]; try done. intros _. by eexists. Qed.

(** The prototype of [index.id] is an item only after an assignment
    under [__proto__]. *)
Lemma visit_item_proto tkv s r :
  Index.id_proto s.2 = None ∨ is_Some (Index.id s.2 !! "__proto__") →
  Index.id_proto (visit_item tkv s r).2 = None
  ∨ is_Some (Index.id (visit_item tkv s r).2 !! "__proto__").
Proof.
  intros Hs. unfold visit_item. destruct (s.1 r) as [item|]; [|done].
  cbn [fst snd Index.id Index.id_proto]. unfold Index.assign_proto.
  case_decide as Hk.
  - right. rewrite Hk, lookup_insert_eq. by eexists.
  - destruct Hs as [?|?]; [by left|]. right. by rewrite lookup_insert_ne.
Qed.

Lemma foldl_visit_item_proto tkv rs s :
  Index.id_proto s.2 = None ∨ is_Some (Index.id s.2 !! "__proto__") →
  Index.id_proto (foldl (visit_item tkv) s rs).2 = None
  ∨ is_Some (Index.id (foldl (visit_item tkv) s rs).2 !! "__proto__").
Proof.
  revert s. induction rs as [|r rs IH]; intros s Hs; [done|].
  cbn [foldl]. by apply IH, visit_item_proto.
Qed.

Lemma build_index_proto json h ix :
  build_index json = Some (h, ix) →
  Index.id_proto ix = None ∨ is_Some (Index.id ix !! "__proto__").
Proof.
  unfold build_index. destruct (Nsi.nsi json) as [cats|]; [|done].
  cbn [mbind option_bind].
  assert (∀ es s,
            Index.id_proto s.2 = None
            ∨ is_Some (Index.id s.2 !! "__proto__") →
            Index.id_proto (foldl visit_category s es).2 = None
            ∨ is_Some (Index.id (foldl visit_category s es).2 !! "__proto__"))
    as Hfold.
  { intros es. induction es as [|[ci [tkv c]] es IH]; intros s Hs; [done|].
    cbn [foldl]. apply IH. unfold visit_category.
    destruct (Nsi.items c) as [its|]; [|done].
    by apply foldl_visit_item_proto. }
  intros [= Heq].
  specialize (Hfold (imap (λ ci e, (ci, e)) cats)
                (Nsi.heap_of cats,
                 {| Index.path := ∅; Index.id := ∅; Index.id_proto := None;
                    Index.meta := Nsi._meta json |}) (or_introl eq_refl)).
  by rewrite Heq in Hfold.
Qed.

(** What the read of a loaded index gives for an id that no item has,
    when no item has the id [__proto__]. *)
Lemma read_unassigned json cats h ix k :
  Nsi.nsi json = Some cats → NoDup cats.*1 →
  build_index json = Some (h, ix) →
  (∀ r, source_key cats r ≠ Some k) →
  (∀ r, source_key cats r ≠ Some "__proto__") →
  Index.read h ix k = Index.inherited k.
Proof.
  intros Hcats Hnodup Hbuild Hk Hproto.
  destruct (build_index_inv cats (Nsi._meta json) Hnodup json Hcats eq_refl)
    as (s & Hs & [_ _ Hids _ _]).
  rewrite Hbuild in Hs. injection Hs as <-. cbn [fst snd] in *.
  assert (∀ k', (∀ r, source_key cats r ≠ Some k') → Index.id ix !! k' = None)
    as Hnone.
  { intros k' Hk'. destruct (Index.id ix !! k') as [r|] eqn:Hr; [|done].
    apply Hids in Hr as (_ & Hr & _). by apply Hk' in Hr. }
  assert (Index.id_proto ix = None) as Hp.
  { destruct (build_index_proto _ _ _ Hbuild) as [?|[r Hr]]; [done|].
    by rewrite Hnone in Hr. }
  unfold Index.read. by rewrite Hnone, Hp.
Qed.

(** X22: fed with the state of [useNsi], and for an [id] that is no
    property name of [Object.prototype], the inbound sync throws only when
    the query string cannot be decoded: the cache is not read before it is
    loaded, and an item found in it always carries its [tkv].  No item of
    the response has the id [__proto__]. *)
Theorem inbound_throws_iff rn evs location params hash :
  (∀ json cats, rn = Parsed json → Nsi.nsi json = Some cats →
     NoDup cats.*1 ∧ Forall (λ e, wf_string e.1 = true) cats
     ∧ ∀ r, source_key cats r ≠ Some "__proto__") →
  wf_string (Location.search location) = true →
  (∀ q, stringQs (Location.search location) = Some q →
        to_string (Obj.get q "id") ∉ Obj.proto_names) →
  inbound location (Loader.loading (useNsi rn evs))
    (Loader.data (useNsi rn evs)) params hash = None
  ↔ stringQs (Location.search location) = None.
Proof.
  intros Hrn Hwf Hplain. split; [|unfold inbound; by intros ->].
  destruct (stringQs (Location.search location)) as [q|] eqn:Hq; [|done].
  specialize (Hplain q eq_refl).
  intros Hnone. exfalso. revert Hnone.
  destruct (truthy (Obj.get q "id")) eqn:Hid.
  2:{ unfold inbound, resolve_id. rewrite Hq. cbn [mbind option_bind].
      rewrite Hid. cbn [mbind option_bind]. rewrite Hq. by destruct (_ || _). }
  destruct (Loader.loading (useNsi rn evs)) eqn:Hl.
  { unfold inbound, resolve_id. rewrite Hq. cbn [mbind option_bind].
    by rewrite Hid. }
  unfold useNsi in *.
  destruct (run_cases (λ json : Nsi.json, Some <$> build_index json) rn None evs)
    as (_ & _ & _ & Hdone & _).
  destruct (Hdone Hl) as [_ (json & d' & -> & Hb & ->)].
  destruct (build_index json) as [[h ix]|] eqn:Hbuild; [|done].
  injection Hb as <-.
  destruct (Nsi.nsi json) as [cats|] eqn:Hcats;
    [|unfold build_index in Hbuild; by rewrite Hcats in Hbuild].
  destruct (Hrn json cats eq_refl Hcats) as (Hnodup & Hkeys & Hnoproto).
  destruct (build_index_inv cats (Nsi._meta json) Hnodup json Hcats eq_refl)
    as (s & Hs & [Hh _ Hids Hfiled _]).
  rewrite Hbuild in Hs. injection Hs as <-. cbn [fst snd] in *.
  destruct (truthy_inv _ Hid) as (itemID & HitemID & Hne).
  rewrite HitemID in Hplain. cbn [to_string] in Hplain.
  destruct (Index.id ix !! itemID) as [r|] eqn:Hr.
  2:{ intros Hnone.
      assert (inbound location false (Some (h, ix)) params hash ≠ None)
        as Hsome; [|done].
      unfold inbound. rewrite Hq. cbn [mbind option_bind].
      rewrite resolve_id_unresolved.
      { cbn [mbind option_bind]. rewrite Hq. by destruct (_ || _). }
      right. exists h, ix, Undefined. split_and!; [done..| |done].
      rewrite HitemID. cbn [to_string].
      rewrite (read_unassigned json cats); try done.
      { unfold Index.inherited. by rewrite decide_False. }
      intros r' Hr'. destruct (Hfiled itemID r') as [r'' Hr'']; [|done|congruence].
      unfold source_key, source in Hr'.
      destruct (cats !! r'.1) eqn:H0; [|done]. by eapply lookup_lt_Some. }
  pose proof Hr as (Hlt & Hk & _)%Hids. unfold source_key in Hk.
  destruct (source cats r) as [[tkv it]|] eqn:Hsrc; [|done].
  pose proof Hsrc as (c & its & Hci & _ & _)%source_inv.
  assert (wf_string tkv = true) as Hwftkv.
  { rewrite Forall_forall in Hkeys.
    apply (Hkeys (tkv, c)). by eapply list_elem_of_lookup_2. }
  destruct (inbound_resolved location h ix params hash q itemID r
              (tagged tkv it) tkv) as (newParams & Hres & _); try done.
  - apply read_item; [done|]. intros ->. apply Hplain. compute_done.
  - by rewrite Hh, decide_True, Hsrc.
  - apply get_tagged.
  - intros Hnone. by pose proof (eq_trans (eq_sym Hres) Hnone).
Qed.

Lemma example_cats_no_proto r : source_key example_cats r ≠ Some "__proto__".
Proof. destruct r as [[|[|ci]] [|j]]; by vm_compute. Qed.

Lemma inbound_throws_iff_witness :
  inbound {| Location.pathname := "/"; Location.search := "?id=a1";
             Location.hash := "" |}
    (Loader.loading (useNsi (Parsed example_json)
                       [Loader.Render; Loader.Settle]))
    (Loader.data (useNsi (Parsed example_json)
                    [Loader.Render; Loader.Settle])) [] "" = None
  ↔ stringQs "?id=a1" = None.
Proof.
  apply (inbound_throws_iff (Parsed example_json)
           [Loader.Render; Loader.Settle]
           {| Location.pathname := "/"; Location.search := "?id=a1";
              Location.hash := "" |} [] "").
  - intros json cats [= <-] [= <-]. split_and!.
    + apply example_cats_nodup.
    + by repeat constructor.
    + apply example_cats_no_proto.
  - reflexivity.
  - intros q [= <-]. compute_done.
Defined.

(** X27: once the index is loaded, an [id] that names a property of
    [Object.prototype] and is the id of no item makes the inbound sync
    throw: [byId[id]] is a function, or [Object.prototype] itself, which
    has no [tkv] to split.  No item of the response has the id
    [__proto__]. *)
Theorem inbound_throws_on_inherited_id json cats h ix location params hash q
    itemID :
  Nsi.nsi json = Some cats → NoDup cats.*1 →
  build_index json = Some (h, ix) →
  stringQs (Location.search location) = Some q →
  Obj.get q "id" = Str itemID → itemID ∈ Obj.proto_names →
  (∀ r, source_key cats r ≠ Some itemID) →
  (∀ r, source_key cats r ≠ Some "__proto__") →
  inbound location false (Some (h, ix)) params hash = None.
Proof.
  intros Hcats Hnodup Hbuild Hq Hid Hin Hnone Hnoproto.
  unfold inbound, resolve_id. rewrite Hq. cbn [mbind option_bind].
  rewrite Hid. rewrite truthy_str by (intros ->; revert Hin; compute_done).
  cbn [mbind option_bind fst snd to_string].
  rewrite (read_unassigned json cats) by done.
  unfold Index.inherited. by rewrite decide_True.
Qed.

Lemma inbound_throws_on_inherited_id_witness :
  inbound {| Location.pathname := "/"; Location.search := "?id=constructor";
             Location.hash := "" |} false
    (Some (default (Nsi.heap_of [], {| Index.path := ∅; Index.id := ∅;
                                       Index.id_proto := None;
                                       Index.meta := Undefined |})
             (build_index example_json))) [] "" = None.
Proof.
  apply (inbound_throws_on_inherited_id example_json example_cats _ _
           {| Location.pathname := "/"; Location.search := "?id=constructor";
              Location.hash := "" |} [] ""
           [("id", Str "constructor")] "constructor");
    first [reflexivity | apply example_cats_nodup | compute_done
          | apply example_cats_no_proto
          | (intros [[|[|ci]] [|j]]; by vm_compute)].
Defined.

(** X28: reading the loaded index by id.  What [byId[k]] reads as an
    item is the item assigned under [k] last; and the item assigned under
    [k] last is what [byId[k]] reads, unless [k] is [__proto__] and items
    carry a field [__proto__] of their own. *)
Theorem index_read_assigned json cats h ix k r :
  Nsi.nsi json = Some cats → NoDup cats.*1 →
  build_index json = Some (h, ix) →
  (Index.read h ix k = Index.Item r → Index.id ix !! k = Some r)
  ∧ (Index.id ix !! k = Some r →
     (k = "__proto__" →
      ∀ r' tkv it, source cats r' = Some (tkv, it) → "__proto__" ∉ it.*1) →
     Index.read h ix k = Index.Item r).
Proof.
  intros Hcats Hnodup Hbuild. split; [apply read_item_inv|].
  intros Hr Hfield.
  destruct (build_index_inv cats (Nsi._meta json) Hnodup json Hcats eq_refl)
    as (s & Hs & [Hh _ Hids _ _]).
  rewrite Hbuild in Hs. injection Hs as <-. cbn [fst snd] in *.
  pose proof Hr as (Hlt & Hk & _)%Hids. unfold source_key in Hk.
  destruct (source cats r) as [[tkv it]|] eqn:Hsrc; [|done].
  apply read_assigned with (tagged tkv it); [done| |].
  - by rewrite Hh, decide_True, Hsrc.
  - intros Heq. unfold tagged. rewrite elem_of_keys_set.
    intros [?|?]; [done|]. by eapply (Hfield Heq r).
Qed.

Lemma index_read_assigned_witness :
  let s := default (Nsi.heap_of [], {| Index.path := ∅; Index.id := ∅;
                                       Index.id_proto := None;
                                       Index.meta := Undefined |})
             (build_index shared_json) in
  (Index.read s.1 s.2 "d" = Index.Item (1, 1) →
   Index.id s.2 !! "d" = Some (1, 1))
  ∧ (Index.id s.2 !! "d" = Some (1, 1) →
     ("d" = "__proto__" →
      ∀ r' tkv it, source shared_cats r' = Some (tkv, it) →
                   "__proto__" ∉ it.*1) →
     Index.read s.1 s.2 "d" = Index.Item (1, 1)).
Proof.
  apply (index_read_assigned shared_json shared_cats);
    [reflexivity | apply shared_cats_nodup | reflexivity].
Defined.

End Safe.

(** ** What the two caches hold *)

Section Caches.
Import Js.

(** X23: the index lists no category the response lacks: an entry of
    [path] is the [items] array of the category with that key, an entry of
    [id] is an item of an array category whose id is that key, [meta] is
    [_meta] as parsed, and an item object in memory is the parsed one with
    the key of its category written into [tkv]. *)
Theorem index_holds_nothing_else json cats :
  Nsi.nsi json = Some cats → NoDup cats.*1 →
  ∃ h ix,
    build_index json = Some (h, ix)
    ∧ (∀ tkv arr, Index.path ix !! tkv = Some arr →
         ∃ ci c its, cats !! ci = Some (tkv, c) ∧ Nsi.items c = Some its
                     ∧ arr = Nsi.array_of ci its)
    ∧ (∀ k r, Index.id ix !! k = Some r →
         ∃ tkv c its it, cats !! r.1 = Some (tkv, c) ∧ Nsi.items c = Some its
                         ∧ its !! r.2 = Some it ∧ key_of it = k)
    ∧ Index.meta ix = Nsi._meta json
    ∧ (∀ r item, h r = Some item →
         ∃ item0 tkv c, cats !! r.1 = Some (tkv, c)
                        ∧ Nsi.heap_of cats r = Some item0
                        ∧ item = Obj.set "tkv" (Str tkv) item0).
Proof.
  intros Hcats Hnodup.
  destruct (build_index_inv cats (Nsi._meta json) Hnodup json Hcats eq_refl)
    as ([h ix] & Hbuild & [Hh Hp Hid _ Hmeta]).
  cbn [fst snd] in *. exists h, ix.
  split_and!; [done| | | done |].
  - intros tkv arr (ci & c & its & _ & ? & ? & ?)%Hp. by exists ci, c, its.
  - intros k r (_ & Hk & _)%Hid. unfold source_key in Hk.
    destruct (source cats r) as [[tkv it]|] eqn:Hsrc; [|done].
    apply source_inv in Hsrc as (c & its & ? & ? & ?).
    exists tkv, c, its, it. by simplify_eq/=.
  - intros r item Hr. rewrite Hh in Hr. rewrite heap_of_source.
    assert (r.1 < length cats) as Hlt.
    { destruct (decide (r.1 < length cats)) as [|Hge]; [done|].
      unfold source in Hr. rewrite lookup_ge_None_2 in Hr by lia. done. }
    rewrite decide_True in Hr by done.
    destruct (source cats r) as [[tkv it]|] eqn:Hsrc; [|done].
    injection Hr as <-.
    apply source_inv in Hsrc as (c & its & ? & _ & _).
    by exists it, tkv, c.
Qed.

Lemma index_holds_nothing_else_witness :
  ∃ h ix,
    build_index example_json = Some (h, ix)
    ∧ (∀ tkv arr, Index.path ix !! tkv = Some arr →
         ∃ ci c its, example_cats !! ci = Some (tkv, c)
                     ∧ Nsi.items c = Some its
                     ∧ arr = Nsi.array_of ci its)
    ∧ (∀ k r, Index.id ix !! k = Some r →
         ∃ tkv c its it, example_cats !! r.1 = Some (tkv, c)
                         ∧ Nsi.items c = Some its
                         ∧ its !! r.2 = Some it ∧ key_of it = k)
    ∧ Index.meta ix = Nsi._meta example_json
    ∧ (∀ r item, h r = Some item →
         ∃ item0 tkv c, example_cats !! r.1 = Some (tkv, c)
                        ∧ Nsi.heap_of example_cats r = Some item0
                        ∧ item = Obj.set "tkv" (Str tkv) item0).
Proof.
  apply (index_holds_nothing_else example_json example_cats);
    [reflexivity | apply example_cats_nodup].
Defined.

Lemma composite_nonempty tag :
  truthy (Taginfo.key tag) = true → composite tag ≠ "".
Proof.
  unfold composite. destruct (Taginfo.key tag) as [|[|c s]]; try done.
  intros _. by destruct (truthy (Taginfo.value tag)).
Qed.

(** X24: the icon table never holds an empty or missing URL, and never
    files one under the empty key: whatever it holds is truthy. *)
Theorem icons_entries_nonempty json icons kv v :
  build_icons json = Some icons → icons !! kv = Some v →
  ∃ url, v = Str url ∧ url ≠ "" ∧ kv ≠ "".
Proof.
  unfold build_icons. destruct (Taginfo.tags json) as [tags|]; [|done].
  simpl. intros [= <-]. rewrite foldl_visit_tag.
  case_decide; [done|].
  destruct (last _) as [tag|] eqn:Hlast; [|done]. intros [= <-].
  apply last_Some_elem_of, list_elem_of_filter in Hlast as [[Hc <-] _].
  apply andb_true_iff in Hc as [Hu Hk].
  destruct (truthy_inv _ Hu) as (url & -> & ?). exists url.
  split_and!; [done..|]. by apply composite_nonempty.
Qed.

Lemma icons_entries_nonempty_witness :
  ∃ url, Str "u2" = Str url ∧ url ≠ "" ∧ "shop/bakery" ≠ "".
Proof.
  apply (icons_entries_nonempty {| Taginfo.tags := Some example_tags |}
           (foldl visit_tag ∅ example_tags) "shop/bakery" (Str "u2"));
    reflexivity.
Defined.

Lemma foldl_visit_tag_filter tags icons :
  foldl visit_tag icons (filter (λ tag, contributes tag = true) tags)
  = foldl visit_tag icons tags.
Proof.
  revert icons. induction tags as [|tag tags IH]; intros icons; [done|].
  rewrite filter_cons. cbn [foldl]. case_decide as Hc.
  - cbn [foldl]. apply IH.
  - rewrite IH. f_equal. rewrite visit_tag_write. unfold tag_write.
    by destruct (contributes tag).
Qed.

(** X25: a tag without an icon URL or without a key leaves no trace:
    dropping such tags from the response gives the same table. *)
Theorem icons_ignore_incomplete_tags tags :
  build_icons {| Taginfo.tags :=
                   Some (filter (λ tag, contributes tag = true) tags) |}
  = build_icons {| Taginfo.tags := Some tags |}.
Proof. unfold build_icons. simpl. by rewrite foldl_visit_tag_filter. Qed.

End Caches.

(** ** The two effects together *)

Section Settles.
Import Js.

Lemma ordered_params_no_id params :
  truthy (Obj.get params "id") = false →
  truthy (Obj.get (ordered_params params) "id") = false.
Proof.
  intros Hid. rewrite ordered_params_spec, truthy_ordered by compute_done.
  by rewrite Hid.
Qed.

(** X26: the two effects settle.  At the location the outbound sync
    navigates to (the ordered parameters as query string, the stored
    hash), and with no [id] among the parameters, the inbound sync commits
    the ordered parameters, or nothing when the stored ones encode alike;
    and once the ordered parameters are stored, neither effect does
    anything more. *)
Theorem sync_settles pathname indexLoading index params hash :
  wf_obj params → truthy (Obj.get params "id") = false →
  let loc := {| Location.pathname := pathname;
                Location.search := "?" +:+ qsString (ordered_params params);
                Location.hash := hash |} in
  inbound loc indexLoading index params hash
  = Some (if bool_decide (qsString params = qsString (ordered_params params))
          then Keep else Commit hash (ordered_params params))
  ∧ both_effects loc indexLoading index (ordered_params params) hash
    = Some (Keep, None).
Proof.
  intros Hwf Hid loc.
  assert (∀ stored,
            inbound loc indexLoading index stored hash
            = Some (if bool_decide (qsString stored
                                    = qsString (ordered_params params))
                    then Keep else Commit hash (ordered_params params)))
    as Hin.
  { intros stored. unfold inbound, resolve_id. cbn [Location.search loc].
    rewrite stringQs_ordered by done. cbn [mbind option_bind].
    rewrite ordered_params_no_id by done. cbn [mbind option_bind].
    cbn [Location.hash Location.search loc].
    rewrite (bool_decide_false (hash ≠ hash)) by (by intros []).
    rewrite orb_false_l. case_bool_decide as Hs.
    - rewrite bool_decide_false by (intros Heq; apply Hs; by rewrite Heq).
      by rewrite stringQs_ordered.
    - rewrite bool_decide_true; [done|]. by injection Hs. }
  split; [apply Hin|].
  unfold both_effects. rewrite Hin, bool_decide_true by done.
  cbn [mbind option_bind did_change]. unfold outbound.
  destruct indexLoading; [done|].
  rewrite ordered_params_twice. cbn [Location.hash Location.search loc].
  by rewrite !bool_decide_false by (by intros []).
Qed.

Lemma sync_settles_witness :
  let params := [("v", Str "a&b"); ("k", Str "café")] in
  let loc := {| Location.pathname := "/";
                Location.search := "?" +:+ qsString (ordered_params params);
                Location.hash := "#x" |} in
  inbound loc false None params "#x"
  = Some (if bool_decide (qsString params = qsString (ordered_params params))
          then Keep else Commit "#x" (ordered_params params))
  ∧ both_effects loc false None (ordered_params params) "#x"
    = Some (Keep, None).
Proof.
  apply (sync_settles "/" false None [("v", Str "a&b"); ("k", Str "café")] "#x");
    [by repeat constructor | reflexivity].
Defined.

End Settles.
